(** * useStorage: the storage hook of react-hooks-utils, embedded in Rocq

    Source: [src/storage/hooks/useStorage.ts] and
    [src/storage/interface/useStorage.interface.ts].

    Part I embeds the program: the JavaScript values the hook stores, the
    runtime services it calls ([JSON.stringify], [JSON.parse],
    [encodeURIComponent], [decodeURIComponent], [Date], [Storage],
    [document.cookie], [setInterval]), then the source functions themselves
    ([getCookie], [setCookie], [removeCookie], the class
    [StoragePollingManager], and the closures of [useStorage]).

    Part II states and proves the properties. *)

From Stdlib Require Import ZArith NArith String Ascii Lia.
From stdpp Require Import gmap.

Set Warnings "-register-all".

(* ===================================================================== *)
(** * Part I. The embedding                                               *)
(* ===================================================================== *)

(** ** JavaScript strings

    A JavaScript string is a sequence of UTF-16 code units.  A code unit is
    an [N]; every function below treats the text exactly as the runtime
    does, unit by unit.  [str] turns a Rocq literal into such a string. *)

Module Str.
Local Open Scope N_scope.

Abbreviation jsstring := (list N) (only parsing).

Definition unit_of_ascii (a : ascii) : N :=
  let bit (b : bool) (n : N) := if b then N.succ_double n else N.double n in
  match a with
  | Ascii b0 b1 b2 b3 b4 b5 b6 b7 =>
      bit b0 (bit b1 (bit b2 (bit b3 (bit b4 (bit b5 (bit b6 (bit b7 0)))))))
  end.

Fixpoint str (s : string) : jsstring :=
  match s with
  | EmptyString => []
  | String a r => unit_of_ascii a :: str r
  end.

(** [starts_with p s] is [Some rest] when [s = p ++ rest]. *)
Fixpoint starts_with (p s : jsstring) : option jsstring :=
  match p with
  | [] => Some s
  | a :: p' =>
      match s with
      | [] => None
      | b :: s' => if a =? b then starts_with p' s' else None
      end
  end.

(** [span f s] splits [s] after its longest prefix satisfying [f]. *)
Fixpoint span (f : N -> bool) (s : jsstring) : jsstring * jsstring :=
  match s with
  | [] => ([], [])
  | c :: r =>
      if f c then let '(a, b) := span f r in (c :: a, b) else ([], s)
  end.

(** [String.prototype.split] on a one-unit separator. *)
Fixpoint split (sep : N) (s : jsstring) : list jsstring :=
  match s with
  | [] => [[]]
  | c :: r =>
      if c =? sep then [] :: split sep r
      else match split sep r with
           | [] => [[c]]
           | p :: ps => (c :: p) :: ps
           end
  end.

(** [Array.prototype.join]. *)
Fixpoint join (sep : jsstring) (l : list jsstring) : jsstring :=
  match l with
  | [] => []
  | [x] => x
  | x :: rest => x ++ sep ++ join sep rest
  end.

Definition is_digit (c : N) : bool := (48 <=? c) && (c <=? 57).

(** Value of a run of decimal digits, most significant first. *)
Definition digits_value (ds : jsstring) : N :=
  fold_left (fun acc c => acc * 10 + (c - 48)) ds 0.

Fixpoint decimal_aux (fuel : nat) (n : N) (acc : jsstring) : jsstring :=
  match fuel with
  | O => acc
  | S f =>
      if n <? 10 then (48 + n) :: acc
      else decimal_aux f (n / 10) ((48 + n mod 10) :: acc)
  end.

(** Decimal digits of [n], without leading zeros ("0" for zero). *)
Definition decimal (n : N) : jsstring :=
  decimal_aux (S (N.to_nat (N.size n))) n [].

Definition hex_digit (upper : bool) (d : N) : N :=
  if d <? 10 then 48 + d else (if upper then 55 else 87) + d.

Definition unhex (c : N) : option N :=
  if (48 <=? c) && (c <=? 57) then Some (c - 48)
  else if (97 <=? c) && (c <=? 102) then Some (c - 87)
  else if (65 <=? c) && (c <=? 70) then Some (c - 55)
  else None.

Definition is_high_surrogate (c : N) : bool := (55296 <=? c) && (c <=? 56319).
Definition is_low_surrogate (c : N) : bool := (56320 <=? c) && (c <=? 57343).

End Str.

Import Str.

(** ** JavaScript values and JSON

    [StorageValue = string | number | boolean | unknown[] |
    Record<string, unknown> | null]. *)

Module Json.
Local Open Scope N_scope.

(** Numbers.  A finite number is kept as the decimal that denotes it (for a
    double: the shortest decimal that identifies it, which is what
    Number::toString prints): an integer [Int z], or [Frac m k] for
    [m / 10^k] with [k > 0] and [m] not a multiple of ten.  Printing and
    reading are modelled on these decimals; the rounding of a literal that
    has more digits than a double holds, the overflow and underflow of a
    literal beyond the range of doubles, and the sign of zero, are not. *)
Inductive number : Type :=
  | NaN
  | Infinity (negative : bool)
  | Int (z : Z)
  | Frac (m : Z) (k : N).

Inductive StorageValue : Type :=
  | VNull
  | VBool (b : bool)
  | VNum (n : number)
  | VStr (s : jsstring)
  | VArr (elems : list StorageValue)
  | VObj (props : list (jsstring * StorageValue)).

(** [typeof v === 'string'] *)
Definition is_string (v : StorageValue) : bool :=
  match v with VStr _ => true | _ => false end.

(** *** Number::toString (radix 10) *)

Fixpoint strip_trailing_zeros_rev (r : jsstring) : jsstring :=
  match r with
  | c :: r' => if c =? 48 then strip_trailing_zeros_rev r' else r
  | [] => []
  end.

Definition strip_trailing_zeros (ds : jsstring) : jsstring :=
  rev (strip_trailing_zeros_rev (rev ds)).

(** Exponential form: [ds] are the significant digits and the value is
    [0.ds * 10^n]. *)
Definition exponential (ds : jsstring) (n : Z) : jsstring :=
  let e := (n - 1)%Z in
  let mant := match ds with
              | [] => []
              | d :: [] => [d]
              | d :: rest => d :: 46 :: rest
              end in
  mant ++ 101 :: (if (0 <=? e)%Z then 43 else 45) :: decimal (Z.abs_N e).

Definition number_to_string (x : number) : jsstring :=
  match x with
  | NaN => str "NaN"
  | Infinity neg => (if neg then [45] else []) ++ str "Infinity"
  | Int z =>
      let a := Z.abs_N z in
      (if (z <? 0)%Z then [45] else []) ++
      (if a <? 10 ^ 21 then decimal a
       else exponential (strip_trailing_zeros (decimal a))
                        (Z.of_nat (length (decimal a))))
  | Frac m k =>
      let ds := decimal (Z.abs_N m) in
      let n := (Z.of_nat (length ds) - Z.of_N k)%Z in
      (if (m <? 0)%Z then [45] else []) ++
      (if (0 <? n)%Z && (n <=? 21)%Z then
         firstn (Z.to_nat n) ds ++ 46 :: skipn (Z.to_nat n) ds
       else if (-6 <? n)%Z && (n <=? 0)%Z then
         48 :: 46 :: repeat 48 (Z.to_nat (- n)) ++ ds
       else exponential ds n)
  end.

(** *** JSON.stringify (no replacer, no indentation) *)

Definition hex4 (c : N) : jsstring :=
  [ hex_digit false (c / 4096 mod 16); hex_digit false (c / 256 mod 16);
    hex_digit false (c / 16 mod 16); hex_digit false (c mod 16) ].

Definition unicode_escape (c : N) : jsstring := 92 :: 117 :: hex4 c.

(** QuoteJSONString on one code unit that is not a surrogate. *)
Definition escape_unit (c : N) : jsstring :=
  if c =? 8 then [92; 98]
  else if c =? 9 then [92; 116]
  else if c =? 10 then [92; 110]
  else if c =? 12 then [92; 102]
  else if c =? 13 then [92; 114]
  else if c =? 34 then [92; 34]
  else if c =? 92 then [92; 92]
  else if c <? 32 then unicode_escape c
  else [c].

Definition next_is_low (s : jsstring) : bool :=
  match s with c :: _ => is_low_surrogate c | [] => false end.

(** The body of QuoteJSONString.  The runtime walks code points; unit by
    unit this means: a high surrogate followed by a low one, and a low one
    preceded by a high one, are copied; any other surrogate is escaped.
    [after_high] tells whether the previous unit was a high surrogate. *)
Fixpoint quote_chars (after_high : bool) (s : jsstring) : jsstring :=
  match s with
  | [] => []
  | c :: r =>
      (if is_high_surrogate c then
         (if next_is_low r then [c] else unicode_escape c)
       else if is_low_surrogate c then
         (if after_high then [c] else unicode_escape c)
       else escape_unit c)
      ++ quote_chars (is_high_surrogate c) r
  end.

Definition quote (s : jsstring) : jsstring :=
  34 :: quote_chars false s ++ [34].

Fixpoint stringify (v : StorageValue) : jsstring :=
  match v with
  | VNull => str "null"
  | VBool true => str "true"
  | VBool false => str "false"
  | VNum (Int z) => number_to_string (Int z)
  | VNum (Frac m k) => number_to_string (Frac m k)
  | VNum _ => str "null"
  | VStr s => quote s
  | VArr vs =>
      91 :: (fix elements (l : list StorageValue) : jsstring :=
               match l with
               | [] => [93]
               | x :: rest =>
                   stringify x ++
                   match rest with
                   | [] => [93]
                   | _ :: _ => 44 :: elements rest
                   end
               end) vs
  | VObj ps =>
      123 :: (fix members (l : list (jsstring * StorageValue)) : jsstring :=
                match l with
                | [] => [125]
                | (k, x) :: rest =>
                    quote k ++ 58 :: stringify x ++
                    match rest with
                    | [] => [125]
                    | _ :: _ => 44 :: members rest
                    end
                end) ps
  end.

(** *** JSON.parse (no reviver) *)

Definition is_ws (c : N) : bool :=
  (c =? 32) || (c =? 9) || (c =? 10) || (c =? 13).

Fixpoint skip_ws (s : jsstring) : jsstring :=
  match s with
  | c :: r => if is_ws c then skip_ws r else s
  | [] => []
  end.

Definition unescape (c : N) : option N :=
  if c =? 34 then Some 34
  else if c =? 92 then Some 92
  else if c =? 47 then Some 47
  else if c =? 98 then Some 8
  else if c =? 102 then Some 12
  else if c =? 110 then Some 10
  else if c =? 114 then Some 13
  else if c =? 116 then Some 9
  else None.

Definition unhex4 (a b c d : N) : option N :=
  match unhex a, unhex b, unhex c, unhex d with
  | Some x, Some y, Some z, Some w => Some (((x * 16 + y) * 16 + z) * 16 + w)
  | _, _, _, _ => None
  end.

(** The characters of a string literal, after its opening quote. *)
Fixpoint parse_chars (s : jsstring) : option (jsstring * jsstring) :=
  match s with
  | [] => None
  | c :: r =>
      if c =? 34 then Some ([], r)
      else if c =? 92 then
        match r with
        | [] => None
        | e :: r1 =>
            if e =? 117 then
              match r1 with
              | h1 :: h2 :: h3 :: h4 :: r2 =>
                  match unhex4 h1 h2 h3 h4 with
                  | Some u =>
                      match parse_chars r2 with
                      | Some (t, rest) => Some (u :: t, rest)
                      | None => None
                      end
                  | None => None
                  end
              | _ => None
              end
            else
              match unescape e with
              | Some u =>
                  match parse_chars r1 with
                  | Some (t, rest) => Some (u :: t, rest)
                  | None => None
                  end
              | None => None
              end
        end
      else if c <? 32 then None
      else
        match parse_chars r with
        | Some (t, rest) => Some (c :: t, rest)
        | None => None
        end
  end.

(** Canonical number for [m * 10^(-k)], [m > 0]. *)
Fixpoint strip_frac (k : nat) (m : N) : N * nat :=
  match k with
  | O => (m, O)
  | S k' => if m mod 10 =? 0 then strip_frac k' (m / 10) else (m, k)
  end.

(** The number a literal denotes, as its decimal. *)
Definition make_number (neg : bool) (m : N) (e10 : Z) : number :=
  let sign (z : Z) := if neg then (- z)%Z else z in
  if m =? 0 then Int 0
  else if (0 <=? e10)%Z then Int (sign (Z.of_N m * 10 ^ e10)%Z)
  else
    match strip_frac (Z.to_nat (- e10)) m with
    | (m', O) => Int (sign (Z.of_N m'))
    | (m', k) => Frac (sign (Z.of_N m')) (N.of_nat k)
    end.

(** The JSON number grammar: an optional minus sign; an integer part that
    is a lone zero or starts with a non-zero digit; an optional fraction (a
    dot and at least one digit); an optional exponent (e or E, an optional
    sign, at least one digit). *)
Definition parse_sign (s : jsstring) : bool * jsstring :=
  match s with
  | c :: r => if c =? 45 then (true, r) else (false, s)
  | [] => (false, s)
  end.

(** The optional fraction: its digits (none when there is no dot). *)
Definition parse_fraction (s : jsstring) : option (jsstring * jsstring) :=
  match s with
  | c :: r =>
      if c =? 46 then
        let '(fp, s3) := span is_digit r in
        match fp with [] => None | _ :: _ => Some (fp, s3) end
      else Some ([], s)
  | [] => Some ([], s)
  end.

(** The optional exponent: its value (zero when there is none). *)
Definition parse_exponent (s : jsstring) : option (Z * jsstring) :=
  match s with
  | c :: r =>
      if (c =? 101) || (c =? 69) then
        let '(eneg, r1) :=
          match r with
          | g :: r' =>
              if g =? 45 then (true, r')
              else if g =? 43 then (false, r')
              else (false, r)
          | [] => (false, r)
          end in
        let '(ep, s4) := span is_digit r1 in
        match ep with
        | [] => None
        | _ :: _ =>
            let e := Z.of_N (digits_value ep) in
            Some (if eneg then (- e)%Z else e, s4)
        end
      else Some (0%Z, s)
  | [] => Some (0%Z, s)
  end.

Definition parse_number (s : jsstring) : option (number * jsstring) :=
  let '(neg, s1) := parse_sign s in
  let '(ip, s2) := span is_digit s1 in
  match ip with
  | [] => None
  | d :: ds =>
      if (d =? 48) && negb (length ds =? 0)%nat then None
      else
        match parse_fraction s2 with
        | None => None
        | Some (fp, s3) =>
            match parse_exponent s3 with
            | None => None
            | Some (e, s4) =>
                Some (make_number neg (digits_value (ip ++ fp))
                        (e - Z.of_nat (length fp))%Z, s4)
            end
        end
  end.

(** Defining a property on an object under construction: a repeated name
    keeps its place and takes the later value.  The names are kept in the
    order of the text (the runtime lists the names that are array indices
    first). *)
Fixpoint obj_set (k : jsstring) (v : StorageValue)
    (ps : list (jsstring * StorageValue)) : list (jsstring * StorageValue) :=
  match ps with
  | [] => [(k, v)]
  | (k', v') :: rest =>
      if decide (k' = k) then (k', v) :: rest else (k', v') :: obj_set k v rest
  end.

Definition build_object (ps : list (jsstring * StorageValue)) : StorageValue :=
  VObj (fold_left (fun acc kv => obj_set (fst kv) (snd kv) acc) ps []).

(** Recursive descent.  [fuel] bounds the nesting of calls; [parse] gives
    one more than the length of the text, which no text can use up. *)
Fixpoint parse_value (fuel : nat) (s : jsstring)
  : option (StorageValue * jsstring) :=
  match fuel with
  | O => None
  | S f =>
      match skip_ws s with
      | [] => None
      | c :: r =>
          if c =? 110 then
            match starts_with (str "ull") r with
            | Some r' => Some (VNull, r') | None => None end
          else if c =? 116 then
            match starts_with (str "rue") r with
            | Some r' => Some (VBool true, r') | None => None end
          else if c =? 102 then
            match starts_with (str "alse") r with
            | Some r' => Some (VBool false, r') | None => None end
          else if c =? 34 then
            match parse_chars r with
            | Some (t, r') => Some (VStr t, r') | None => None end
          else if c =? 91 then
            match skip_ws r with
            | [] => None
            | c1 :: r1 =>
                if c1 =? 93 then Some (VArr [], r1)
                else match parse_elements f (c1 :: r1) with
                     | Some (vs, r') => Some (VArr vs, r')
                     | None => None
                     end
            end
          else if c =? 123 then
            match skip_ws r with
            | [] => None
            | c1 :: r1 =>
                if c1 =? 125 then Some (VObj [], r1)
                else match parse_members f (c1 :: r1) with
                     | Some (ps, r') => Some (build_object ps, r')
                     | None => None
                     end
            end
          else
            match parse_number (c :: r) with
            | Some (x, r') => Some (VNum x, r') | None => None end
      end
  end
with parse_elements (fuel : nat) (s : jsstring)
  : option (list StorageValue * jsstring) :=
  match fuel with
  | O => None
  | S f =>
      match parse_value f s with
      | None => None
      | Some (v, r) =>
          match skip_ws r with
          | [] => None
          | c :: r1 =>
              if c =? 44 then
                match parse_elements f r1 with
                | Some (vs, r') => Some (v :: vs, r')
                | None => None
                end
              else if c =? 93 then Some ([v], r1)
              else None
          end
      end
  end
with parse_members (fuel : nat) (s : jsstring)
  : option (list (jsstring * StorageValue) * jsstring) :=
  match fuel with
  | O => None
  | S f =>
      match skip_ws s with
      | [] => None
      | q :: r0 =>
          if q =? 34 then
            match parse_chars r0 with
            | None => None
            | Some (k, r1) =>
                match skip_ws r1 with
                | [] => None
                | c :: r2 =>
                    if c =? 58 then
                      match parse_value f r2 with
                      | None => None
                      | Some (v, r3) =>
                          match skip_ws r3 with
                          | [] => None
                          | d :: r4 =>
                              if d =? 44 then
                                match parse_members f r4 with
                                | Some (ps, r') => Some ((k, v) :: ps, r')
                                | None => None
                                end
                              else if d =? 125 then Some ([(k, v)], r4)
                              else None
                          end
                      end
                    else None
                end
            end
          else None
      end
  end.

(** [JSON.parse]: [None] stands for the thrown SyntaxError. *)
Definition parse (s : jsstring) : option StorageValue :=
  match parse_value (S (length s)) s with
  | Some (v, r) =>
      match skip_ws r with [] => Some v | _ :: _ => None end
  | None => None
  end.

End Json.

(** ** encodeURIComponent and decodeURIComponent *)

Module Uri.
Local Open Scope N_scope.

(** The unreserved set of [encodeURIComponent]: letters, digits and
    [- _ . ! ~ * ' ( )]. *)
Definition unreserved (c : N) : bool :=
  ((65 <=? c) && (c <=? 90)) || ((97 <=? c) && (c <=? 122)) ||
  ((48 <=? c) && (c <=? 57)) ||
  (c =? 45) || (c =? 95) || (c =? 46) || (c =? 33) || (c =? 126) ||
  (c =? 42) || (c =? 39) || (c =? 40) || (c =? 41).

Definition utf8 (cp : N) : list N :=
  if cp <? 128 then [cp]
  else if cp <? 2048 then [192 + cp / 64; 128 + cp mod 64]
  else if cp <? 65536 then
    [224 + cp / 4096; 128 + cp / 64 mod 64; 128 + cp mod 64]
  else
    [240 + cp / 262144; 128 + cp / 4096 mod 64; 128 + cp / 64 mod 64;
     128 + cp mod 64].

Definition percent (b : N) : jsstring :=
  [37; hex_digit true (b / 16); hex_digit true (b mod 16)].

Definition percent_all (bs : list N) : jsstring := concat (map percent bs).

(** [None] stands for the thrown URIError (an unpaired surrogate). *)
Fixpoint encodeURIComponent (s : jsstring) : option jsstring :=
  match s with
  | [] => Some []
  | c :: r =>
      if unreserved c then
        match encodeURIComponent r with
        | Some t => Some (c :: t) | None => None end
      else if is_high_surrogate c then
        match r with
        | c2 :: r2 =>
            if is_low_surrogate c2 then
              match encodeURIComponent r2 with
              | Some t =>
                  Some (percent_all
                          (utf8 (65536 + (c - 55296) * 1024 + (c2 - 56320)))
                        ++ t)
              | None => None
              end
            else None
        | [] => None
        end
      else if is_low_surrogate c then None
      else if 65536 <=? c then None
      else
        match encodeURIComponent r with
        | Some t => Some (percent_all (utf8 c) ++ t) | None => None end
  end.

Inductive token : Type :=
  | Lit (c : N)
  | Octet (b : N).

(** First pass of Decode: every [%] must be followed by two hex digits. *)
Fixpoint octets (s : jsstring) : option (list token) :=
  match s with
  | [] => Some []
  | c :: r =>
      if c =? 37 then
        match r with
        | h1 :: h2 :: r2 =>
            match unhex h1, unhex h2, octets r2 with
            | Some x, Some y, Some ts => Some (Octet (x * 16 + y) :: ts)
            | _, _, _ => None
            end
        | _ => None
        end
      else
        match octets r with
        | Some ts => Some (Lit c :: ts) | None => None end
  end.

Definition is_cont (b : N) : bool := (128 <=? b) && (b <=? 191).

Definition utf16 (cp : N) : jsstring :=
  if cp <? 65536 then [cp]
  else [55296 + (cp - 65536) / 1024; 56320 + (cp - 65536) mod 1024].

(** Second pass of Decode: the octets must form well-formed UTF-8 (no
    overlong form, no surrogate, nothing above U+10FFFF). *)
Fixpoint assemble (ts : list token) : option jsstring :=
  match ts with
  | [] => Some []
  | Lit c :: r =>
      match assemble r with Some t => Some (c :: t) | None => None end
  | Octet b :: r =>
      if b <? 128 then
        match assemble r with Some t => Some (b :: t) | None => None end
      else if (192 <=? b) && (b <=? 223) then
        match r with
        | Octet b2 :: r2 =>
            let cp := (b - 192) * 64 + (b2 - 128) in
            if is_cont b2 && (128 <=? cp) then
              match assemble r2 with
              | Some t => Some (utf16 cp ++ t) | None => None end
            else None
        | _ => None
        end
      else if (224 <=? b) && (b <=? 239) then
        match r with
        | Octet b2 :: Octet b3 :: r3 =>
            let cp := ((b - 224) * 64 + (b2 - 128)) * 64 + (b3 - 128) in
            if is_cont b2 && is_cont b3 && (2048 <=? cp) &&
               negb ((55296 <=? cp) && (cp <=? 57343)) then
              match assemble r3 with
              | Some t => Some (utf16 cp ++ t) | None => None end
            else None
        | _ => None
        end
      else if (240 <=? b) && (b <=? 247) then
        match r with
        | Octet b2 :: Octet b3 :: Octet b4 :: r4 =>
            let cp := (((b - 240) * 64 + (b2 - 128)) * 64 + (b3 - 128)) * 64
                      + (b4 - 128) in
            if is_cont b2 && is_cont b3 && is_cont b4 &&
               (65536 <=? cp) && (cp <=? 1114111) then
              match assemble r4 with
              | Some t => Some (utf16 cp ++ t) | None => None end
            else None
        | _ => None
        end
      else None
  end.

(** [None] stands for the thrown URIError. *)
Definition decodeURIComponent (s : jsstring) : option jsstring :=
  match octets s with
  | Some ts => assemble ts
  | None => None
  end.

End Uri.

(** ** Date: time values, [setTime], [toUTCString] *)

Module Date.
Local Open Scope Z_scope.

Definition msPerDay : Z := 86400000.

(** TimeClip: a time value beyond 8.64e15 ms is an invalid date ([None]). *)
Definition setTime (t : Z) : option Z :=
  if Z.abs t <=? 8640000000000000 then Some t else None.

(** Civil date (year, month 1..12, day 1..31) of a day number counted from
    1970-01-01, in the proleptic Gregorian calendar. *)
Definition civil_from_days (day : Z) : Z * Z * Z :=
  let z := day + 719468 in
  let era := z / 146097 in
  let doe := z - era * 146097 in
  let yoe := (doe - doe / 1460 + doe / 36524 - doe / 146096) / 365 in
  let doy := doe - (365 * yoe + yoe / 4 - yoe / 100) in
  let mp := (5 * doy + 2) / 153 in
  let d := doy - (153 * mp + 2) / 5 + 1 in
  let m := if mp <? 10 then mp + 3 else mp - 9 in
  let y := yoe + era * 400 + (if m <=? 2 then 1 else 0) in
  (y, m, d).

Definition days_from_civil (y m d : Z) : Z :=
  let y' := if m <=? 2 then y - 1 else y in
  let era := y' / 400 in
  let yoe := y' - era * 400 in
  let doy := (153 * (if 2 <? m then m - 3 else m + 9) + 2) / 5 + d - 1 in
  let doe := yoe * 365 + yoe / 4 - yoe / 100 + doy in
  era * 146097 + doe - 719468.

Definition day_names : list string :=
  ["Sun"; "Mon"; "Tue"; "Wed"; "Thu"; "Fri"; "Sat"]%string.

Definition month_names : list string :=
  ["Jan"; "Feb"; "Mar"; "Apr"; "May"; "Jun";
   "Jul"; "Aug"; "Sep"; "Oct"; "Nov"; "Dec"]%string.

Definition name_at (names : list string) (i : Z) : jsstring :=
  str (nth (Z.to_nat i) names ""%string).

(** ToZeroPaddedDecimalString *)
Definition padded (width : nat) (n : Z) : jsstring :=
  let ds := decimal (Z.to_N n) in
  repeat 48%N (width - length ds) ++ ds.

(** [Date.prototype.toUTCString]:
    "Thu, 01 Jan 1970 00:00:00 GMT", or "Invalid Date". *)
Definition toUTCString (date : option Z) : jsstring :=
  match date with
  | None => str "Invalid Date"
  | Some t =>
      let day := t / msPerDay in
      let ms := t mod msPerDay in
      let '(y, m, d) := civil_from_days day in
      name_at day_names ((day + 4) mod 7) ++ str ", " ++
      padded 2 d ++ str " " ++ name_at month_names (m - 1) ++ str " " ++
      (if y <? 0 then [45%N] else []) ++ padded 4 (Z.abs y) ++ str " " ++
      padded 2 (ms / 3600000) ++ str ":" ++
      padded 2 (ms / 60000 mod 60) ++ str ":" ++
      padded 2 (ms / 1000 mod 60) ++ str " GMT"
  end.

End Date.

(** ** The browser: Storage areas, the cookie store, the console

    The cookie store follows RFC 6265: [document.cookie = s] parses [s] as a
    set-cookie-string (one that holds a control character is ignored), a
    cookie whose expiry is not in the future is evicted, and reading
    [document.cookie] serialises the live cookies in the order of their
    creation.  Scoping by path, domain, [Secure] and [SameSite] is not
    modelled: the store holds one cookie per name, and every cookie the page
    writes is taken to be accepted and in scope of the page.  There is no
    limit on the size or the number of the cookies. *)

Module Browser.

Record Storage : Type := {
  items : gmap jsstring jsstring;
  denied : bool;  (* every access throws a SecurityError *)
  full : bool     (* every [setItem] throws a QuotaExceededError *)
}.

Record cookie : Type := {
  cname : jsstring;
  cvalue : jsstring;
  cexpiry : option Z  (* ms since the epoch; [None]: session cookie *)
}.

Section CookieStore.
Local Open Scope N_scope.

Definition is_wsp (c : N) : bool := (c =? 32) || (c =? 9).

(** The control characters that make the store ignore a set-cookie-string:
    all but the tab. *)
Definition is_ctl (c : N) : bool :=
  (c <=? 8) || ((10 <=? c) && (c <=? 31)) || (c =? 127).

Fixpoint trim_left (s : jsstring) : jsstring :=
  match s with
  | c :: r => if is_wsp c then trim_left r else s
  | [] => []
  end.

Definition trim (s : jsstring) : jsstring :=
  rev (trim_left (rev (trim_left s))).

(** [cut c s]: [s] split at its first [c], if any. *)
Fixpoint cut (c : N) (s : jsstring) : option (jsstring * jsstring) :=
  match s with
  | [] => None
  | x :: r =>
      if x =? c then Some ([], r)
      else match cut c r with
           | Some (a, b) => Some (x :: a, b)
           | None => None
           end
  end.

Definition to_lower (c : N) : N :=
  if (65 <=? c) && (c <=? 90) then c + 32 else c.

(** Delimiters of the cookie-date grammar (RFC 6265, 5.1.1). *)
Definition is_delim (c : N) : bool :=
  (c =? 9) || ((32 <=? c) && (c <=? 47)) || ((59 <=? c) && (c <=? 64)) ||
  ((91 <=? c) && (c <=? 96)) || ((123 <=? c) && (c <=? 126)).

Fixpoint date_tokens (s cur : jsstring) : list jsstring :=
  match s with
  | [] => match cur with [] => [] | _ :: _ => [rev cur] end
  | c :: r =>
      if is_delim c then
        match cur with
        | [] => date_tokens r []
        | _ :: _ => rev cur :: date_tokens r []
        end
      else date_tokens r (c :: cur)
  end.

(** A field of one or two digits at the head of [s]. *)
Definition field (lo hi : nat) (s : jsstring) : option (Z * jsstring) :=
  let '(ds, rest) := span is_digit s in
  if (lo <=? length ds)%nat && (length ds <=? hi)%nat
  then Some (Z.of_N (digits_value ds), rest) else None.

Definition match_time (tok : jsstring) : option (Z * Z * Z) :=
  match field 1 2 tok with
  | Some (h, 58 :: r1) =>
      match field 1 2 r1 with
      | Some (m, 58 :: r2) =>
          match field 1 2 r2 with
          | Some (sec, _) => Some (h, m, sec)
          | None => None
          end
      | _ => None
      end
  | _ => None
  end.

Definition match_month (tok : jsstring) : option Z :=
  let key := map to_lower (firstn 3 tok) in
  (fix find (names : list string) (i : Z) : option Z :=
     match names with
     | [] => None
     | n :: rest =>
         if decide (map to_lower (str n) = key) then Some i
         else find rest (i + 1)%Z
     end) Date.month_names 1%Z.

Record date_fields : Type := {
  f_time : option (Z * Z * Z);
  f_day : option Z;
  f_month : option Z;
  f_year : option Z
}.

Definition date_step (a : date_fields) (tok : jsstring) : date_fields :=
  match f_time a, match_time tok with
  | None, Some t =>
      {| f_time := Some t; f_day := f_day a; f_month := f_month a;
         f_year := f_year a |}
  | _, _ =>
  match f_day a, field 1 2 tok with
  | None, Some (d, _) =>
      {| f_time := f_time a; f_day := Some d; f_month := f_month a;
         f_year := f_year a |}
  | _, _ =>
  match f_month a, match_month tok with
  | None, Some m =>
      {| f_time := f_time a; f_day := f_day a; f_month := Some m;
         f_year := f_year a |}
  | _, _ =>
  match f_year a, field 2 4 tok with
  | None, Some (y, _) =>
      {| f_time := f_time a; f_day := f_day a; f_month := f_month a;
         f_year := Some y |}
  | _, _ => a
  end end end end.

(** The cookie-date algorithm; the result is in ms since the epoch. *)
Definition parse_cookie_date (s : jsstring) : option Z :=
  let a := fold_left date_step (date_tokens s [])
             {| f_time := None; f_day := None; f_month := None;
                f_year := None |} in
  match f_time a, f_day a, f_month a, f_year a with
  | Some (h, mi, sec), Some d, Some m, Some y0 =>
      let y := (if (70 <=? y0) && (y0 <=? 99) then y0 + 1900
                else if (0 <=? y0) && (y0 <=? 69) then y0 + 2000
                else y0)%Z in
      if ((1 <=? d) && (d <=? 31) && (1601 <=? y) && (h <=? 23) &&
          (mi <=? 59) && (sec <=? 59))%Z
      then Some ((Date.days_from_civil y m d * 86400
                  + h * 3600 + mi * 60 + sec) * 1000)%Z
      else None
  | _, _, _, _ => None
  end.

(** The [Max-Age] attribute: an optional minus sign and digits. *)
Definition parse_max_age (now : Z) (s : jsstring) : option Z :=
  let '(neg, ds) := match s with
                    | c :: r => if c =? 45 then (true, r) else (false, s)
                    | [] => (false, s)
                    end in
  match ds with
  | [] => None
  | _ :: _ =>
      if forallb is_digit ds then
        let delta := Z.of_N (digits_value ds) in
        if neg || (delta =? 0)%Z then Some (-8640000000000000)%Z
        else Some (now + delta * 1000)%Z
      else None
  end.

(** The expiry a list of cookie attributes asks for: the last valid
    [Max-Age] if there is one, else the last valid [Expires]. *)
Fixpoint attributes_expiry (now : Z) (attrs : list jsstring)
    (expires max_age : option Z) : option Z :=
  match attrs with
  | [] => match max_age with Some t => Some t | None => expires end
  | a :: rest =>
      let '(an, av) := match cut 61 a with
                       | Some (n, v) => (trim n, trim v)
                       | None => (trim a, [])
                       end in
      let an := map to_lower an in
      if decide (an = str "expires") then
        match parse_cookie_date av with
        | Some t => attributes_expiry now rest (Some t) max_age
        | None => attributes_expiry now rest expires max_age
        end
      else if decide (an = str "max-age") then
        match parse_max_age now av with
        | Some t => attributes_expiry now rest expires (Some t)
        | None => attributes_expiry now rest expires max_age
        end
      else attributes_expiry now rest expires max_age
  end.

End CookieStore.

Definition live (now : Z) (c : cookie) : bool :=
  match cexpiry c with
  | Some t => (now <? t)%Z
  | None => true
  end.

(** Replace the cookie of the same name where it stands, or add it last. *)
Fixpoint store (c : cookie) (jar : list cookie) : list cookie :=
  match jar with
  | [] => [c]
  | c' :: rest =>
      if decide (cname c' = cname c) then c :: rest else c' :: store c rest
  end.

(** The effect of [document.cookie = s] on the cookie store. *)
Definition assign_cookie (now : Z) (s : jsstring) (jar : list cookie)
  : list cookie :=
  if existsb is_ctl s then jar else
  match split 59%N s with
  | [] => jar
  | nv :: attrs =>
      let '(name, val) := match cut 61%N nv with
                          | Some (n, v) => (trim n, trim v)
                          | None => ([], trim nv)
                          end in
      match name, val with
      | [], [] => jar
      | _, _ =>
          filter (fun c => live now c = true)
            (store {| cname := name; cvalue := val;
                      cexpiry := attributes_expiry now attrs None None |}
                   jar)
      end
  end.

Definition serialize (c : cookie) : jsstring :=
  match cname c with
  | [] => cvalue c
  | _ :: _ => cname c ++ 61%N :: cvalue c
  end.

(** The value read from [document.cookie]. *)
Definition cookie_string (now : Z) (jar : list cookie) : jsstring :=
  join (str "; ") (map serialize (filter (fun c => live now c = true) jar)).

Record t : Type := {
  hasWindow : bool;      (* [typeof window !== 'undefined'] *)
  hasDocument : bool;    (* [typeof document !== 'undefined'] *)
  localStorage : Storage;
  sessionStorage : Storage;
  cookieJar : list cookie;
  cookieDenied : bool;   (* every access to [document.cookie] throws *)
  cookieWrites : list jsstring; (* the strings assigned to
                                   [document.cookie], latest first *)
  now : Z;               (* the clock, ms since the epoch *)
  console : list jsstring (* what [console.warn] has printed, latest first *)
}.

End Browser.

(** ** Effects: state and exceptions

    A computation over a state [S] returns normally ([Ok]) or throws
    ([Throw]); either way it hands back the state it reached. *)

Module Eff.

Inductive exn : Type :=
  | SecurityError
  | QuotaExceededError
  | URIError.

Inductive result (A : Type) : Type :=
  | Ok (a : A)
  | Throw (e : exn).
Arguments Ok {A} a.
Arguments Throw {A} e.

Definition M (S A : Type) : Type := S -> result A * S.

#[export] Instance M_ret {S} : MRet (M S) := fun A a s => (Ok a, s).

#[export] Instance M_bind {S} : MBind (M S) := fun A B f m s =>
  match m s with
  | (Ok a, s') => f a s'
  | (Throw e, s') => (Throw e, s')
  end.

Definition throw {S A} (e : exn) : M S A := fun s => (Throw e, s).
Definition gets {S A} (f : S -> A) : M S A := fun s => (Ok (f s), s).
Definition modify {S} (f : S -> S) : M S unit := fun s => (Ok tt, f s).

(** [try { body } catch (e) { handler e }] *)
Definition try_catch {S A} (body : M S A) (handler : exn -> M S A) : M S A :=
  fun s =>
    match body s with
    | (Ok a, s') => (Ok a, s')
    | (Throw e, s') => handler e s'
    end.

(** Run a computation on a component of a larger state. *)
Definition zoom {S T A} (get : S -> T) (set : T -> S -> S) (m : M T A)
  : M S A :=
  fun s => let '(r, t') := m (get s) in (r, set t' s).

End Eff.

Import Eff.

(** ** class StoragePollingManager *)

Module StoragePollingManager.

(** The manager's two fields, and the part of the runtime it touches: the
    interval timers that are running.  A subscriber is named by the identity
    of its closure. *)
Record t : Type := {
  intervalId : option nat;
  subscribers : list nat;        (* a [Set], in insertion order *)
  window : bool;                 (* [typeof window !== 'undefined'] *)
  clearIntervalDefined : bool;   (* [typeof clearInterval !== 'undefined'] *)
  timers : list nat;             (* the intervals that are running *)
  fresh : nat                    (* the next timer id *)
}.

Definition POLL_INTERVAL : nat := 2000.

(** [new StoragePollingManager()] in a runtime with no timer running. *)
Definition create (window clearIntervalDefined : bool) : t :=
  {| intervalId := None; subscribers := []; window := window;
     clearIntervalDefined := clearIntervalDefined; timers := []; fresh := 1 |}.

(** [Set.prototype.add], [Set.prototype.delete] *)
Definition set_add (x : nat) (s : list nat) : list nat :=
  if decide (x ∈ s) then s else s ++ [x].

Definition set_delete (x : nat) (s : list nat) : list nat :=
  filter (fun y => y ≠ x) s.

Definition with_subscribers (subs : list nat) (m : t) : t :=
  {| intervalId := intervalId m; subscribers := subs; window := window m;
     clearIntervalDefined := clearIntervalDefined m; timers := timers m;
     fresh := fresh m |}.

Definition startPolling (m : t) : t :=
  if negb (window m) then m
  else
    (* this.intervalId = setInterval(..., this.POLL_INTERVAL) *)
    {| intervalId := Some (fresh m); subscribers := subscribers m;
       window := window m; clearIntervalDefined := clearIntervalDefined m;
       timers := timers m ++ [fresh m]; fresh := S (fresh m) |}.

Definition stopPolling (m : t) : t :=
  match intervalId m with
  | Some id =>
      {| intervalId := None; subscribers := subscribers m;
         window := window m; clearIntervalDefined := clearIntervalDefined m;
         timers := if clearIntervalDefined m
                   then filter (fun i => i ≠ id) (timers m)
                   else timers m;
         fresh := fresh m |}
  | None => m
  end.

(** The function [subscribe] returns, closed over [callback]. *)
Definition unsubscribe (callback : nat) (m : t) : t :=
  let m1 := with_subscribers (set_delete callback (subscribers m)) m in
  if (length (subscribers m1) =? 0) && bool_decide (intervalId m1 ≠ None)
  then stopPolling m1 else m1.

Definition subscribe (callback : nat) (m : t) : t :=
  let m1 := with_subscribers (set_add callback (subscribers m)) m in
  if (length (subscribers m1) =? 1) && bool_decide (intervalId m1 = None)
  then startPolling m1 else m1.

(** [this.subscribers.forEach(...)] over closures that do not call the
    manager while they run, as the change checks of the hooks: the walk then
    meets the subscribers as they are when the interval fires.  [call cb] is
    what closure [cb] does to the world [W] when it is invoked.  (Closures
    that register or release during the walk are the matter of [Interval]
    below.) *)
Fixpoint forEach {W} (subs : list nat) (f : nat -> M W unit) : M W unit :=
  match subs with
  | [] => mret tt
  | cb :: rest => f cb ;; forEach rest f
  end.

(** The function handed to [setInterval]. *)
Definition tick {W} (call : nat -> M W unit) (m : t) : M W unit :=
  forEach (subscribers m)
    (fun callback => try_catch (call callback) (fun _ => mret tt)).

End StoragePollingManager.

(** ** The DOM interface the hook calls *)

Module Dom.
Import Browser.

Inductive area : Type := Local | Session.

Definition get_area (a : area) (b : Browser.t) : Storage :=
  match a with Local => localStorage b | Session => sessionStorage b end.

Definition set_area (a : area) (s : Storage) (b : Browser.t) : Browser.t :=
  {| hasWindow := hasWindow b; hasDocument := hasDocument b;
     localStorage := match a with Local => s | Session => localStorage b end;
     sessionStorage :=
       match a with Local => sessionStorage b | Session => s end;
     cookieJar := cookieJar b; cookieDenied := cookieDenied b;
     cookieWrites := cookieWrites b; now := now b; console := console b |}.

Definition with_items (m : gmap jsstring jsstring) (s : Storage) : Storage :=
  {| items := m; denied := denied s; full := full s |}.

(** [window.localStorage.getItem(key)] and its siblings. *)
Definition getItem (a : area) (key : jsstring)
  : M Browser.t (option jsstring) :=
  fun b =>
    if denied (get_area a b) then (Throw SecurityError, b)
    else (Ok (items (get_area a b) !! key), b).

Definition setItem (a : area) (key val : jsstring) : M Browser.t unit :=
  fun b =>
    let s := get_area a b in
    if denied s then (Throw SecurityError, b)
    else if full s then (Throw QuotaExceededError, b)
    else (Ok tt, set_area a (with_items (<[key := val]> (items s)) s) b).

Definition removeItem (a : area) (key : jsstring) : M Browser.t unit :=
  fun b =>
    let s := get_area a b in
    if denied s then (Throw SecurityError, b)
    else (Ok tt, set_area a (with_items (delete key (items s)) s) b).

Definition clear (a : area) : M Browser.t unit :=
  fun b =>
    let s := get_area a b in
    if denied s then (Throw SecurityError, b)
    else (Ok tt, set_area a (with_items ∅ s) b).

(** Reading [document.cookie]. *)
Definition cookie : M Browser.t jsstring :=
  fun b =>
    if cookieDenied b then (Throw SecurityError, b)
    else (Ok (cookie_string (now b) (cookieJar b)), b).

(** [document.cookie = s] *)
Definition set_cookie (s : jsstring) : M Browser.t unit :=
  fun b =>
    if cookieDenied b then (Throw SecurityError, b)
    else (Ok tt,
          {| hasWindow := hasWindow b; hasDocument := hasDocument b;
             localStorage := localStorage b;
             sessionStorage := sessionStorage b;
             cookieJar := assign_cookie (now b) s (cookieJar b);
             cookieDenied := cookieDenied b;
             cookieWrites := s :: cookieWrites b;
             now := now b; console := console b |}).

(** [console.warn(message, error)] *)
Definition warn (message : jsstring) : M Browser.t unit :=
  modify (fun b =>
    {| hasWindow := hasWindow b; hasDocument := hasDocument b;
       localStorage := localStorage b; sessionStorage := sessionStorage b;
       cookieJar := cookieJar b; cookieDenied := cookieDenied b;
       cookieWrites := cookieWrites b; now := now b;
       console := message :: console b |}).

End Dom.

(** ** useStorage.ts: the cookie helpers and the hook *)

Module UseStorage.
Import Json Uri Browser.
Local Open Scope N_scope.

Inductive StorageType : Type := LocalStorage | SessionStorage | Cookie.

#[export] Instance StorageType_eq_dec : EqDecision StorageType.
Proof. solve_decision. Defined.

Inductive SameSite : Type := Strict | Lax | None_.

Record CookieOptions : Type := {
  expires : option number;
  path : option jsstring;
  domain : option jsstring;
  secure : option bool;
  sameSite : option SameSite
}.

(** [IUseStorageOptions]: an absent field is [None].  [onChange] tells
    whether the caller passed a callback. *)
Record IUseStorageOptions : Type := {
  storageType : option StorageType;
  defaultValue : option StorageValue;
  sync : option bool;
  cookieOptions : option CookieOptions;
  onChange : bool
}.

Definition type_name (ty : StorageType) : jsstring :=
  match ty with
  | LocalStorage => str "localStorage"
  | SessionStorage => str "sessionStorage"
  | Cookie => str "cookie"
  end.

Definition sameSite_name (x : SameSite) : jsstring :=
  match x with
  | Strict => str "Strict"
  | Lax => str "Lax"
  | None_ => str "None"
  end.

(** *** getCookie *)

(** [while (cookie.charAt(0) === ' ') cookie = cookie.substring(1)] *)
Fixpoint strip_spaces (cookie : jsstring) : jsstring :=
  match cookie with
  | c :: r => if c =? 32 then strip_spaces r else cookie
  | [] => []
  end.

(** The [for] loop of [getCookie]: [cookie.indexOf(nameEQ) === 0] holds
    when [cookie] starts with [nameEQ]. *)
Fixpoint getCookie_loop (nameEQ : jsstring) (cookies : list jsstring)
  : M Browser.t (option jsstring) :=
  match cookies with
  | [] => mret None
  | cookie :: rest =>
      match starts_with nameEQ (strip_spaces cookie) with
      | Some v =>
          match decodeURIComponent v with
          | Some d => mret (Some d)
          | None => throw URIError
          end
      | None => getCookie_loop nameEQ rest
      end
  end.

Definition getCookie (name : jsstring) : M Browser.t (option jsstring) :=
  d ← gets hasDocument;
  if negb d then mret None
  else
    let nameEQ := name ++ str "=" in
    c ← Dom.cookie;
    getCookie_loop nameEQ (split 59 c).

(** *** setCookie *)

(** [expires !== 0] is false for the number zero only. *)
Definition is_zero (days : number) : bool :=
  match days with
  | Int z => (z =? 0)%Z
  | Frac m _ => (m =? 0)%Z
  | NaN | Infinity _ => false
  end.

(** [date.getTime() + days * 24 * 60 * 60 * 1000] as [setTime] takes it:
    the time value cut to a whole number of milliseconds, or [None] when it
    is NaN or infinite.  A fraction of a day is taken exactly, without the
    rounding of doubles. *)
Definition time_after (now : Z) (days : number) : option Z :=
  match days with
  | Int d => Some (now + d * 24 * 60 * 60 * 1000)%Z
  | Frac m k =>
      Some ((now * 10 ^ Z.of_N k + m * 24 * 60 * 60 * 1000)
            ÷ 10 ^ Z.of_N k)%Z
  | NaN | Infinity _ => None
  end.

(** [new Date(); date.setTime(date.getTime() + days * 24 * 60 * 60 * 1000);
    date.toUTCString()] *)
Definition expiry_text (now : Z) (days : number) : jsstring :=
  Date.toUTCString (time_after now days ≫= Date.setTime).

Definition setCookie (name val : jsstring) (options : option CookieOptions)
  : M Browser.t unit :=
  d ← gets hasDocument;
  if negb d then mret tt
  else
    let expires := options ≫= expires in
    let path := default (str "/") (options ≫= path) in
    let domain := options ≫= domain in
    let secure := default false (options ≫= secure) in
    let sameSite := default Lax (options ≫= sameSite) in
    enc ← match encodeURIComponent val with
          | Some e => mret e
          | None => throw URIError
          end;
    let cookieString := name ++ str "=" ++ enc in
    now ← gets now;
    let cookieString :=
      match expires with
      | Some days =>
          if negb (is_zero days)
          then cookieString ++ str "; expires=" ++ expiry_text now days
          else cookieString
      | None =>
          cookieString ++ str "; expires=" ++ expiry_text now (Int 365)
      end in
    let cookieString := cookieString ++ str "; path=" ++ path in
    let cookieString :=
      match domain with
      | Some (c :: dom) => cookieString ++ str "; domain=" ++ c :: dom
      | _ => cookieString
      end in
    let cookieString :=
      if secure then cookieString ++ str "; secure" else cookieString in
    let cookieString :=
      cookieString ++ str "; SameSite=" ++ sameSite_name sameSite in
    Dom.set_cookie cookieString.

(** *** removeCookie *)

Definition removeCookie (name : jsstring) (options : option CookieOptions)
  : M Browser.t unit :=
  d ← gets hasDocument;
  if negb d then mret tt
  else
    let path := default (str "/") (options ≫= path) in
    let domain := options ≫= domain in
    let cookieString :=
      name ++ str "=; expires=Thu, 01 Jan 1970 00:00:00 UTC; path=" ++ path in
    let cookieString :=
      match domain with
      | Some (c :: dom) => cookieString ++ str "; domain=" ++ c :: dom
      | _ => cookieString
      end in
    Dom.set_cookie cookieString.

(** *** The hook

    One mounted hook: its React state [value], its refs, and the arguments
    [onChange] has been called with (latest first). *)
Record Hook : Type := {
  value : StorageValue;
  lastValueRef : option jsstring;
  keyRef : jsstring;
  storageTypeRef : StorageType;
  changes : list StorageValue
}.

Record State : Type := {
  browser : Browser.t;
  hook : Hook
}.

Definition in_browser {A} (m : M Browser.t A) : M State A :=
  zoom browser (fun b s => {| browser := b; hook := hook s |}) m.

Definition in_hook {A} (m : M Hook A) : M State A :=
  zoom hook (fun h s => {| browser := browser s; hook := h |}) m.

(** [setValueState(v)] *)
Definition setValueState (v : StorageValue) : M State unit :=
  in_hook (modify (fun h =>
    {| value := v; lastValueRef := lastValueRef h; keyRef := keyRef h;
       storageTypeRef := storageTypeRef h; changes := changes h |})).

(** [lastValueRef.current = raw] *)
Definition set_lastValueRef (raw : option jsstring) : M State unit :=
  in_hook (modify (fun h =>
    {| value := value h; lastValueRef := raw; keyRef := keyRef h;
       storageTypeRef := storageTypeRef h; changes := changes h |})).

(** [onChangeRef.current?.(v)] *)
Definition call_onChange (options : option IUseStorageOptions)
    (v : StorageValue) : M State unit :=
  if default false (onChange <$> options) then
    in_hook (modify (fun h =>
      {| value := value h; lastValueRef := lastValueRef h;
         keyRef := keyRef h; storageTypeRef := storageTypeRef h;
         changes := v :: changes h |}))
  else mret tt.

(** The three-way read that the initialiser, the polling effect and
    [checkValue] each spell out. *)
Definition rawValue (type : StorageType) (key : jsstring)
  : M Browser.t (option jsstring) :=
  match type with
  | Cookie => getCookie key
  | LocalStorage => Dom.getItem Dom.Local key
  | SessionStorage => Dom.getItem Dom.Session key
  end.

(** [try { JSON.parse(raw) } catch { raw }]: the decoding of a raw text. *)
Definition parsed (raw : jsstring) : StorageValue :=
  match parse raw with
  | Some v => v
  | None => VStr raw
  end.

(** [typeof newValue === 'string' ? newValue : JSON.stringify(newValue)]:
    the encoding of a value that is not [null]. *)
Definition stringValue (newValue : StorageValue) : jsstring :=
  match newValue with
  | VStr s => s
  | _ => stringify newValue
  end.

Definition opt_storageType (options : option IUseStorageOptions)
  : StorageType :=
  default LocalStorage (options ≫= storageType).

(** [defaultValue = null] in the destructuring, then [defaultValue ?? null] *)
Definition opt_defaultValue (options : option IUseStorageOptions)
  : StorageValue :=
  default VNull (options ≫= defaultValue).

Definition opt_sync (options : option IUseStorageOptions) : bool :=
  default false (options ≫= sync).

Definition opt_cookieOptions (options : option IUseStorageOptions)
  : option CookieOptions :=
  options ≫= cookieOptions.

Definition quoted (s : jsstring) : jsstring := 34 :: s ++ [34].

(** The initialiser passed to [useState]. *)
Definition initialValue (key : jsstring) (options : option IUseStorageOptions)
  : M Browser.t StorageValue :=
  w ← gets hasWindow;
  if negb w then mret (opt_defaultValue options)
  else
    try_catch
      (raw ← rawValue (opt_storageType options) key;
       match raw with
       | None => mret (opt_defaultValue options)
       | Some text => mret (parsed text)
       end)
      (fun error =>
         Dom.warn (str "Error reading storage for key " ++ quoted key
                   ++ str ":") ;;
         mret (opt_defaultValue options)).

(** The first render: state and refs. *)
Definition useStorage (key : jsstring) (options : option IUseStorageOptions)
  : M Browser.t Hook :=
  v ← initialValue key options;
  mret {| value := v; lastValueRef := None; keyRef := key;
          storageTypeRef := opt_storageType options; changes := [] |}.

(** [const hasValue = value !== null] *)
Definition hasValue (h : Hook) : bool :=
  match value h with
  | VNull => false
  | _ => true
  end.

Definition setValue (options : option IUseStorageOptions)
    (newValue : StorageValue) : M State unit :=
  w ← gets (fun s => hasWindow (browser s));
  if negb w then mret tt
  else
    try_catch
      (storageKey ← gets (fun s => keyRef (hook s));
       type ← gets (fun s => storageTypeRef (hook s));
       match newValue with
       | VNull =>
           match type with
           | Cookie =>
               in_browser
                 (removeCookie storageKey (opt_cookieOptions options)) ;;
               set_lastValueRef None
           | LocalStorage =>
               in_browser (Dom.removeItem Dom.Local storageKey) ;;
               set_lastValueRef None
           | SessionStorage =>
               in_browser (Dom.removeItem Dom.Session storageKey) ;;
               set_lastValueRef None
           end
       | _ =>
           let stringValue := stringValue newValue in
           match type with
           | Cookie =>
               in_browser
                 (setCookie storageKey stringValue
                    (opt_cookieOptions options)) ;;
               set_lastValueRef (Some stringValue)
           | LocalStorage =>
               in_browser (Dom.setItem Dom.Local storageKey stringValue) ;;
               set_lastValueRef (Some stringValue)
           | SessionStorage =>
               in_browser (Dom.setItem Dom.Session storageKey stringValue) ;;
               set_lastValueRef (Some stringValue)
           end
       end ;;
       setValueState newValue ;;
       call_onChange options newValue)
      (fun error =>
         type ← gets (fun s => storageTypeRef (hook s));
         key ← gets (fun s => keyRef (hook s));
         in_browser
           (Dom.warn (str "Error setting " ++ type_name type
                      ++ str " for key " ++ quoted key ++ str ":"))).

Definition removeValue (options : option IUseStorageOptions) : M State unit :=
  setValue options VNull.

Definition clear : M State unit :=
  w ← gets (fun s => hasWindow (browser s));
  if negb w then mret tt
  else
    try_catch
      (type ← gets (fun s => storageTypeRef (hook s));
       match type with
       | LocalStorage => in_browser (Dom.clear Dom.Local)
       | SessionStorage => in_browser (Dom.clear Dom.Session)
       | Cookie => mret tt  (* Cookies cannot be cleared all at once *)
       end)
      (fun error =>
         type ← gets (fun s => storageTypeRef (hook s));
         in_browser
           (Dom.warn (str "Error clearing " ++ type_name type ++ str ":"))).

(** The [storage] event of another tab, as the listener sees it. *)
Record StorageEvent : Type := {
  e_key : option jsstring;
  e_newValue : option jsstring;
  e_isLocalStorage : bool   (* [e.storageArea] is the local storage area *)
}.

(** [e.key === key && e.storageArea === window.localStorage]: the right
    operand is evaluated when the left one holds, and it reads
    [window.localStorage], outside any [try]: where local storage is denied
    that read throws. *)
Definition handleStorageChange (key : jsstring)
    (options : option IUseStorageOptions) (e : StorageEvent) : M State unit :=
  if bool_decide (e_key e = Some key) then
    no_access ← gets (fun s => denied (Browser.localStorage (browser s)));
    if no_access : bool then throw SecurityError
    else if e_isLocalStorage e then
      let rawValue := e_newValue e in
      set_lastValueRef rawValue ;;
      let newValue := match rawValue with
                      | Some text => parsed text
                      | None => VNull
                      end in
      setValueState newValue ;;
      call_onChange options newValue
    else mret tt
  else mret tt.

(** The closure the polling effect hands to the polling manager. *)
Definition checkValue (options : option IUseStorageOptions) : M State unit :=
  try_catch
    (storageKey ← gets (fun s => keyRef (hook s));
     currentType ← gets (fun s => storageTypeRef (hook s));
     rawValue ← in_browser (rawValue currentType storageKey);
     last ← gets (fun s => lastValueRef (hook s));
     if bool_decide (rawValue ≠ last) then
       set_lastValueRef rawValue ;;
       let currentValue := match rawValue with
                           | Some text => parsed text
                           | None => VNull
                           end in
       setValueState currentValue ;;
       call_onChange options currentValue
     else mret tt)
    (fun error => mret tt).

(** The body of the polling effect up to the subscription.  The result
    tells whether [checkValue] is subscribed to the polling manager. *)
Definition pollingEffect (options : option IUseStorageOptions)
  : M State bool :=
  w ← gets (fun s => hasWindow (browser s));
  if negb w then mret false
  else
    type ← gets (fun s => storageTypeRef (hook s));
    if opt_sync options && bool_decide (type = LocalStorage) then mret false
    else
      storageKey ← gets (fun s => keyRef (hook s));
      try_catch
        (raw ← in_browser (rawValue type storageKey);
         set_lastValueRef raw)
        (fun error => set_lastValueRef None) ;;
      mret true.

End UseStorage.

(** ** A page: several hooks, one browser, the polling manager

    The components of a page that have called [useStorage], each with the
    options it passed and its hook, over the one browser and the singleton
    [pollingManager].  A component is named by a number, which also names the
    [checkValue] closure its polling effect hands to the manager. *)

Module Page.
Import Json Browser UseStorage.

Record Component : Type := {
  options : option IUseStorageOptions;
  state : Hook
}.

Record t : Type := {
  browser : Browser.t;
  components : gmap nat Component;
  manager : StoragePollingManager.t
}.

(** Run an operation of component [id]'s hook on the page. *)
Definition with_component (id : nat)
    (f : option IUseStorageOptions -> M State unit) : M t unit :=
  fun p =>
    match components p !! id with
    | Some c =>
        let '(r, s') := f (options c) {| UseStorage.browser := browser p;
                                         hook := state c |} in
        (r, {| browser := UseStorage.browser s';
               components :=
                 <[id := {| options := options c; state := hook s' |}]>
                   (components p);
               manager := manager p |})
    | None => (Ok tt, p)
    end.

(** The [checkValue] closure of component [id]. *)
Definition checkValue_of (id : nat) : M t unit :=
  with_component id checkValue.

(** Component [id] calls the [setValue] its hook returned. *)
Definition setValue_of (id : nat) (v : StorageValue) : M t unit :=
  with_component id (fun o => setValue o v).

(** One firing of the interval [startPolling] has set. *)
Definition interval : M t unit :=
  fun p => StoragePollingManager.tick checkValue_of (manager p) p.

(** The sync effect up to the registration of the listener.  The result
    tells whether [handleStorageChange] listens to [storage] events. *)
Definition syncEffect (options : option IUseStorageOptions) : M State bool :=
  w ← gets (fun s => hasWindow (UseStorage.browser s));
  if negb w || negb (opt_sync options)
     || negb (bool_decide (opt_storageType options = LocalStorage))
  then mret false
  else mret true.

(** The polling effect of component [id], with the subscription. *)
Definition mount (id : nat) : M t unit :=
  fun p =>
    match components p !! id with
    | Some c =>
        let '(r, s') := pollingEffect (options c)
                          {| UseStorage.browser := browser p;
                             hook := state c |} in
        let cs := <[id := {| options := options c; state := hook s' |}]>
                    (components p) in
        match r with
        | Ok subscribed =>
            (Ok tt,
             {| browser := UseStorage.browser s'; components := cs;
                manager := if subscribed
                           then StoragePollingManager.subscribe id (manager p)
                           else manager p |})
        | Throw e =>
            (Throw e, {| browser := UseStorage.browser s'; components := cs;
                         manager := manager p |})
        end
    | None => (Ok tt, p)
    end.

(** The cleanup of the polling effect of component [id], when the effect
    had subscribed: [unsubscribe(); lastValueRef.current = null]. *)
Definition cleanup (id : nat) : M t unit :=
  fun p =>
    match components p !! id with
    | Some c =>
        (Ok tt,
         {| browser := browser p;
            components :=
              <[id := {| options := options c;
                         state :=
                           {| value := value (state c);
                              lastValueRef := None;
                              keyRef := keyRef (state c);
                              storageTypeRef := storageTypeRef (state c);
                              changes := changes (state c) |} |}]>
                (components p);
            manager := StoragePollingManager.unsubscribe id (manager p) |})
    | None => (Ok tt, p)
    end.

(** The first effect of the hook: [keyRef.current = key;
    storageTypeRef.current = storageType] ([onChangeRef] is the [onChange] of
    the options). *)
Definition refsEffect (key : jsstring) (options : option IUseStorageOptions)
    (h : Hook) : Hook :=
  {| value := value h; lastValueRef := lastValueRef h; keyRef := key;
     storageTypeRef := opt_storageType options; changes := changes h |}.

(** Component [id] renders again with another key, storage type or [sync]
    option: the cleanup of the polling effect runs if the effect had
    subscribed, then the effects run in order with the new arguments.  The
    state [value] is kept: the initialiser of [useState] runs on the first
    render only. *)
Definition rerender (id : nat) (key : jsstring)
    (options' : option IUseStorageOptions) : M t unit :=
  fun p =>
    let p0 := if decide (id ∈ StoragePollingManager.subscribers (manager p))
              then snd (cleanup id p) else p in
    match components p0 !! id with
    | Some c =>
        mount id
          {| browser := browser p0;
             components :=
               <[id := {| options := options';
                          state := refsEffect key options' (state c) |}]>
                 (components p0);
             manager := manager p0 |}
    | None => (Ok tt, p0)
    end.

End Page.

(** ** Vocabulary of the properties *)

Module Props.
Import Json Uri Browser UseStorage.

(** *** The polling manager: histories of registrations and releases *)

Inductive op : Type :=
  | Register (callback : nat)   (* [subscribe(callback)] *)
  | Release (callback : nat).   (* calling what [subscribe(callback)] returned *)

Definition apply_op (m : StoragePollingManager.t) (o : op)
  : StoragePollingManager.t :=
  match o with
  | Register cb => StoragePollingManager.subscribe cb m
  | Release cb => StoragePollingManager.unsubscribe cb m
  end.

(** The singleton after a history, in a browser (window and timers exist). *)
Definition after (history : list op) : StoragePollingManager.t :=
  fold_left apply_op history (StoragePollingManager.create true true).

(** [useStorage] reaches the manager only from its polling effect, which
    returns before anything else when there is no window. *)
Definition hook_op (m : StoragePollingManager.t) (o : op)
  : StoragePollingManager.t :=
  if StoragePollingManager.window m then apply_op m o else m.

(** The singleton after a history of hooks mounting and unmounting, in a
    runtime with or without a window (timers exist in both). *)
Definition after_hooks (window : bool) (history : list op)
  : StoragePollingManager.t :=
  fold_left hook_op history (StoragePollingManager.create window true).

(** The same under direct calls, in any runtime. *)
Definition after_in (window clearIntervalDefined : bool) (history : list op)
  : StoragePollingManager.t :=
  fold_left apply_op history
    (StoragePollingManager.create window clearIntervalDefined).

(** Whether a closure is registered after a history, read off the history
    alone: the last operation that names it, if any, is a registration. *)
Definition registered (history : list op) (cb : nat) : bool :=
  fold_left
    (fun held o =>
       match o with
       | Register c => if decide (c = cb) then true else held
       | Release c => if decide (c = cb) then false else held
       end)
    history false.

(** *** The polling manager: invariants *)

(** The invariant of the singleton in a browser: the timer is held exactly
    when somebody is subscribed, it is the only interval running, and no
    callback is registered twice. *)
Definition inv (m : StoragePollingManager.t) : Prop :=
  StoragePollingManager.window m = true ∧ StoragePollingManager.clearIntervalDefined m = true ∧ NoDup (StoragePollingManager.subscribers m) ∧
  match StoragePollingManager.intervalId m with
  | Some id => StoragePollingManager.subscribers m ≠ [] ∧ StoragePollingManager.timers m = [id]
  | None => StoragePollingManager.subscribers m = [] ∧ StoragePollingManager.timers m = []
  end.

(** The weaker invariant that holds in every runtime (also without a
    window, also without [clearInterval]). *)
Definition inv_any (m : StoragePollingManager.t) : Prop :=
  NoDup (StoragePollingManager.subscribers m) ∧ (StoragePollingManager.intervalId m ≠ None → StoragePollingManager.subscribers m ≠ []) ∧
  (if StoragePollingManager.window m then StoragePollingManager.intervalId m = None → StoragePollingManager.subscribers m = []
   else StoragePollingManager.intervalId m = None).

(** *** JSON texts *)

Section JsonVocabulary.
Local Open Scope N_scope.

(** What may follow a number in a JSON text: not a digit, a dot or an
    exponent mark. *)
Definition num_end (rest : jsstring) : Prop :=
  match rest with
  | [] => True
  | c :: _ => is_digit c = false ∧ c ≠ 46 ∧ c ≠ 101 ∧ c ≠ 69
  end.

(** The result of [parse_chars] after one more unit [c] has been read. *)
Definition continue (c : N) (r : option (jsstring * jsstring))
  : option (jsstring * jsstring) :=
  match r with
  | Some (t, rest) => Some (c :: t, rest)
  | None => None
  end.

(** The fraction of a number as printed: nothing, or a dot and digits. *)
Definition fraction_text (fp : jsstring) : jsstring :=
  match fp with [] => [] | _ :: _ => 46 :: fp end.

(** The exponent of a number as printed: nothing, or [e], a sign and
    digits. *)
Definition exponent_text (e : option Z) : jsstring :=
  match e with
  | None => []
  | Some x => 101 :: (if (0 <=? x)%Z then 43 else 45) :: decimal (Z.abs_N x)
  end.

(** The finite numbers, in the form the embedding keeps them: any integer,
    and [m / 10^k] with [k > 0] and [m] not a multiple of ten. *)
Definition finite (x : number) : Prop :=
  match x with
  | Int _ => True
  | Frac m k => 0 < k ∧ (m mod 10 ≠ 0)%Z
  | NaN | Infinity _ => False
  end.

(** The text of [x] is made of these parts (sign, integer digits [d :: ds]
    without a leading zero, fraction digits [fp], exponent [e]), and these
    parts denote [x]. *)
Definition number_parts (x : number) (neg : bool) (d : N) (ds fp : jsstring)
    (e : option Z) : Prop :=
  number_to_string x
  = (if neg then [45] else []) ++ (d :: ds) ++ fraction_text fp
    ++ exponent_text e ∧
  is_digit d = true ∧
  Forall (λ c, is_digit c = true) ds ∧
  (d = 48 → ds = []) ∧
  Forall (λ c, is_digit c = true) fp ∧
  make_number neg (digits_value ((d :: ds) ++ fp))
    (default 0 e - Z.of_nat (length fp))%Z = x.

(** The texts of the elements of an array and of the members of an
    object, as [stringify] prints them after the opening bracket. *)
Definition print_elements : list StorageValue → jsstring :=
  fix elements (l : list StorageValue) : jsstring :=
    match l with
    | [] => [93]
    | x :: rest =>
        stringify x ++
        match rest with
        | [] => [93]
        | _ :: _ => 44 :: elements rest
        end
    end.

Definition print_members : list (jsstring * StorageValue) → jsstring :=
  fix members (l : list (jsstring * StorageValue)) : jsstring :=
    match l with
    | [] => [125]
    | (k, x) :: rest =>
        quote k ++ 58 :: stringify x ++
        match rest with
        | [] => [125]
        | _ :: _ => 44 :: members rest
        end
    end.

(** The values [JSON.stringify] prints without loss: every number is
    finite (no NaN, no infinity) and no object has two properties of the
    same name. *)
Fixpoint representable (v : StorageValue) : Prop :=
  match v with
  | VNull | VBool _ | VStr _ => True
  | VNum x => finite x
  | VArr vs =>
      (fix all (l : list StorageValue) : Prop :=
         match l with
         | [] => True
         | x :: rest => representable x ∧ all rest
         end) vs
  | VObj ps =>
      NoDup (map fst ps) ∧
      (fix all (l : list (jsstring * StorageValue)) : Prop :=
         match l with
         | [] => True
         | (_, x) :: rest => representable x ∧ all rest
         end) ps
  end.

(** Depth of calls [parse_value] makes to read a value back. *)
Fixpoint size (v : StorageValue) : nat :=
  match v with
  | VArr vs =>
      S ((fix go (l : list StorageValue) : nat :=
            match l with
            | [] => O
            | x :: rest => S (size x + go rest)
            end) vs)
  | VObj ps =>
      S ((fix go (l : list (jsstring * StorageValue)) : nat :=
            match l with
            | [] => O
            | (_, x) :: rest => S (size x + go rest)
            end) ps)
  | _ => 1%nat
  end.

Definition size_elements (vs : list StorageValue) : nat :=
  fold_right (λ x n, S (size x + n)) O vs.

Definition size_members (ps : list (jsstring * StorageValue)) : nat :=
  fold_right (λ kx n, S (size (snd kx) + n)) O ps.

(** [v] is read back from its text, whatever follows the text. *)
Definition reads_back_value (v : StorageValue) : Prop :=
  ∀ fuel rest, (size v ≤ fuel)%nat → num_end rest →
               parse_value fuel (stringify v ++ rest) = Some (v, rest).

(** The characters [encodeURIComponent] emits. *)
Definition uri_char (c : N) : Prop :=
  Uri.unreserved c = true ∨ c = 37 ∨ 48 <= c <= 57 ∨ 65 <= c <= 70.

End JsonVocabulary.

(** *** The hook *)

(** The Backend Adapter's write: what [setValue] calls to store [text]
    under the hook's key in the hook's backend. *)
Definition adapter_write (options : option IUseStorageOptions) (h : Hook)
    (text : jsstring) : M Browser.t unit :=
  match storageTypeRef h with
  | Cookie => setCookie (keyRef h) text (opt_cookieOptions options)
  | LocalStorage => Dom.setItem Dom.Local (keyRef h) text
  | SessionStorage => Dom.setItem Dom.Session (keyRef h) text
  end.

Definition write_throws (options : option IUseStorageOptions) (s : State)
    (text : jsstring) : Prop :=
  ∃ e b', adapter_write options (hook s) text (browser s) = (Throw e, b').

(** [setValue] ran in a browser and its [try] block completed: it returned
    and printed no warning. *)
Definition successful (options : option IUseStorageOptions)
    (v : StorageValue) (s s' : State) : Prop :=
  hasWindow (browser s) = true ∧
  setValue options v s = (Ok tt, s') ∧
  console (browser s') = console (browser s).

(** The hook's last-observed raw value is what the backend holds now. *)
Definition in_sync (s : State) : Prop :=
  rawValue (storageTypeRef (hook s)) (keyRef (hook s)) (browser s)
  = (Ok (lastValueRef (hook s)), browser s).

(** The Backend Adapter's remove, and the adapter call [setValue v]
    makes: remove for [null], write of the encoded text otherwise. *)
Definition adapter_remove (options : option IUseStorageOptions) (h : Hook)
  : M Browser.t unit :=
  match storageTypeRef h with
  | Cookie => removeCookie (keyRef h) (opt_cookieOptions options)
  | LocalStorage => Dom.removeItem Dom.Local (keyRef h)
  | SessionStorage => Dom.removeItem Dom.Session (keyRef h)
  end.

Definition adapter_call (options : option IUseStorageOptions) (h : Hook)
    (v : StorageValue) : M Browser.t unit :=
  match v with
  | VNull => adapter_remove options h
  | _ => adapter_write options h (stringValue v)
  end.

(** The raw value [setValue v] records as last observed. *)
Definition encoded (v : StorageValue) : option jsstring :=
  match v with
  | VNull => None
  | _ => Some (stringValue v)
  end.

(** The backend keeps what [setValue v] hands it: read right after the
    adapter call, the key holds the text just written (nothing, after a
    remove). *)
Definition reads_back (options : option IUseStorageOptions)
    (v : StorageValue) (s : State) : Prop :=
  ∀ b1, adapter_call options (hook s) v (browser s) = (Ok tt, b1) →
        rawValue (storageTypeRef (hook s)) (keyRef (hook s)) b1
        = (Ok (encoded v), b1).

(** *** Cookie names and the cookie store *)

(** Characters that need no care in a set-cookie-string: not [;], [=],
    space or tab. *)
Definition plain (c : N) : Prop := c ≠ 59%N ∧ c ≠ 61%N ∧ c ≠ 32%N ∧ c ≠ 9%N.

Definition is_letter (c : N) : bool :=
  ((65 <=? c) && (c <=? 90) || (97 <=? c) && (c <=? 122))%N.

Definition name_char (c : N) : bool :=
  (is_letter c || is_digit c || (c =? 45) || (c =? 46) || (c =? 95))%N.

(** A plain cookie name: a letter, then letters, digits, [-], [.] and
    [_]. *)
Definition key_ok (key : jsstring) : Prop :=
  match key with
  | c :: rest => is_letter c = true ∧ forallb name_char rest = true
  | [] => False
  end.

(** What the cookie store guarantees of every cookie it holds: no [;] in
    name or value, no [=] in the name, no leading space in its text. *)
Definition cookie_wf (c : cookie) : Prop :=
  Forall (λ x, x ≠ 59%N) (cname c) ∧ Forall (λ x, x ≠ 59%N) (cvalue c) ∧
  Forall (λ x, x ≠ 61%N) (cname c) ∧
  head (serialize c) ≠ Some 32%N.

Definition jar_wf (jar : list cookie) : Prop :=
  NoDup (cname <$> jar) ∧ Forall cookie_wf jar.

(** The states of the cookie store: what assignments to [document.cookie],
    at any times, make of the empty store. *)
Inductive reachable : list cookie → Prop :=
  | reach_empty : reachable []
  | reach_assign (now : Z) (text : jsstring) (jar : list cookie) :
      reachable jar → reachable (assign_cookie now text jar).

(** The text [getCookie key] takes from cookie [c]: what follows [key=] in
    the text [document.cookie] lists for [c], when that text begins with
    [key=]. *)
Definition reads (key : jsstring) (c : cookie) : option jsstring :=
  starts_with (key ++ str "=") (serialize c).

(** The first text the cookies of [jar] yield, in their order. *)
Fixpoint first_read (key : jsstring) (jar : list cookie) : option jsstring :=
  match jar with
  | [] => None
  | c :: rest =>
      match reads key c with
      | Some text => Some text
      | None => first_read key rest
      end
  end.

(** No nameless cookie passes for a cookie named [key].  (The store holds a
    cookie without a name after an assignment of a text that has no [=]
    before its first [;], or that begins with [=]; [document.cookie] lists
    the value of such a cookie as it is.) *)
Definition no_alias (key : jsstring) (jar : list cookie) : Prop :=
  ∀ c, c ∈ jar → cname c = [] → reads key c = None.

(** The claim of the specification on self-notification: after any
    successful [setValue(v)] the hook is in sync with its backend and its
    next change-check does nothing. *)
Definition spec_no_self_notification (options : option IUseStorageOptions)
    (v : StorageValue) (s : State) : Prop :=
  ∀ s', successful options v s s' →
        in_sync s' ∧ checkValue options s' = (Ok tt, s').

(** A browser in which everything is available and nothing is stored. *)
Definition empty_storage : Storage :=
  {| items := ∅; denied := false; full := false |}.

Definition fresh_browser (now : Z) : Browser.t :=
  {| hasWindow := true; hasDocument := true;
     Browser.localStorage := empty_storage;
     Browser.sessionStorage := empty_storage;
     cookieJar := []; cookieDenied := false; cookieWrites := [];
     now := now; console := [] |}.

(** Options that name a backend and nothing else. *)
Definition backend (ty : StorageType) : option IUseStorageOptions :=
  Some {| storageType := Some ty; defaultValue := None; sync := None;
          cookieOptions := None; onChange := true |}.

(** Options for the cookie backend with the given cookie options. *)
Definition cookie_backend (co : option CookieOptions)
  : option IUseStorageOptions :=
  Some {| storageType := Some Cookie; defaultValue := None; sync := None;
          cookieOptions := co; onChange := true |}.

(** Options that name a backend and a default value. *)
Definition backend_with_default (ty : StorageType) (d : StorageValue)
  : option IUseStorageOptions :=
  Some {| storageType := Some ty; defaultValue := Some d; sync := None;
          cookieOptions := None; onChange := true |}.

(** A mounted hook that has not polled yet. *)
Definition mounted (ty : StorageType) (key : jsstring) (b : Browser.t)
  : State :=
  {| browser := b;
     hook := {| value := VNull; lastValueRef := None; keyRef := key;
                storageTypeRef := ty; changes := [] |} |}.

(** *** The cookie string, in the words of the specification *)



(** "If the caller specifies 0 days, omit the expiration attribute
    entirely; if the caller omits the option, default to 365 days from now;
    otherwise set expiration to now + days * 86400 seconds, formatted as an
    HTTP-date."  Times are in milliseconds. *)
Definition instant_after (now : Z) (days : number) : option Z :=
  match days with
  | Int d => Some (now + d * 86400 * 1000)%Z
  | Frac m k =>
      Some ((now * 10 ^ Z.of_N k + m * 86400 * 1000) ÷ 10 ^ Z.of_N k)%Z
  | NaN | Infinity _ => None
  end.





Definition with_expires (e : option number) : option CookieOptions :=
  Some {| expires := e; path := None; domain := None; secure := None;
          sameSite := None |}.

(** *** The codec *)

(** A value of kind number, boolean, ordered list or keyed map. *)
Definition structured (v : StorageValue) : Prop :=
  match v with
  | VNum _ | VBool _ | VArr _ | VObj _ => True
  | VNull | VStr _ => False
  end.

(** *** [clear] on the cookie backend, in the words of the specification:
    a no-op on the cookies that emits a warning. *)
Definition spec_clear_cookie_warns (s : State) : Prop :=
  ∃ s', clear s = (Ok tt, s') ∧
        cookieJar (browser s') = cookieJar (browser s) ∧
        length (console (browser s')) = S (length (console (browser s))).

(** *** The life of a hook *)

(** The storage area behind a backend, when it is one. *)
Definition area_of (ty : StorageType) : option Dom.area :=
  match ty with
  | LocalStorage => Some Dom.Local
  | SessionStorage => Some Dom.Session
  | Cookie => None
  end.

(** The value a raw text (or its absence) stands for. *)
Definition decoded (raw : option jsstring) : StorageValue :=
  match raw with
  | Some text => parsed text
  | None => VNull
  end.

(** The calls of [onChange] so far, after one more with [v]; there is none
    when the caller passed no callback. *)
Definition notified (options : option IUseStorageOptions) (v : StorageValue)
    (h : Hook) : list StorageValue :=
  if default false (onChange <$> options) then v :: changes h else changes h.

(** The hook after it has taken [v] as its value with [raw] as the raw text
    last observed, and has told [onChange]. *)
Definition updated (options : option IUseStorageOptions)
    (raw : option jsstring) (v : StorageValue) (h : Hook) : Hook :=
  {| value := v; lastValueRef := raw; keyRef := keyRef h;
     storageTypeRef := storageTypeRef h; changes := notified options v h |}.

(** The hook of the first render. *)
Definition first_render (key : jsstring) (options : option IUseStorageOptions)
    (v : StorageValue) : Hook :=
  {| value := v; lastValueRef := None; keyRef := key;
     storageTypeRef := opt_storageType options; changes := [] |}.

(** The browser after one more warning. *)
Definition warned (message : jsstring) (b : Browser.t) : Browser.t :=
  snd (Dom.warn message b).

(** The values that come back from their encoding: the numbers, booleans,
    lists and maps JSON represents, and the texts that are not JSON. *)
Definition round_trips (v : StorageValue) : Prop :=
  match v with
  | VNull => False
  | VStr s => parse s = None
  | _ => representable v
  end.

(** The browser after [raw] has been stored under [key] in area [a]
    (removed, for [None]). *)
Definition stored (a : Dom.area) (key : jsstring) (raw : option jsstring)
    (b : Browser.t) : Browser.t :=
  let area := Dom.get_area a b in
  Dom.set_area a
    (Dom.with_items
       (match raw with
        | Some text => <[key := text]> (items area)
        | None => delete key (items area)
        end) area) b.

(** Area [a] accepts the write of [v]: it is accessible and, for a value
    to store, it has room. *)
Definition accepts (a : Dom.area) (v : StorageValue) (b : Browser.t) : Prop :=
  denied (Dom.get_area a b) = false ∧
  (v ≠ VNull → full (Dom.get_area a b) = false).

(** *** Cookies in scope *)

(** The UTC year of a time value. *)
Definition utc_year (t : Z) : Z :=
  (Date.civil_from_days (t / Date.msPerDay)).1.1.

(** The instant at which the cookie store lets go of a cookie written with
    [expires=] the UTC string of [t]: [t] cut to the second; a year of more
    than four digits is no cookie-date, and the attribute is ignored. *)
Definition cookie_date (t : Z) : option Z :=
  if (utc_year t <=? 9999)%Z then Some (t - t mod 1000)%Z else None.

(** Cookie options under which the cookie written is in scope of the page
    that writes it, as the model of the cookie store takes every cookie to
    be: the default path and domain, no [Secure], [SameSite] not
    [None]. *)
Definition in_scope (options : option CookieOptions) : Prop :=
  default (str "/") (options ≫= path) = str "/" ∧
  default [] (options ≫= domain) = [] ∧
  default false (options ≫= secure) = false ∧
  default Lax (options ≫= sameSite) ≠ None_.

(** The part of it that [removeCookie] uses: the default path and
    domain. *)
Definition in_root (options : option CookieOptions) : Prop :=
  default (str "/") (options ≫= path) = str "/" ∧
  default [] (options ≫= domain) = [].

(** The instant at which the cookie [setCookie] writes is asked to expire:
    [now + days * 24 h], 365 days when the option is omitted; none for 0 days
    and for a number of days that is no number (the date is then invalid). *)
Definition expiry_asked (now : Z) (options : option CookieOptions)
  : option Z :=
  match options ≫= expires with
  | Some days => if is_zero days then None else instant_after now days
  | None => Some (now + 365 * 86400 * 1000)%Z
  end.

(** The expiry policy keeps the cookie: the expiry asked for, if there is
    one, is at least one second ahead. *)
Definition keeps (now : Z) (options : option CookieOptions) : Prop :=
  ∀ t, expiry_asked now options = Some t → (now + 1000 <= t)%Z.

(** The expiry the cookie store records for the cookie [setCookie] writes
    at time [now]: the instant asked for as the store reads it in the
    [expires] attribute, none when no instant is asked for (a session
    cookie). *)
Definition cookie_expiry (now : Z) (options : option CookieOptions)
  : option Z :=
  match expiry_asked now options with
  | Some t => Date.setTime t ≫= cookie_date
  | None => None
  end.

(** The cookie backend can be read back after [setValue v], as far as the
    model of the cookie store goes: the document exists, the key is a plain
    cookie name, the cookie store is in a state that assignments to
    [document.cookie] lead to and holds no nameless cookie that passes for
    the key, the cookie options are in scope, the clock is not before 1970
    and, for a value to store, the expiry policy keeps the cookie. *)
Definition cookie_readable (options : option IUseStorageOptions)
    (v : StorageValue) (s : State) : Prop :=
  hasDocument (browser s) = true ∧
  key_ok (keyRef (hook s)) ∧
  reachable (cookieJar (browser s)) ∧
  no_alias (keyRef (hook s)) (cookieJar (browser s)) ∧
  in_scope (opt_cookieOptions options) ∧
  (0 <= now (browser s))%Z ∧
  (v ≠ VNull → keeps (now (browser s)) (opt_cookieOptions options)).

(** The browser after an assignment of [text] to [document.cookie] that
    left [jar] in the cookie store. *)
Definition with_cookies (jar : list cookie) (text : jsstring)
    (b : Browser.t) : Browser.t :=
  {| hasWindow := hasWindow b; hasDocument := hasDocument b;
     Browser.localStorage := Browser.localStorage b;
     Browser.sessionStorage := Browser.sessionStorage b;
     cookieJar := jar; cookieDenied := cookieDenied b;
     cookieWrites := text :: cookieWrites b;
     now := now b; console := console b |}.

(** The cookie store after it has taken cookie [c] at time [now]. *)
Definition put (now : Z) (c : cookie) (jar : list cookie) : list cookie :=
  filter (λ x, live now x = true) (store c jar).

(** *** Values the model holds as the runtime does *)

(** A number of at most fifteen significant digits and of ordinary size: an
    integer below 10^15 in magnitude, or [m / 10^k] with [m] below 10^15 in
    magnitude and [k] at most 300.  A double holds such a decimal and prints
    it back. *)
Definition exact (x : number) : Prop :=
  match x with
  | Int z => (Z.abs z < 10 ^ 15)%Z
  | Frac m k => (Z.abs m < 10 ^ 15)%Z ∧ (k <= 300)%N
  | NaN | Infinity _ => False
  end.

(** A value whose numbers are exact and whose maps have no name made of
    digits only (the runtime lists such names first, whatever the order of
    the text). *)
Fixpoint portable (v : StorageValue) : Prop :=
  match v with
  | VNull | VBool _ | VStr _ => True
  | VNum x => exact x
  | VArr elems => (fix all l := match l with
                                | [] => True
                                | e :: r => portable e ∧ all r
                                end) elems
  | VObj props => (fix all l := match l with
                                | [] => True
                                | (k, e) :: r =>
                                    forallb is_digit k = false ∧
                                    portable e ∧ all r
                                end) props
  end.

(** *** Pages *)

(** Component [c] after its change check has run in browser [b]. *)
Definition checked (b : Browser.t) (c : Page.Component) : Page.Component :=
  {| Page.options := Page.options c;
     Page.state :=
       hook (snd (checkValue (Page.options c)
                    {| browser := b; hook := Page.state c |})) |}.

(** The hook of component [id], if the page has it. *)
Definition hook_of (id : nat) (p : Page.t) : option Hook :=
  Page.state <$> Page.components p !! id.

End Props.

(** ** The interval handler over closures that call the manager

    [Set.prototype.forEach] walks the live set.  It steps through the
    entries of the set in insertion order by an index into its list of
    entries; [delete] empties the slot of an entry and [add] appends one, so
    that a closure released before its turn is skipped and a closure
    registered during the walk is reached. *)

Module Interval.
Import StoragePollingManager Props.

(** What a closure does when the interval invokes it: it acts on the world
    [W], returns or throws, and may call the manager on the way, in this
    order: [Register cb] for [subscribe(cb)], [Release cb] for a call of the
    function [subscribe(cb)] returned. *)
Definition Closure (W : Type) : Type := W → result unit * W * list op.

(** [add] and [delete] on the entries of the set during a walk, a list of
    slots: [None] is a slot emptied by [delete]. *)
Definition slot_add (cb : nat) (d : list (option nat))
  : list (option nat) :=
  if decide (Some cb ∈ d) then d else d ++ [Some cb].

Definition slot_delete (cb : nat) (d : list (option nat))
  : list (option nat) :=
  (fun e => if decide (e = Some cb) then None else e) <$> d.

Record Walk : Type := {
  manager : StoragePollingManager.t;
  data : list (option nat)
}.

(** A call of the manager during a walk. *)
Definition call_manager (k : Walk) (o : op) : Walk :=
  {| manager := apply_op (manager k) o;
     data := match o with
             | Register cb => slot_add cb (data k)
             | Release cb => slot_delete cb (data k)
             end |}.

(** [this.subscribers.forEach((callback) => { try { callback() } catch
    (error) { } })] from slot [index] on.  [steps] bounds the number of slots
    visited; the first component of the result tells whether the walk came
    to its end, the last one lists the closures invoked, in order. *)
Fixpoint forEach {W} (steps : nat) (call : nat → Closure W) (index : nat)
    (k : Walk) (w : W) (calls : list nat)
  : bool * StoragePollingManager.t * W * list nat :=
  match data k !! index with
  | None => (true, manager k, w, calls)
  | Some e =>
      match steps with
      | O => (false, manager k, w, calls)
      | S steps' =>
          match e with
          | None => forEach steps' call (S index) k w calls
          | Some cb =>
              let '(r, w', ops) := call cb w in
              let k' := fold_left call_manager ops k in
              match r with
              | Ok _ => forEach steps' call (S index) k' w' (calls ++ [cb])
              | Throw _ => (* caught, silently *)
                  forEach steps' call (S index) k' w' (calls ++ [cb])
              end
          end
      end
  end.

(** The function handed to [setInterval]. *)
Definition tick {W} (steps : nat) (call : nat → Closure W)
    (m : StoragePollingManager.t) (w : W)
  : bool * StoragePollingManager.t * W * list nat :=
  forEach steps call 0 {| manager := m; data := Some <$> subscribers m |}
    w [].

(** [n] firings of the interval, one after the other, as long as they come
    to their end. *)
Fixpoint ticks {W} (n steps : nat) (call : nat → Closure W)
    (m : StoragePollingManager.t) (w : W)
  : bool * StoragePollingManager.t * W * list nat :=
  match n with
  | O => (true, m, w, [])
  | S n' =>
      let '(finished, m1, w1, calls1) := tick steps call m w in
      if finished : bool then
        let '(finished', m2, w2, calls2) := ticks n' steps call m1 w1 in
        (finished', m2, w2, calls1 ++ calls2)
      else (false, m1, w1, calls1)
  end.

(** A closure that does not call the manager. *)
Definition quiet {W} (body : M W unit) : Closure W :=
  fun w => (body w, []).



(** The entries of the walk are the subscribers of the manager. *)
Definition tracks (k : Walk) : Prop :=
  subscribers (manager k) = omap id (data k).



End Interval.

(* ===================================================================== *)
(** * Part II. Properties                                                 *)
(* ===================================================================== *)

(** ** Running the effects *)

Module EffFacts.

Lemma run_bind {S A B} (m : M S A) (f : A → M S B) (s : S) :
  (m ≫= f) s = match m s with
               | (Ok a, s') => f a s'
               | (Throw e, s') => (Throw e, s')
               end.
Proof. reflexivity. Qed.

Lemma run_ret {S A} (a : A) (s : S) : mret (M := M S) a s = (Ok a, s).
Proof. reflexivity. Qed.

Lemma run_try_catch {S A} (body : M S A) (handler : exn → M S A) (s : S) :
  try_catch body handler s = match body s with
                             | (Ok a, s') => (Ok a, s')
                             | (Throw e, s') => handler e s'
                             end.
Proof. reflexivity. Qed.

Lemma run_gets {S A} (f : S → A) (s : S) : gets f s = (Ok (f s), s).
Proof. reflexivity. Qed.

Lemma run_modify {S} (f : S → S) (s : S) : modify f s = (Ok tt, f s).
Proof. reflexivity. Qed.

Lemma run_throw {S A} (e : exn) (s : S) : throw (A := A) e s = (Throw e, s).
Proof. reflexivity. Qed.

Lemma run_zoom {S T A} (get : S → T) (set : T → S → S) (m : M T A) (s : S) :
  zoom get set m s = (fst (m (get s)), set (snd (m (get s))) s).
Proof. unfold zoom. by destruct (m (get s)). Qed.

End EffFacts.

Module PollingFacts.
Import StoragePollingManager Props EffFacts.

Lemma set_add_nonempty x s : set_add x s ≠ [].
Proof.
  unfold set_add. destruct (decide (x ∈ s)) as [Hin|_].
  - intros ->. by apply not_elem_of_nil in Hin.
  - by destruct s.
Qed.

Lemma set_add_NoDup x s : NoDup s → NoDup (set_add x s).
Proof.
  intros Hs. unfold set_add. destruct (decide (x ∈ s)) as [|Hn]; [done|].
  apply NoDup_app. split_and!; [done| |apply NoDup_singleton].
  intros y Hy ->%list_elem_of_singleton. done.
Qed.

Lemma set_delete_NoDup x s : NoDup s → NoDup (set_delete x s).
Proof. apply NoDup_filter. Qed.

Lemma set_delete_absent x s : x ∉ s → set_delete x s = s.
Proof.
  induction s as [|y s IH]; [done|]. intros Hn.
  apply not_elem_of_cons in Hn as [Hxy Hs]. unfold set_delete in *.
  rewrite filter_cons_True by done. by rewrite IH.
Qed.

Lemma length_zero_iff {A} (l : list A) : (length l =? 0) = true ↔ l = [].
Proof. destruct l; simpl; split; done. Qed.

Lemma inv_create : inv (create true true).
Proof. repeat split; simpl; auto using NoDup_nil_2. Qed.

Lemma inv_subscribe cb m : inv m → inv (subscribe cb m).
Proof.
  intros (Hw & Hc & Hnd & Hid). unfold subscribe, startPolling. simpl.
  pose proof (set_add_nonempty cb (subscribers m)) as Hne.
  pose proof (set_add_NoDup cb _ Hnd) as Hnd'.
  destruct (intervalId m) as [id|] eqn:E.
  - rewrite (bool_decide_eq_false_2 (Some id = None)) by done.
    rewrite andb_false_r. unfold inv. simpl. rewrite E.
    destruct Hid as [_ Ht]. done.
  - destruct Hid as [Hs Ht]. rewrite Hs. simpl.
    rewrite Hw. simpl. unfold inv. simpl. rewrite Ht.
    split_and!; try done. rewrite Hs in Hnd'. done.
Qed.

Lemma inv_unsubscribe cb m : inv m → inv (unsubscribe cb m).
Proof.
  intros (Hw & Hc & Hnd & Hid). unfold unsubscribe, stopPolling. simpl.
  pose proof (set_delete_NoDup cb _ Hnd) as Hnd'.
  destruct (intervalId m) as [id|] eqn:E.
  - destruct Hid as [Hs Ht].
    destruct (set_delete cb (subscribers m)) as [|y l] eqn:D; simpl.
    + unfold inv. simpl. rewrite Hc, Ht.
      rewrite filter_cons_False by (intros H; by apply H).
      split_and!; done.
    + unfold inv. simpl. rewrite E. split_and!; done.
  - destruct Hid as [Hs Ht]. rewrite Hs. simpl.
    unfold inv. simpl. rewrite E. split_and!; try done. apply NoDup_nil_2.
Qed.

Lemma inv_after history : inv (after history).
Proof.
  unfold after. generalize inv_create.
  generalize (create true true) as m.
  induction history as [|o h IH]; intros m Hm; simpl; [done|].
  apply IH. destruct o; [by apply inv_subscribe | by apply inv_unsubscribe].
Qed.

Lemma after_hooks_browser history : after_hooks true history = after history.
Proof.
  unfold after_hooks, after. generalize inv_create.
  generalize (create true true) as m.
  induction history as [|o h IH]; intros m Hm; simpl; [done|].
  assert (hook_op m o = apply_op m o) as ->.
  { unfold hook_op. by destruct Hm as (-> & _). }
  apply IH. destruct o; [by apply inv_subscribe | by apply inv_unsubscribe].
Qed.

Lemma after_hooks_no_window history :
  after_hooks false history = create false true.
Proof.
  unfold after_hooks. induction history as [|o h IH]; simpl; [done|].
  exact IH.
Qed.

Lemma subscribers_subscribe cb m :
  subscribers (subscribe cb m) = set_add cb (subscribers m).
Proof.
  unfold subscribe, startPolling. cbn [subscribers with_subscribers window].
  destruct (_ && _); [|done]. by destruct (negb _).
Qed.

Lemma subscribers_unsubscribe cb m :
  subscribers (unsubscribe cb m) = set_delete cb (subscribers m).
Proof.
  unfold unsubscribe, stopPolling. cbn [subscribers with_subscribers intervalId].
  destruct (_ && _); [|done]. by destruct (intervalId m).
Qed.

Lemma elem_of_set_add x y s : x ∈ set_add y s ↔ x = y ∨ x ∈ s.
Proof.
  unfold set_add. destruct (decide (y ∈ s)) as [Hin|Hn].
  - split; [by right|]. by intros [->|].
  - rewrite elem_of_app, list_elem_of_singleton. tauto.
Qed.

Lemma elem_of_set_delete x y s : x ∈ set_delete y s ↔ x ≠ y ∧ x ∈ s.
Proof. unfold set_delete. by rewrite list_elem_of_filter. Qed.

Lemma registered_after history :
  ∀ m held cb,
    (cb ∈ subscribers m ↔ held = true) →
    cb ∈ subscribers (fold_left apply_op history m) ↔
    fold_left
      (λ held o,
         match o with
         | Register c => if decide (c = cb) then true else held
         | Release c => if decide (c = cb) then false else held
         end)
      history held = true.
Proof.
  induction history as [|o h IH]; intros m held cb Hm; simpl; [done|].
  apply IH. destruct o as [c|c]; simpl.
  - rewrite subscribers_subscribe, elem_of_set_add.
    destruct (decide (c = cb)) as [->|Hne]; [by split; auto|].
    rewrite <- Hm. split; [|by right]. by intros [->|].
  - rewrite subscribers_unsubscribe, elem_of_set_delete.
    destruct (decide (c = cb)) as [->|Hne]; [by split; [intros []|]|].
    rewrite <- Hm. split; [by intros []|]. intros H. split; [|done].
    by intros ->.
Qed.

(** [C5] After any history of registrations and releases by hooks, in a
    runtime with or without a window: a closure is in the registration set
    exactly when the runtime has a window and the last operation of the
    history that names it is a registration; the number of running interval
    timers is zero when the set is empty and exactly one otherwise, and
    [intervalId] is set exactly when a timer runs.  From such a state,
    registering a closure when the set is empty starts a timer, the only one
    running; registering when the set is not empty leaves the running timer
    as it is (N registrations hold one timer); releasing the only registered
    closure stops the timer; releasing one of several leaves it running. *)
Theorem timer_runs_iff_subscribed (window : bool) (history : list op) :
  let m := after_hooks window history in
  (∀ cb, cb ∈ subscribers m ↔ window = true ∧ registered history cb = true) ∧
  length (timers m) = (if decide (subscribers m = []) then 0 else 1) ∧
  (timers m ≠ [] ↔ subscribers m ≠ []) ∧
  (intervalId m ≠ None ↔ subscribers m ≠ []) ∧
  (∀ cb, window = true → subscribers m = [] →
     subscribers (subscribe cb m) = [cb] ∧
     timers (subscribe cb m) = [fresh m] ∧
     intervalId (subscribe cb m) = Some (fresh m)) ∧
  (∀ cb, subscribers m ≠ [] →
     timers (subscribe cb m) = timers m ∧
     intervalId (subscribe cb m) = intervalId m) ∧
  (∀ cb, subscribers m = [cb] →
     subscribers (unsubscribe cb m) = [] ∧
     timers (unsubscribe cb m) = [] ∧
     intervalId (unsubscribe cb m) = None) ∧
  (∀ cb, set_delete cb (subscribers m) ≠ [] →
     timers (unsubscribe cb m) = timers m ∧
     intervalId (unsubscribe cb m) = intervalId m).
Proof.
  destruct window.
  - rewrite after_hooks_browser. intros m.
    destruct (inv_after history) as (Hw & Hc & _ & Hid). fold m in Hw, Hc, Hid.
    split.
    { intros cb. unfold m, after, registered.
      rewrite (registered_after history (create true true) false cb).
      - tauto.
      - simpl. split; [by intros ?%not_elem_of_nil|done]. }
    destruct (intervalId m) as [id|] eqn:I.
    + destruct Hid as [Hs Ht]. rewrite Ht. rewrite decide_False by done.
      do 3 (split; [done|]). split; [|split; [|split]].
      * intros cb _ Hn. done.
      * intros cb _. unfold subscribe. simpl. rewrite I.
        rewrite (bool_decide_eq_false_2 (Some id = None)) by done.
        rewrite andb_false_r. simpl. by rewrite Ht.
      * intros cb Hcb. unfold unsubscribe, stopPolling. simpl.
        rewrite Hcb. unfold set_delete. rewrite filter_cons_False by tauto.
        rewrite filter_nil. simpl. rewrite I. simpl. rewrite Hc, Ht.
        rewrite filter_cons_False by tauto. done.
      * intros cb Hcb. unfold unsubscribe. simpl.
        destruct (set_delete cb (subscribers m)); [done|]. simpl.
        by rewrite Ht.
    + destruct Hid as [Hs Ht]. rewrite Ht, Hs. rewrite decide_True by done.
      do 3 (split; [done|]). split; [|split; [|split]].
      * intros cb _ _. unfold subscribe, startPolling. simpl.
        rewrite Hs, I. simpl. rewrite Hw. simpl. by rewrite Ht.
      * done.
      * done.
      * intros cb Hcb. unfold unsubscribe. simpl. rewrite Hs in *. done.
  - rewrite after_hooks_no_window. simpl.
    split; [|do 3 (split; [done|]); split; [|split; [|split]]]; try done.
    + intros cb. split; [by intros ?%not_elem_of_nil|by intros []].
Qed.

(** A run of [C5]: registering the first closure starts the timer; the N-th
    shares it; releasing the last one stops it. *)
Lemma timer_runs_iff_subscribed_witness :
  let m0 := after_hooks true [] in
  let m3 := after_hooks true [Register 7; Register 8; Register 9] in
  let m1 := after_hooks true [Register 7; Register 8; Register 9;
                              Release 8; Release 7] in
  timers (StoragePollingManager.subscribe 7 m0) = [1] ∧
  timers (StoragePollingManager.subscribe 10 m3) = [1] ∧
  timers (StoragePollingManager.unsubscribe 8 m3) = [1] ∧
  timers (StoragePollingManager.unsubscribe 9 m1) = [].
Proof.
  split; [|split; [|split]].
  - destruct (timer_runs_iff_subscribed true [])
      as (_ & _ & _ & _ & H & _).
    destruct (H 7 eq_refl eq_refl) as (_ & Ht & _). exact Ht.
  - destruct (timer_runs_iff_subscribed true
                [Register 7; Register 8; Register 9])
      as (_ & _ & _ & _ & _ & H & _).
    destruct (H 10) as [Ht _]; [by vm_compute|]. exact Ht.
  - destruct (timer_runs_iff_subscribed true
                [Register 7; Register 8; Register 9])
      as (_ & _ & _ & _ & _ & _ & _ & H).
    destruct (H 8) as [Ht _]; [by vm_compute|]. exact Ht.
  - destruct (timer_runs_iff_subscribed true
                [Register 7; Register 8; Register 9; Release 8; Release 7])
      as (_ & _ & _ & _ & _ & _ & H & _).
    destruct (H 9) as (_ & Ht & _); [by vm_compute|]. exact Ht.
Defined.

(** The timer along a history: one timer for three registrations, none
    after the last release, a new one on the next registration. *)
Example one_timer_for_three :
  timers (after_hooks true [Register 7]) = [1] ∧
  timers (after_hooks true [Register 7; Register 8; Register 9]) = [1] ∧
  timers (after_hooks true [Register 7; Register 8; Register 9;
                            Release 8; Release 7]) = [1] ∧
  timers (after_hooks true [Register 7; Register 8; Register 9;
                            Release 8; Release 7; Release 9]) = [] ∧
  timers (after_hooks true [Register 7; Release 7; Register 8]) = [2].
Proof. repeat split. Qed.

Lemma inv_any_after w c history : inv_any (after_in w c history).
Proof.
  unfold after_in.
  assert (inv_any (create w c)) as H0.
  { split_and!; simpl; try done; [apply NoDup_nil_2|]. by destruct w. }
  revert H0. generalize (create w c) as m.
  induction history as [|o h IH]; intros m Hm; simpl; [done|].
  apply IH. destruct Hm as (Hnd & Hid & Hw).
  destruct m as [id subs win ci ts fr]. simpl in *.
  destruct o as [cb|cb]; simpl.
  - unfold subscribe, startPolling, inv_any. simpl.
    pose proof (set_add_nonempty cb subs) as Hne.
    pose proof (set_add_NoDup cb _ Hnd) as Hnd'.
    destruct id as [id|]; simpl.
    + rewrite andb_false_r. simpl. split_and!; try done. by destruct win.
    + rewrite andb_true_r. destruct win; simpl.
      * rewrite (Hw eq_refl) in *. simpl. split_and!; done.
      * destruct (length (set_add cb subs) =? 1); simpl; split_and!; done.
  - unfold unsubscribe, stopPolling, inv_any. simpl.
    pose proof (set_delete_NoDup cb _ Hnd) as Hnd'.
    destruct id as [id|]; simpl.
    + rewrite andb_true_r.
      destruct (set_delete cb subs) as [|y l] eqn:D; simpl.
      * split_and!; try done. by destruct win.
      * split_and!; try done. by destruct win.
    + rewrite andb_false_r. simpl. split_and!; try done.
      destruct win; [|done]. intros _. rewrite (Hw eq_refl). done.
Qed.

(** [C10] In every runtime and after any history: no callback is
    registered twice; subscribing a callback that is already registered
    changes nothing; and calling the unsubscribe function of a callback that
    is no longer registered changes nothing (neither the subscriber set nor
    the timer). *)
Theorem subscribe_once_unsubscribe_idempotent
    (window clearIntervalDefined : bool) (history : list op) (cb : nat) :
  let m := after_in window clearIntervalDefined history in
  NoDup (subscribers m) ∧
  (cb ∈ subscribers m → subscribe cb m = m) ∧
  (cb ∉ subscribers m → unsubscribe cb m = m).
Proof.
  intros m.
  destruct (inv_any_after window clearIntervalDefined history)
    as (Hnd & Hid & Hw). fold m in Hnd, Hid, Hw.
  assert (∀ l, l = subscribers m → with_subscribers l m = m) as Hsame.
  { intros l ->. by destruct m. }
  split_and!; [done| |].
  - intros Hin. unfold subscribe, startPolling, set_add. simpl.
    rewrite decide_True by done. rewrite Hsame by done.
    destruct (intervalId m) as [id|] eqn:I.
    + rewrite (bool_decide_eq_false_2 (Some id = None)) by done.
      by rewrite andb_false_r.
    + destruct (StoragePollingManager.window m) eqn:W; simpl.
      * rewrite (Hw eq_refl) in Hin. by apply not_elem_of_nil in Hin.
      * by destruct (_ && _).
  - intros Hn. unfold unsubscribe, stopPolling. simpl.
    rewrite set_delete_absent by done. rewrite Hsame by done.
    destruct (intervalId m) as [id|] eqn:I.
    + destruct (subscribers m) eqn:S; simpl; [|done].
      exfalso. by apply Hid.
    + by destruct (_ && _).
Qed.

(** A run of [C10]: callback 7 registered twice is held once; releasing 7
    twice, the second release changes nothing. *)
Lemma subscribe_once_unsubscribe_idempotent_witness :
  let m := after_in true true [Register 7; Register 8; Register 7] in
  subscribers m = [7; 8] ∧ subscribe 7 m = m ∧
  unsubscribe 9 m = m ∧
  unsubscribe 7 (unsubscribe 7 m) = unsubscribe 7 m.
Proof.
  split; [reflexivity|]. split; [|split].
  - apply (subscribe_once_unsubscribe_idempotent true true
             [Register 7; Register 8; Register 7] 7).
    vm_compute. apply list_elem_of_here.
  - apply (subscribe_once_unsubscribe_idempotent true true
             [Register 7; Register 8; Register 7] 9).
    vm_compute. intros H. apply list_elem_of_In in H. simpl in H. intuition lia.
  - apply (subscribe_once_unsubscribe_idempotent true true
             [Register 7; Register 8; Register 7; Release 7] 7).
    vm_compute. intros H. apply list_elem_of_In in H. simpl in H. intuition lia.
Defined.

End PollingFacts.

(** ** The interval handler *)

Module IntervalFacts.
Import StoragePollingManager Props Interval EffFacts PollingFacts.

(** *** The set and its list of entries *)

Lemma entries_slot_add cb (d : list (option nat)) :
  omap id (slot_add cb d) = set_add cb (omap id d).
Proof.
  unfold slot_add, set_add.
  assert (Some cb ∈ d ↔ cb ∈ omap id d) as Hin.
  { rewrite list_elem_of_omap. split.
    - intros H. by exists (Some cb).
    - by intros ([c|] & H & [= ->]). }
  destruct (decide (Some cb ∈ d)) as [H|H].
  - rewrite decide_True by by apply Hin. done.
  - rewrite decide_False by by rewrite <- Hin. by rewrite omap_app.
Qed.

Lemma entries_slot_delete cb (d : list (option nat)) :
  omap id (slot_delete cb d) = set_delete cb (omap id d).
Proof.
  unfold slot_delete, set_delete. induction d as [|[c|] d IH]; simpl; [done| |done].
  destruct (decide (Some c = Some cb)) as [[= ->]|Hne]; simpl.
  - rewrite filter_cons_False by (intros H; by apply H). done.
  - rewrite filter_cons_True by congruence. f_equal. exact IH.
Qed.

Lemma tracks_call_manager k o : tracks k → tracks (call_manager k o).
Proof.
  unfold tracks. intros Hk. destruct o as [cb|cb]; simpl.
  - by rewrite subscribers_subscribe, entries_slot_add, Hk.
  - by rewrite subscribers_unsubscribe, entries_slot_delete, Hk.
Qed.

Lemma tracks_calls ops : ∀ k, tracks k → tracks (fold_left call_manager ops k).
Proof.
  induction ops as [|o ops IH]; intros k Hk; simpl; [done|].
  apply IH. by apply tracks_call_manager.
Qed.

Lemma tracks_start m : tracks {| manager := m; data := Some <$> subscribers m |}.
Proof.
  unfold tracks. simpl. induction (subscribers m) as [|c l IH]; [done|].
  simpl. f_equal. exact IH.
Qed.

(** *** A closure that throws *)


(** *** Closures that do not call the manager *)

Lemma forEach_quiet {W} (call : nat → Closure W) (k : Walk) (rest : list nat) :
  (∀ cb w, (call cb w).2 = []) →
  ∀ pre w calls,
    data k = Some <$> pre ++ rest →
    ∃ w', forEach (length rest) call (length pre) k w calls
          = (true, manager k, w', calls ++ rest).
Proof.
  intros Hq. induction rest as [|cb rest IH]; intros pre w calls Hd.
  - exists w. rewrite app_nil_r in *.
    assert (data k !! length pre = None) as Hl.
    { rewrite Hd. apply lookup_ge_None. by rewrite length_fmap. }
    destruct (length pre); simpl; by rewrite Hl.
  - assert (data k !! length pre = Some (Some cb)) as Hl.
    { rewrite Hd, list_lookup_fmap, lookup_app_r by done.
      by rewrite Nat.sub_diag. }
    simpl. rewrite Hl.
    specialize (Hq cb w). destruct (call cb w) as [[r w1] ops].
    simpl in Hq. subst ops. simpl.
    destruct (IH (pre ++ [cb]) w1 (calls ++ [cb])) as [w' Hrun].
    { by rewrite <- app_assoc. }
    rewrite length_app, Nat.add_1_r in Hrun. rewrite <- app_assoc in Hrun.
    exists w'. by destruct r.
Qed.

Lemma tick_quiet {W} (call : nat → Closure W) (m : t) (w : W) :
  (∀ cb w, (call cb w).2 = []) →
  ∃ w', tick (length (subscribers m)) call m w
        = (true, m, w', subscribers m).
Proof.
  intros Hq. unfold tick.
  destruct (forEach_quiet call
              {| manager := m; data := Some <$> subscribers m |}
              (subscribers m) Hq [] w []) as [w' H]; [done|].
  exists w'. exact H.
Qed.

Lemma ticks_quiet {W} (call : nat → Closure W) (m : t) (n : nat) :
  (∀ cb w, (call cb w).2 = []) →
  ∀ w, ∃ w', ticks n (length (subscribers m)) call m w
             = (true, m, w', concat (replicate n (subscribers m))).
Proof.
  intros Hq. induction n as [|n IH]; intros w; simpl; [by exists w|].
  destruct (tick_quiet call m w Hq) as [w1 ->].
  destruct (IH w1) as [w' ->]. by exists w'.
Qed.

(** On closures that do not call the manager the walk is the plain one of
    [StoragePollingManager.forEach]. *)
Lemma forEach_plain {W} (body : nat → M W unit) (k : Walk) (rest : list nat) :
  ∀ pre w calls,
    data k = Some <$> pre ++ rest →
    forEach (length rest) (λ cb, quiet (body cb)) (length pre) k w calls
    = (true, manager k,
       snd (StoragePollingManager.forEach rest
              (λ cb, try_catch (body cb) (λ _, mret tt)) w),
       calls ++ rest).
Proof.
  induction rest as [|cb rest IH]; intros pre w calls Hd.
  - rewrite app_nil_r in *.
    assert (data k !! length pre = None) as Hl.
    { rewrite Hd. apply lookup_ge_None. by rewrite length_fmap. }
    destruct (length pre); simpl; by rewrite Hl.
  - assert (data k !! length pre = Some (Some cb)) as Hl.
    { rewrite Hd, list_lookup_fmap, lookup_app_r by done.
      by rewrite Nat.sub_diag. }
    cbn [forEach length]. rewrite Hl. unfold quiet at 1.
    cbn [fold_left StoragePollingManager.forEach].
    rewrite run_bind, run_try_catch.
    specialize (IH (pre ++ [cb])).
    rewrite length_app, Nat.add_1_r in IH.
    destruct (body cb w) as [[[]|e] w1]; simpl;
      rewrite IH by (by rewrite <- app_assoc); by rewrite <- app_assoc.
Qed.

Lemma tick_plain {W} (body : nat → M W unit) (m : t) (w : W) :
  tick (length (subscribers m)) (λ cb, quiet (body cb)) m w
  = (true, m, snd (StoragePollingManager.tick body m w), subscribers m).
Proof.
  unfold tick, StoragePollingManager.tick.
  by rewrite (forEach_plain body _ (subscribers m) [] w []).
Qed.

(** *** Closures that release *)













(** Closure 5 releases closure 3 during the tick: 3 is skipped on this tick
    and on the next; closure 4, registered after both, is invoked on
    both. *)
Example tick_with_a_release :
  let call : nat → Closure nat :=
    λ cb w, (if cb =? 4 then Throw URIError else Ok tt, w + cb,
             if cb =? 5 then [Release 3] else []) in
  let m := after [Register 5; Register 3; Register 4] in
  (ticks 2 3 call m 0).2 = [5; 4; 5; 4] ∧
  subscribers (ticks 2 3 call m 0).1.1.2 = [5; 4] ∧
  timers (ticks 2 3 call m 0).1.1.2 = [1].
Proof. repeat split. Qed.

(** Closure 1 releases closure 2 and registers closure 4: the tick invokes
    1, 3 and 4. *)
Example tick_with_both :
  let call : nat → Closure nat :=
    λ cb w, (Ok tt, w + cb,
             if cb =? 1 then [Release 2; Register 4] else []) in
  let m := after [Register 1; Register 2; Register 3] in
  (tick 10 call m 0).2 = [1; 3; 4] ∧
  subscribers (tick 10 call m 0).1.1.2 = [1; 3; 4].
Proof. repeat split. Qed.

(** A closure registered during the tick is invoked on that tick. *)
Example tick_with_a_registration :
  let call : nat → Closure nat :=
    λ cb w, (Ok tt, w + cb, if cb =? 5 then [Register 9] else []) in
  let m := after [Register 5; Register 3] in
  tick 10 call m 0 = (true, subscribe 9 m, 17, [5; 3; 9]).
Proof. repeat split. Qed.

(** *** A released closure *)

Lemma absent_call_manager cb k o :
  o ≠ Register cb → Some cb ∉ data k → Some cb ∉ data (call_manager k o).
Proof.
  intros Ho Hk. destruct o as [c|c]; simpl.
  - unfold slot_add. destruct (decide _); [done|].
    apply not_elem_of_app. split; [done|].
    intros [= ->]%list_elem_of_singleton. done.
  - unfold slot_delete. intros (e & He & Hin)%list_elem_of_fmap.
    destruct (decide (e = Some c)); [done|]. by subst e.
Qed.

Lemma absent_calls cb ops :
  Register cb ∉ ops →
  ∀ k, Some cb ∉ data k → Some cb ∉ data (fold_left call_manager ops k).
Proof.
  induction ops as [|o ops IH]; intros Hops k Hk; simpl; [done|].
  apply not_elem_of_cons in Hops as [Ho Hops].
  apply IH; [done|]. apply absent_call_manager; [congruence|done].
Qed.

Lemma forEach_absent {W} (call : nat → Closure W) (cb : nat) (steps : nat) :
  (∀ c w, Register cb ∉ (call c w).2) →
  ∀ index k w calls,
    tracks k → Some cb ∉ data k →
    ∃ extra,
      (forEach steps call index k w calls).2 = calls ++ extra ∧
      (cb ∉ extra) ∧
      (cb ∉ subscribers (forEach steps call index k w calls).1.1.2).
Proof.
  intros Hno. induction steps as [|steps IH]; intros index k w calls Htr Hk.
  - assert (cb ∉ subscribers (manager k)) as Hm.
    { rewrite Htr. intros ([c|] & Hin & [= ->])%list_elem_of_omap. done. }
    exists []. simpl. rewrite app_nil_r.
    destruct (data k !! index); simpl; split_and!; done || apply not_elem_of_nil.
  - simpl. destruct (data k !! index) as [[c|]|] eqn:Hl.
    + specialize (Hno c w). destruct (call c w) as [[r w1] ops]. simpl in Hno.
      assert (c ≠ cb) as Hc.
      { intros ->. apply Hk. by eapply list_elem_of_lookup_2. }
      destruct (IH (S index) (fold_left call_manager ops k) w1 (calls ++ [c]))
        as (extra & H1 & H2 & H3).
      { by apply tracks_calls. }
      { by apply absent_calls. }
      exists (c :: extra). rewrite <- app_assoc in H1.
      destruct r; (split_and!; [exact H1| |exact H3]);
        apply not_elem_of_cons; split; congruence || done.
    + by apply IH.
    + assert (cb ∉ subscribers (manager k)) as Hm.
      { rewrite Htr. intros ([c|] & Hin & [= ->])%list_elem_of_omap. done. }
      exists []. simpl. rewrite app_nil_r.
      split_and!; done || apply not_elem_of_nil.
Qed.

Lemma ticks_absent {W} (call : nat → Closure W) (cb : nat) (steps n : nat) :
  (∀ c w, Register cb ∉ (call c w).2) →
  ∀ m w, cb ∉ subscribers m →
         (cb ∉ (ticks n steps call m w).2) ∧
         (cb ∉ subscribers (ticks n steps call m w).1.1.2).
Proof.
  intros Hno. induction n as [|n IH]; intros m w Hm; simpl.
  - split; [apply not_elem_of_nil|done].
  - destruct (forEach_absent call cb steps Hno 0
                {| manager := m; data := Some <$> subscribers m |} w [])
      as (extra & H1 & H2 & H3).
    { apply tracks_start. }
    { simpl. intros (c & [= ->] & Hin)%list_elem_of_fmap. done. }
    fold (tick steps call m w) in H1, H3.
    destruct (tick steps call m w) as [[[fin m1] w1] calls1].
    simpl in H1, H3. subst calls1.
    destruct fin; [|done].
    destruct (IH m1 w1 H3) as [H4 H5].
    destruct (ticks n steps call m1 w1) as [[[fin' m2] w2] calls2].
    simpl in *. split; [|done]. by apply not_elem_of_app.
Qed.

End IntervalFacts.

Module HookFacts.
Import Json Uri Browser UseStorage Props EffFacts.

(** [C6] When the backend write of [setValue(v)], [v] not [null], throws,
    [setValue] still returns normally, and the hook is as it was: same
    last-observed raw value, same value, no [onChange] call.  (A warning is
    printed.) *)
Theorem setValue_write_failure (options : option IUseStorageOptions)
    (v : StorageValue) (s : State) :
  v ≠ VNull →
  write_throws options s (stringValue v) →
  ∃ s', setValue options v s = (Ok tt, s') ∧
        hook s' = hook s ∧
        lastValueRef (hook s') = lastValueRef (hook s) ∧
        value (hook s') = value (hook s).
Proof.
  intros Hv (e & b' & Hw). unfold adapter_write in Hw.
  assert (∀ (w : M Browser.t unit) (k1 k2 : unit → M State unit),
            w (browser s) = (Throw e, b') →
            ((in_browser w ≫= k1) ≫= k2) s
            = (Throw e, {| browser := b'; hook := hook s |})) as Hrun.
  { intros w k1 k2 E. rewrite !run_bind. unfold in_browser.
    rewrite run_zoom, E. done. }
  unfold setValue. rewrite run_bind, run_gets.
  destruct (hasWindow (browser s)); simpl; [|by exists s].
  rewrite run_try_catch, run_bind, run_gets, run_bind, run_gets.
  destruct v; try done;
    destruct (storageTypeRef (hook s)) eqn:T;
    rewrite (Hrun _ _ _ Hw); simpl; eauto.
Qed.

(** [C6] at work: a full local storage (every [setItem] throws a
    QuotaExceededError), the hook holding "old". *)
Lemma setValue_write_failure_witness :
  let s := {| browser :=
                Dom.set_area Dom.Local
                  {| items := {[ str "k" := str "old" ]};
                     denied := false; full := true |}
                  (fresh_browser 0);
              hook := {| value := VStr (str "old");
                         lastValueRef := Some (str "old");
                         keyRef := str "k"; storageTypeRef := LocalStorage;
                         changes := [] |} |} in
  ∃ s', setValue (backend LocalStorage) (VNum (Int 42)) s = (Ok tt, s') ∧
        hook s' = hook s ∧
        lastValueRef (hook s') = Some (str "old") ∧
        value (hook s') = VStr (str "old").
Proof.
  intros s.
  destruct (setValue_write_failure (backend LocalStorage) (VNum (Int 42)) s)
    as (s' & H1 & H2 & H3 & H4).
  - discriminate.
  - exists QuotaExceededError, (browser s). reflexivity.
  - exists s'. split; [exact H1|]. split; [exact H2|].
    split; [rewrite H3 | rewrite H4]; reflexivity.
Defined.

(** *** Initial value and [hasValue] *)

(** At the first render, a key that the backend does not hold yields the
    configured default, and [hasValue] tells whether that default is not
    [null]. *)
Lemma absent_key_yields_default (key : jsstring)
    (options : option IUseStorageOptions) (b : Browser.t) :
  hasWindow b = true →
  rawValue (opt_storageType options) key b = (Ok None, b) →
  ∃ h, useStorage key options b = (Ok h, b) ∧
       value h = opt_defaultValue options ∧
       hasValue h = match opt_defaultValue options with
                    | VNull => false
                    | _ => true
                    end.
Proof.
  intros Hw Hraw. unfold useStorage, initialValue.
  rewrite !run_bind, run_gets, Hw. simpl.
  rewrite run_try_catch, run_bind, Hraw. simpl.
  eexists. split; [reflexivity|]. split; reflexivity.
Qed.

(** [C1] The code at the scenario of the specification: key "k", local
    storage holding nothing, default "fallback".  The raw value is absent
    and the value is the default, but [hasValue] is [true]. *)
Theorem hasValue_true_on_default :
  let b := fresh_browser 0 in
  let options := backend_with_default LocalStorage (VStr (str "fallback")) in
  rawValue LocalStorage (str "k") b = (Ok None, b) ∧
  ∃ h, useStorage (str "k") options b = (Ok h, b) ∧
       value h = VStr (str "fallback") ∧
       hasValue h = true.
Proof.
  split; [reflexivity|]. eexists. split; [reflexivity|]. split; reflexivity.
Qed.

(** *** The cookie string *)

Lemma time_after_instant now days :
  time_after now days = instant_after now days.
Proof. destruct days; simpl; try done; do 2 f_equal; lia. Qed.





(** What is written there, and with a number of days that is no number. *)
Example setCookie_invalid_dates :
  let written (e : number) :=
    cookieWrites
      (snd (setCookie (str "k") (str "v") (with_expires (Some e))
              (fresh_browser 1793577600000))) in
  written (Int 1000000000) =
    [str "k=v; expires=Invalid Date; path=/; SameSite=Lax"] ∧
  written NaN = [str "k=v; expires=Invalid Date; path=/; SameSite=Lax"].
Proof. repeat split; vm_compute; reflexivity. Qed.



(** The cases of the expiration policy, run: zero days, no option, seven
    days, half a day. *)
Example setCookie_three_policies :
  let written (e : option number) :=
    cookieWrites
      (snd (setCookie (str "k") (str "v") (with_expires e)
              (fresh_browser 1793577600000))) in
  written (Some (Int 0)) = [str "k=v; path=/; SameSite=Lax"] ∧
  written None =
    [str "k=v; expires=Tue, 02 Nov 2027 00:00:00 GMT; path=/; SameSite=Lax"] ∧
  written (Some (Int 7)) =
    [str "k=v; expires=Mon, 09 Nov 2026 00:00:00 GMT; path=/; SameSite=Lax"] ∧
  written (Some (Frac 5 1)) =
    [str "k=v; expires=Mon, 02 Nov 2026 12:00:00 GMT; path=/; SameSite=Lax"].
Proof. repeat split; vm_compute; reflexivity. Qed.

(** *** [clear] *)

(** [C9], as stated, fails: on the cookie backend [clear] prints
    nothing. *)
Lemma clear_cookie_no_warning :
  ¬ spec_clear_cookie_warns (mounted Cookie (str "k") (fresh_browser 0)).
Proof. intros (s' & H & _ & Hlen). vm_compute in H. by inversion H; subst. Qed.

(** [C9], amended.  In a browser, [clear] on the cookie backend changes
    nothing at all (no cookie is touched, nothing is printed); on the
    local and the session backend, when the storage area is accessible, it
    empties that area, touches nothing else and prints nothing. *)
Theorem clear_by_backend (s : State) :
  hasWindow (browser s) = true →
  match storageTypeRef (hook s) with
  | Cookie => clear s = (Ok tt, s)
  | LocalStorage =>
      denied (Browser.localStorage (browser s)) = false →
      ∃ s', clear s = (Ok tt, s') ∧
            items (Browser.localStorage (browser s')) = ∅ ∧
            Browser.sessionStorage (browser s')
              = Browser.sessionStorage (browser s) ∧
            cookieJar (browser s') = cookieJar (browser s) ∧
            console (browser s') = console (browser s) ∧
            hook s' = hook s
  | SessionStorage =>
      denied (Browser.sessionStorage (browser s)) = false →
      ∃ s', clear s = (Ok tt, s') ∧
            items (Browser.sessionStorage (browser s')) = ∅ ∧
            Browser.localStorage (browser s')
              = Browser.localStorage (browser s) ∧
            cookieJar (browser s') = cookieJar (browser s) ∧
            console (browser s') = console (browser s) ∧
            hook s' = hook s
  end.
Proof.
  intros Hw. unfold clear. 
  destruct (storageTypeRef (hook s)) eqn:T; [intros Hd|intros Hd|];
    rewrite run_bind, run_gets, Hw; simpl;
    rewrite run_try_catch, run_bind, run_gets, T.
  - unfold in_browser. rewrite run_zoom. unfold Dom.clear. simpl.
    rewrite Hd. simpl. eexists. split; [reflexivity|]. by simpl.
  - unfold in_browser. rewrite run_zoom. unfold Dom.clear. simpl.
    rewrite Hd. simpl. eexists. split; [reflexivity|]. by simpl.
  - rewrite run_ret. reflexivity.
Qed.

(** [C9], amended, at work: two keys in local storage, one cookie. *)
Lemma clear_by_backend_witness :
  let b := Dom.set_area Dom.Local
             {| items := {[ str "k" := str "1"; str "other" := str "2" ]};
                denied := false; full := false |}
             (snd (Dom.set_cookie (str "c=3") (fresh_browser 0))) in
  (∃ s', clear (mounted LocalStorage (str "k") b) = (Ok tt, s') ∧
         items (Browser.localStorage (browser s')) = ∅ ∧
         cookieJar (browser s') = cookieJar b ∧
         console (browser s') = []) ∧
  clear (mounted Cookie (str "c") b) = (Ok tt, mounted Cookie (str "c") b).
Proof.
  intros b. split.
  - destruct (clear_by_backend (mounted LocalStorage (str "k") b))
      as (s' & H1 & H2 & _ & H3 & H4 & _); [reflexivity|reflexivity|].
    exists s'. split; [exact H1|]. split; [exact H2|].
    split; [exact H3|]. rewrite H4. reflexivity.
  - apply (clear_by_backend (mounted Cookie (str "c") b)). reflexivity.
Defined.

(** *** No self-notification *)

(** A change-check on a hook in sync with its backend does nothing: no
    decoding, no state update, no [onChange] call. *)
Lemma checkValue_in_sync (options : option IUseStorageOptions) (s : State) :
  in_sync s → checkValue options s = (Ok tt, s).
Proof.
  unfold in_sync, checkValue. intros Hs.
  rewrite run_try_catch, run_bind, run_gets, run_bind, run_gets, run_bind.
  unfold in_browser. rewrite run_zoom, Hs. simpl.
  rewrite run_bind, run_gets. simpl.
  rewrite bool_decide_eq_false_2 by (intros H; by apply H).
  by destruct s.
Qed.

Lemma cons_neq {A} (x : A) (l : list A) : x :: l ≠ l.
Proof. intros H. apply (f_equal length) in H. simpl in H. lia. Qed.

(** The adapter calls leave the console alone. *)
Lemma adapter_call_console (options : option IUseStorageOptions) (h : Hook)
    (v : StorageValue) (b b1 : Browser.t) (r : result unit) :
  adapter_call options h v b = (r, b1) → console b1 = console b.
Proof.
  assert (∀ a k t, Dom.setItem a k t b = (r, b1) → console b1 = console b)
    as Hset.
  { intros a k t. unfold Dom.setItem.
    destruct (denied _); [by intros [= _ <-]|].
    destruct (full _); [by intros [= _ <-]|]. intros [= _ <-].
    by destruct a. }
  assert (∀ a k, Dom.removeItem a k b = (r, b1) → console b1 = console b)
    as Hrem.
  { intros a k. unfold Dom.removeItem.
    destruct (denied _); [by intros [= _ <-]|]. intros [= _ <-].
    by destruct a. }
  assert (∀ t, Dom.set_cookie t b = (r, b1) → console b1 = console b)
    as Hck.
  { intros t. unfold Dom.set_cookie.
    destruct (cookieDenied b); by intros [= _ <-]. }
  unfold adapter_call, adapter_write, adapter_remove.
  destruct v, (storageTypeRef h); eauto;
    unfold setCookie, removeCookie;
    rewrite run_bind, run_gets;
    (destruct (hasDocument b); simpl; [|by intros [= _ <-]]);
    eauto;
    (destruct (encodeURIComponent _); [|by intros [= _ <-]]);
    rewrite run_bind, run_ret, run_bind, run_gets; eauto.
Qed.

(** After a successful [setValue] on a backend that keeps what it is
    handed, the backend holds exactly what the hook recorded as last
    observed. *)
Lemma setValue_in_sync (options : option IUseStorageOptions)
    (v : StorageValue) (s s' : State) :
  successful options v s s' →
  reads_back options v s →
  in_sync s'.
Proof.
  intros (Hw & Hrun & Hcon) Hback. revert Hrun. unfold setValue.
  rewrite run_bind, run_gets, Hw. simpl.
  rewrite run_try_catch, run_bind, run_gets, run_bind, run_gets.
  destruct s as [b h]. unfold reads_back in Hback. simpl in *.
  set (handler := λ _ : exn,
         type ← gets (λ s0, storageTypeRef (hook s0));
         key ← gets (λ s0, keyRef (hook s0));
         in_browser (Dom.warn (str "Error setting " ++ type_name type
                               ++ str " for key " ++ quoted key ++ str ":"))).
  assert (∀ e s1, console (browser s1) = console b →
            handler e s1 = (Ok tt, s') → in_sync s') as Hthrow.
  { intros e s1 Hc1. unfold handler.
    rewrite run_bind, run_gets, run_bind, run_gets.
    unfold in_browser. rewrite run_zoom. simpl. intros [= <-]. simpl in Hcon.
    rewrite Hc1 in Hcon. by apply cons_neq in Hcon. }
  assert (∀ (op : M Browser.t unit),
      op = adapter_call options h v →
      (let (r, s1) :=
         ((in_browser op ;; set_lastValueRef (encoded v)) ;;
          setValueState v ;; call_onChange options v)
           {| browser := b; hook := h |} in
       match r with
       | Ok a0 => (Ok a0, s1)
       | Throw e => handler e s1
       end) = (Ok tt, s') → in_sync s') as Hcase.
  { intros op ->.
    rewrite !run_bind. unfold in_browser at 1. rewrite run_zoom. simpl.
    destruct (adapter_call options h v b) as [[[]|e] b1] eqn:Hop; simpl.
    - specialize (Hback b1 eq_refl). unfold call_onChange.
      destruct (default false (onChange <$> options)); simpl;
        by intros [= <-].
    - apply Hthrow. simpl. by eapply adapter_call_console. }
  unfold adapter_call, adapter_write, adapter_remove in Hcase.
  destruct v, (storageTypeRef h); by apply Hcase.
Qed.

Lemma storage_reads_back (options : option IUseStorageOptions)
    (v : StorageValue) (s : State) :
  storageTypeRef (hook s) ≠ Cookie → reads_back options v s.
Proof.
  intros Hty b1. destruct s as [b h]. simpl in *.
  assert (∀ a text, Dom.setItem a (keyRef h) text b = (Ok tt, b1) →
            Dom.getItem a (keyRef h) b1 = (Ok (Some text), b1)) as Hset.
  { intros a text. unfold Dom.setItem, Dom.getItem.
    destruct (denied (Dom.get_area a b)) eqn:D; [done|].
    destruct (full (Dom.get_area a b)); [done|]. intros [= <-].
    destruct a; simpl in *; rewrite D; by rewrite lookup_insert_eq. }
  assert (∀ a, Dom.removeItem a (keyRef h) b = (Ok tt, b1) →
            Dom.getItem a (keyRef h) b1 = (Ok None, b1)) as Hrem.
  { intros a. unfold Dom.removeItem, Dom.getItem.
    destruct (denied (Dom.get_area a b)) eqn:D; [done|]. intros [= <-].
    destruct a; simpl in *; rewrite D; by rewrite lookup_delete_eq. }
  unfold adapter_call, adapter_write, adapter_remove.
  destruct v, (storageTypeRef h); simpl; auto; done.
Qed.

(** [C4], as stated, fails on the cookie backend when the cookie is written
    with an expiry in the past ([expires: -1], on 2 November 2026): the write
    succeeds, the hook records "x" as last observed, but the cookie store
    holds nothing under the key, and the next change-check notifies [null]. *)
Lemma setValue_expired_cookie_out_of_sync :
  ¬ spec_no_self_notification
      (cookie_backend (with_expires (Some (Int (-1))))) (VStr (str "x"))
      (mounted Cookie (str "k") (fresh_browser 1793577600000)).
Proof.
  intros H.
  set (options := cookie_backend (with_expires (Some (Int (-1))))) in *.
  set (s := mounted Cookie (str "k") (fresh_browser 1793577600000)) in *.
  destruct (H (snd (setValue options (VStr (str "x")) s))) as [Hsync _].
  - split; [reflexivity|]. split; vm_compute; reflexivity.
  - vm_compute in Hsync. discriminate.
Qed.

(** What happens there, step by step. *)
Example expired_cookie_trace :
  let options := cookie_backend (with_expires (Some (Int (-1)))) in
  let s := mounted Cookie (str "k") (fresh_browser 1793577600000) in
  let s1 := snd (setValue options (VStr (str "x")) s) in
  let s2 := snd (checkValue options s1) in
  cookieWrites (browser s1) =
    [str "k=x; expires=Sun, 01 Nov 2026 00:00:00 GMT; path=/; SameSite=Lax"] ∧
  cookieJar (browser s1) = [] ∧
  lastValueRef (hook s1) = Some (str "x") ∧
  fst (getCookie (str "k") (browser s1)) = Ok None ∧
  changes (hook s1) = [VStr (str "x")] ∧
  changes (hook s2) = [VNull; VStr (str "x")] ∧
  value (hook s2) = VNull.
Proof. repeat split; vm_compute; reflexivity. Qed.

(** With an expiry in the future the cookie store keeps the cookie and the
    change-check is silent. *)
Example live_cookie_trace :
  let options := cookie_backend (with_expires (Some (Int 7))) in
  let s := mounted Cookie (str "k") (fresh_browser 1793577600000) in
  let s1 := snd (setValue options (VStr (str "a b;c")) s) in
  cookieWrites (browser s1) =
    [str "k=a%20b%3Bc; expires=Mon, 09 Nov 2026 00:00:00 GMT; path=/; SameSite=Lax"] ∧
  fst (getCookie (str "k") (browser s1)) = Ok (Some (str "a b;c")) ∧
  checkValue options s1 = (Ok tt, s1).
Proof. repeat split; vm_compute; reflexivity. Qed.

End HookFacts.

(** ** JSON: parsing what [JSON.stringify] prints *)

Module JsonFacts.
Import Json Props.
Local Open Scope N_scope.

(** *** Decimal digits *)

Lemma is_digit_spec c : is_digit c = true ↔ 48 <= c <= 57.
Proof. unfold is_digit. rewrite andb_true_iff, !N.leb_le. done. Qed.

Local Ltac Zify.zify_post_hook ::= Z.to_euclidean_division_equations.

Lemma decimal_aux_value fuel :
  ∀ n acc, n < 2 ^ N.of_nat fuel →
    fold_left (λ x c, x * 10 + (c - 48)) (decimal_aux (S fuel) n acc) 0
    = fold_left (λ x c, x * 10 + (c - 48)) acc n.
Proof.
  induction fuel as [|f IH]; intros n acc Hn.
  - assert (n = 0) as -> by (simpl in Hn; lia). reflexivity.
  - change (decimal_aux (S (S f)) n acc)
      with (if n <? 10 then (48 + n) :: acc
            else decimal_aux (S f) (n / 10) ((48 + n mod 10) :: acc)).
    destruct (N.ltb_spec n 10) as [Hlt|Hge].
    + simpl. f_equal. lia.
    + rewrite IH.
      * simpl. f_equal. lia.
      * rewrite Nat2N.inj_succ, N.pow_succ_r' in Hn. lia.
Qed.

Lemma digits_value_decimal n : digits_value (decimal n) = n.
Proof.
  unfold digits_value, decimal. rewrite decimal_aux_value; [done|].
  rewrite N2Nat.id. apply N.size_gt.
Qed.

Lemma decimal_aux_digits fuel :
  ∀ n acc, Forall (λ c, is_digit c = true) acc →
           Forall (λ c, is_digit c = true) (decimal_aux fuel n acc).
Proof.
  induction fuel as [|f IH]; intros n acc Hacc; simpl; [done|].
  destruct (N.ltb_spec n 10).
  - constructor; [|done]. apply is_digit_spec. lia.
  - apply IH. constructor; [|done]. apply is_digit_spec. lia.
Qed.

Lemma decimal_digits n : Forall (λ c, is_digit c = true) (decimal n).
Proof. apply decimal_aux_digits. constructor. Qed.

Lemma decimal_aux_head fuel :
  ∀ n acc, n < 2 ^ N.of_nat fuel →
    ∃ d ds, decimal_aux (S fuel) n acc = d :: ds ∧
            (if n =? 0 then d = 48 ∧ ds = acc else d ≠ 48).
Proof.
  induction fuel as [|f IH]; intros n acc Hn.
  - assert (n = 0) as -> by (simpl in Hn; lia). by exists 48, acc.
  - change (decimal_aux (S (S f)) n acc)
      with (if n <? 10 then (48 + n) :: acc
            else decimal_aux (S f) (n / 10) ((48 + n mod 10) :: acc)).
    destruct (N.ltb_spec n 10) as [Hlt|Hge].
    + exists (48 + n), acc. split; [done|].
      destruct (N.eqb_spec n 0) as [->|]; [done|lia].
    + destruct (IH (n / 10) ((48 + n mod 10) :: acc)) as (d & ds & -> & Hd).
      { rewrite Nat2N.inj_succ, N.pow_succ_r' in Hn. lia. }
      exists d, ds. split; [done|].
      destruct (N.eqb_spec (n / 10) 0) as [E|_]; [lia|].
      destruct (N.eqb_spec n 0); [lia|done].
Qed.

(** [decimal n] is a non-empty run of digits without a leading zero,
    except for "0" itself. *)
Lemma decimal_head n :
  ∃ d ds, decimal n = d :: ds ∧ is_digit d = true ∧
          Forall (λ c, is_digit c = true) ds ∧
          (d = 48 → ds = [] ∧ n = 0).
Proof.
  destruct (decimal_aux_head (N.to_nat (N.size n)) n []) as (d & ds & E & H).
  { rewrite N2Nat.id. apply N.size_gt. }
  fold (decimal n) in E. exists d, ds. split; [done|].
  pose proof (decimal_digits n) as Hall. rewrite E in Hall.
  inversion Hall; subst. split_and!; try done.
  intros ->. destruct (N.eqb_spec n 0) as [->|]; [|done]. by destruct H.
Qed.

Lemma span_digits ds rest :
  Forall (λ c, is_digit c = true) ds →
  match rest with [] => True | c :: _ => is_digit c = false end →
  span is_digit (ds ++ rest) = (ds, rest).
Proof.
  intros Hds Hrest. induction Hds as [|d ds Hd _ IH]; cbn [span app].
  - destruct rest as [|c r]; [done|]. cbn [span]. by rewrite Hrest.
  - by rewrite Hd, IH.
Qed.

(** *** Numbers *)

Lemma not_digit_head (rest : jsstring) :
  num_end rest → match rest with [] => True | c :: _ => is_digit c = false end.
Proof. destruct rest; [done|]. by intros [? _]. Qed.

Lemma digits_value_acc (b : jsstring) :
  ∀ acc, fold_left (λ x c, x * 10 + (c - 48)) b acc
         = acc * 10 ^ N.of_nat (length b) + digits_value b.
Proof.
  unfold digits_value. induction b as [|c b IH]; intros acc.
  - simpl. lia.
  - cbn [fold_left length]. rewrite IH, (IH (0 * 10 + (c - 48))).
    rewrite Nat2N.inj_succ, N.pow_succ_r'. ring.
Qed.

Lemma digits_value_app (a b : jsstring) :
  digits_value (a ++ b)
  = digits_value a * 10 ^ N.of_nat (length b) + digits_value b.
Proof.
  unfold digits_value at 1. rewrite fold_left_app.
  by rewrite digits_value_acc.
Qed.

Lemma digits_value_zeros j : digits_value (repeat 48 j) = 0.
Proof.
  induction j as [|j IH]; [done|]. unfold digits_value in *.
  cbn [repeat fold_left]. exact IH.
Qed.

Lemma digits_value_leading_zeros j ds :
  digits_value (repeat 48 j ++ ds) = digits_value ds.
Proof. rewrite digits_value_app, digits_value_zeros. lia. Qed.

Lemma parse_sign_spec (neg : bool) (d : N) (tail : jsstring) :
  is_digit d = true →
  parse_sign ((if neg then [45] else []) ++ d :: tail) = (neg, d :: tail).
Proof.
  intros Hd. destruct neg; [done|]. cbn [app parse_sign].
  apply is_digit_spec in Hd. destruct (N.eqb_spec d 45); [lia|done].
Qed.

Lemma parse_fraction_spec (fp tail : jsstring) :
  Forall (λ c, is_digit c = true) fp →
  match tail with
  | [] => True
  | c :: _ => is_digit c = false ∧ c ≠ 46
  end →
  parse_fraction (fraction_text fp ++ tail) = Some (fp, tail).
Proof.
  intros Hfp Htail. destruct fp as [|f fp]; cbn [fraction_text app].
  - destruct tail as [|c r]; [done|]. cbn [parse_fraction].
    destruct Htail as [_ H]. by destruct (N.eqb_spec c 46).
  - cbn [parse_fraction N.eqb Pos.eqb].
    change (f :: fp ++ tail) with ((f :: fp) ++ tail).
    rewrite span_digits; [done..|]. destruct tail; [done|]. by destruct Htail.
Qed.

Lemma parse_exponent_spec (e : option Z) (rest : jsstring) :
  num_end rest →
  parse_exponent (exponent_text e ++ rest) = Some (default 0%Z e, rest).
Proof.
  intros Hend. destruct e as [x|]; cbn [exponent_text app default].
  - cbn [parse_exponent N.eqb Pos.eqb orb].
    assert (span is_digit (decimal (Z.abs_N x) ++ rest)
            = (decimal (Z.abs_N x), rest)) as Hspan.
    { apply span_digits; [apply decimal_digits|by apply not_digit_head]. }
    destruct (decimal_head (Z.abs_N x)) as (d & ds & E & _).
    destruct (Z.leb_spec 0 x); cbn [N.eqb Pos.eqb]; rewrite Hspan, E;
      rewrite <- E, digits_value_decimal; do 2 f_equal; unfold id; lia.
  - destruct rest as [|c r]; [done|]. cbn [parse_exponent].
    destruct Hend as (_ & _ & H1 & H2).
    destruct (N.eqb_spec c 101); [done|]. by destruct (N.eqb_spec c 69).
Qed.

(** A number text taken apart: sign, integer digits, fraction, exponent. *)
Lemma parse_number_parts (neg : bool) (d : N) (ds fp : jsstring)
    (e : option Z) (rest : jsstring) :
  is_digit d = true →
  Forall (λ c, is_digit c = true) ds →
  (d = 48 → ds = []) →
  Forall (λ c, is_digit c = true) fp →
  num_end rest →
  parse_number ((if neg then [45] else []) ++ (d :: ds)
                ++ fraction_text fp ++ exponent_text e ++ rest)
  = Some (make_number neg (digits_value ((d :: ds) ++ fp))
            (default 0 e - Z.of_nat (length fp))%Z, rest).
Proof.
  intros Hd Hds Hz Hfp Hend. unfold parse_number.
  cbn [app]. rewrite parse_sign_spec by done.
  change (d :: ds ++ fraction_text fp ++ exponent_text e ++ rest)
    with ((d :: ds) ++ fraction_text fp ++ exponent_text e ++ rest).
  assert (match exponent_text e ++ rest with
          | [] => True
          | c :: _ => is_digit c = false ∧ c ≠ 46
          end) as Hexp.
  { destruct e as [x|]; [done|]. cbn [exponent_text app].
    destruct rest; [done|]. by destruct Hend as (? & ? & _). }
  rewrite span_digits.
  - assert ((d =? 48) && negb (length ds =? 0)%nat = false) as ->.
    { destruct (N.eqb_spec d 48) as [E|]; [|done]. by rewrite (Hz E). }
    rewrite parse_fraction_spec by done.
    by rewrite parse_exponent_spec.
  - by constructor.
  - destruct fp; cbn [fraction_text app]; [|done].
    destruct (exponent_text e ++ rest); [done|]. by destruct Hexp.
Qed.

Lemma make_number_int (neg : bool) (a : N) (j : nat) :
  a ≠ 0 →
  make_number neg a (Z.of_nat j)
  = Int (if neg then (- (Z.of_N a * 10 ^ Z.of_nat j))%Z
         else (Z.of_N a * 10 ^ Z.of_nat j)%Z).
Proof.
  intros Ha. unfold make_number.
  destruct (N.eqb_spec a 0); [done|].
  destruct (Z.leb_spec 0 (Z.of_nat j)); [done|lia].
Qed.

Lemma make_number_frac (neg : bool) (a : N) (k : nat) :
  a mod 10 ≠ 0 → (0 < k)%nat →
  make_number neg a (- Z.of_nat k)
  = Frac (if neg then (- Z.of_N a)%Z else Z.of_N a) (N.of_nat k).
Proof.
  intros Ha Hk. unfold make_number.
  destruct (N.eqb_spec a 0) as [->|]; [done|].
  destruct (Z.leb_spec 0 (- Z.of_nat k)); [lia|].
  replace (Z.to_nat (- - Z.of_nat k)) with k by lia.
  destruct k as [|k]; [lia|]. cbn [strip_frac].
  by destruct (N.eqb_spec (a mod 10) 0).
Qed.

Lemma repeat_snoc {A} (x : A) j : repeat x j ++ [x] = x :: repeat x j.
Proof. induction j as [|j IH]; [done|]. simpl. by rewrite IH. Qed.

Lemma rev_repeat {A} (x : A) j : rev (repeat x j) = repeat x j.
Proof.
  induction j as [|j IH]; [done|]. simpl. by rewrite IH, repeat_snoc.
Qed.

Lemma strip_trailing_zeros_spec ds :
  ∃ j, ds = strip_trailing_zeros ds ++ repeat 48 j.
Proof.
  unfold strip_trailing_zeros.
  assert (∀ r, ∃ j, r = repeat 48 j ++ strip_trailing_zeros_rev r) as H.
  { induction r as [|c r [j IH]]; [by exists 0%nat|].
    cbn [strip_trailing_zeros_rev].
    destruct (N.eqb_spec c 48) as [->|]; [|by exists 0%nat].
    exists (S j). simpl. by rewrite <- IH. }
  destruct (H (rev ds)) as [j Hj]. exists j.
  rewrite <- (rev_involutive ds) at 1. rewrite Hj at 1.
  by rewrite rev_app_distr, rev_repeat.
Qed.

Lemma exponential_parts d ds n :
  exponential (d :: ds) n
  = [d] ++ fraction_text ds ++ exponent_text (Some (n - 1)%Z).
Proof. unfold exponential. by destruct ds. Qed.

(** The digits of a non-zero number: a non-zero digit, then digits. *)
Lemma decimal_nonzero a :
  a ≠ 0 →
  ∃ d ds, decimal a = d :: ds ∧ is_digit d = true ∧ d ≠ 48 ∧
          Forall (λ c, is_digit c = true) ds.
Proof.
  intros Ha. destruct (decimal_head a) as (d & ds & E & Hd & Hds & H0).
  exists d, ds. split_and!; try done. intros ->. by destruct (H0 eq_refl).
Qed.

Lemma int_parts (z : Z) :
  ∃ neg d ds fp e, number_parts (Int z) neg d ds fp e.
Proof.
  unfold number_parts, number_to_string.
  set (neg := (z <? 0)%Z). set (a := Z.abs_N z).
  assert ((if neg then (- Z.of_N a)%Z else Z.of_N a) = z) as Hsign.
  { unfold neg, a. destruct (Z.ltb_spec z 0); lia. }
  destruct (N.ltb_spec a (10 ^ 21)) as [Hsmall|Hbig].
  - destruct (decimal_head a) as (d & ds & E & Hd & Hds & H0).
    exists neg, d, ds, [], None. rewrite E. split_and!; try done.
    + cbn [fraction_text exponent_text]. by rewrite !app_nil_r.
    + intros ->. by destruct (H0 eq_refl).
    + rewrite app_nil_r, <- E, digits_value_decimal. cbn [default length].
      unfold make_number.
      destruct (N.eqb_spec a 0) as [E0|E0]; [f_equal; lia|].
      cbn [Z.leb Z.compare Z.of_nat Z.sub Z.opp Z.add]. f_equal.
      rewrite <- Hsign. destruct neg; lia.
  - assert (a ≠ 0) as Ha by lia.
    destruct (decimal_nonzero a Ha) as (d & ds & E & Hd & Hd48 & Hds).
    destruct (strip_trailing_zeros_spec (decimal a)) as [j Hj].
    destruct (strip_trailing_zeros (decimal a)) as [|d' ds'] eqn:Es.
    { exfalso. cbn [app] in Hj. rewrite E in Hj.
      destruct j as [|j]; [done|]. simpl in Hj. congruence. }
    assert (Forall (λ c, is_digit c = true) (d' :: ds')) as Hall.
    { pose proof (decimal_digits a) as H. rewrite Hj in H.
      by apply Forall_app in H as [? _]. }
    apply Forall_cons in Hall as [Hd' Hds'].
    exists neg, d', [], ds', (Some (Z.of_nat (length (decimal a)) - 1)%Z).
    split_and!; try done.
    + by rewrite exponential_parts.
    + cbn [default]. unfold id.
      assert (length (decimal a) = (S (length ds') + j)%nat) as Hlen.
      { rewrite Hj at 1. rewrite length_app, repeat_length. done. }
      replace (Z.of_nat (length (decimal a)) - 1 - Z.of_nat (length ds'))%Z
        with (Z.of_nat j) by lia.
      assert (a = digits_value ([d'] ++ ds') * 10 ^ N.of_nat j) as Ha'.
      { rewrite <- (digits_value_decimal a) at 1. rewrite Hj at 1.
        rewrite digits_value_app, repeat_length, digits_value_zeros.
        cbn [app]. lia. }
      rewrite make_number_int.
      * f_equal. rewrite <- Hsign.
        assert (Z.of_N a = Z.of_N (digits_value ([d'] ++ ds'))
                           * 10 ^ Z.of_nat j)%Z as ->.
        { rewrite Ha' at 1. by rewrite N2Z.inj_mul, N2Z.inj_pow, nat_N_Z. }
        by destruct neg.
      * intros E0. rewrite E0 in Ha'. lia.
Qed.

Lemma fraction_text_cons fp : fp ≠ [] → fraction_text fp = 46 :: fp.
Proof. by destruct fp. Qed.

Lemma frac_parts (m : Z) (k : N) :
  0 < k → (m mod 10 ≠ 0)%Z →
  ∃ neg d ds fp e, number_parts (Frac m k) neg d ds fp e.
Proof.
  intros Hk Hm. unfold number_parts, number_to_string.
  set (neg := (m <? 0)%Z). set (a := Z.abs_N m).
  assert ((if neg then (- Z.of_N a)%Z else Z.of_N a) = m) as Hsign.
  { unfold neg, a. destruct (Z.ltb_spec m 0); lia. }
  assert (a mod 10 ≠ 0) as Hmod by (unfold a; lia).
  assert (a ≠ 0) as Ha by (intros E; by rewrite E in Hmod).
  destruct (decimal_nonzero a Ha) as (d & ds & E & Hd & Hd48 & Hds).
  assert (∀ (fp : jsstring) (e : option Z),
            (default 0 e - Z.of_nat (length fp) = - Z.of_N k)%Z →
            make_number neg a (default 0 e - Z.of_nat (length fp))%Z
            = Frac m k) as Hmake.
  { intros fp e ->.
    replace (- Z.of_N k)%Z with (- Z.of_nat (N.to_nat k))%Z by lia.
    rewrite make_number_frac by (done || lia).
    by rewrite Hsign, N2Nat.id. }
  set (n := (Z.of_nat (length (decimal a)) - Z.of_N k)%Z).
  assert (Z.of_nat (length ds) = n + Z.of_N k - 1)%Z as Hlen.
  { unfold n. rewrite E. simpl length. lia. }
  destruct ((0 <? n)%Z && (n <=? 21)%Z) eqn:HA.
  { apply andb_true_iff in HA as [H1%Z.ltb_lt _].
    destruct (Z.to_nat n) as [|n'] eqn:En; [lia|].
    exists neg, d, (take n' ds), (drop n' ds), None.
    assert (drop n' ds ≠ []) as Hne.
    { intros E0. apply (f_equal length) in E0.
      rewrite length_drop in E0. simpl in E0. lia. }
    rewrite E. cbn [firstn skipn]. split_and!; try done.
    - rewrite fraction_text_cons by done. cbn [exponent_text].
      by rewrite app_nil_r.
    - by apply Forall_take.
    - by apply Forall_drop.
    - change ((d :: take n' ds) ++ drop n' ds)
        with (d :: (take n' ds ++ drop n' ds)).
      rewrite take_drop, <- E, digits_value_decimal.
      apply Hmake. cbn [default]. rewrite length_drop. lia. }
  destruct ((-6 <? n)%Z && (n <=? 0)%Z) eqn:HB.
  { apply andb_true_iff in HB as [_ H2%Z.leb_le].
    exists neg, 48, [], (repeat 48 (Z.to_nat (- n)) ++ decimal a), None.
    split_and!; try done.
    - rewrite fraction_text_cons; [|rewrite E; by destruct (repeat _ _)].
      cbn [exponent_text]. by rewrite app_nil_r.
    - apply Forall_app. split; [|apply decimal_digits].
      apply Forall_forall. intros c Hc%list_elem_of_In%repeat_spec.
      by rewrite Hc.
    - change ([48] ++ repeat 48 (Z.to_nat (- n)) ++ decimal a)
        with (repeat 48 (S (Z.to_nat (- n))) ++ decimal a).
      rewrite digits_value_leading_zeros, digits_value_decimal.
      apply Hmake. cbn [default]. rewrite length_app, repeat_length.
      unfold n. lia. }
  exists neg, d, [], ds, (Some (n - 1)%Z). rewrite E.
  split_and!; try done.
  - by rewrite exponential_parts.
  - cbn [app]. rewrite <- E, digits_value_decimal.
    apply Hmake. cbn [default]. unfold id. lia.
Qed.

(** Every finite number is printed as a JSON number that denotes it. *)
Lemma number_to_string_parts x :
  finite x → ∃ neg d ds fp e, number_parts x neg d ds fp e.
Proof.
  destruct x as [| |z|m k]; try done; intros Hx.
  - apply int_parts.
  - destruct Hx. by apply frac_parts.
Qed.

(** A finite number is read back from its text. *)
Lemma parse_number_to_string (x : number) (rest : jsstring) :
  finite x → num_end rest →
  parse_number (number_to_string x ++ rest) = Some (x, rest).
Proof.
  intros Hx Hend.
  destruct (number_to_string_parts x Hx)
    as (neg & d & ds & fp & e & -> & Hd & Hds & H0 & Hfp & <-).
  rewrite <- !app_assoc. by apply parse_number_parts.
Qed.

Lemma number_to_string_head (x : number) (tail : jsstring) :
  finite x →
  ∃ c r, number_to_string x ++ tail = c :: r ∧
         (c = 45 ∨ is_digit c = true).
Proof.
  intros Hx.
  destruct (number_to_string_parts x Hx)
    as (neg & d & ds & fp & e & -> & Hd & _).
  destruct neg; cbn [app]; eexists _, _; (split; [reflexivity|]); auto.
Qed.

(** *** Strings *)

Lemma unhex_hex_digit d : d < 16 → unhex (hex_digit false d) = Some d.
Proof.
  intros Hd. unfold hex_digit, unhex.
  destruct (N.ltb_spec d 10).
  - assert ((48 <=? 48 + d) && (48 + d <=? 57) = true) as ->.
    { apply andb_true_iff. rewrite !N.leb_le. lia. }
    f_equal. lia.
  - assert ((48 <=? 87 + d) && (87 + d <=? 57) = false) as ->.
    { apply andb_false_iff. right. apply N.leb_gt. lia. }
    assert ((97 <=? 87 + d) && (87 + d <=? 102) = true) as ->.
    { apply andb_true_iff. rewrite !N.leb_le. lia. }
    f_equal. lia.
Qed.

Lemma parse_chars_unicode_escape c tail :
  c < 65536 →
  parse_chars (unicode_escape c ++ tail) = continue c (parse_chars tail).
Proof.
  intros Hc. unfold unicode_escape, hex4. cbn [app parse_chars].
  cbn [N.eqb Pos.eqb]. unfold unhex4.
  rewrite !unhex_hex_digit by lia.
  replace (((c / 4096 mod 16 * 16 + c / 256 mod 16) * 16 + c / 16 mod 16)
           * 16 + c mod 16) with c by lia.
  reflexivity.
Qed.

Lemma parse_chars_literal c tail :
  32 <= c → c ≠ 34 → c ≠ 92 →
  parse_chars (c :: tail) = continue c (parse_chars tail).
Proof.
  intros H1 H2 H3. cbn [parse_chars].
  destruct (N.eqb_spec c 34); [done|].
  destruct (N.eqb_spec c 92); [done|].
  destruct (N.ltb_spec c 32); [lia|done].
Qed.

Lemma parse_chars_escape_unit c tail :
  parse_chars (escape_unit c ++ tail) = continue c (parse_chars tail).
Proof.
  unfold escape_unit.
  destruct (N.eqb_spec c 8) as [->|]; [done|].
  destruct (N.eqb_spec c 9) as [->|]; [done|].
  destruct (N.eqb_spec c 10) as [->|]; [done|].
  destruct (N.eqb_spec c 12) as [->|]; [done|].
  destruct (N.eqb_spec c 13) as [->|]; [done|].
  destruct (N.eqb_spec c 34) as [->|]; [done|].
  destruct (N.eqb_spec c 92) as [->|]; [done|].
  destruct (N.ltb_spec c 32).
  - apply parse_chars_unicode_escape. lia.
  - by apply parse_chars_literal.
Qed.

Lemma surrogate_bounds c :
  (is_high_surrogate c = true → 55296 <= c <= 56319) ∧
  (is_low_surrogate c = true → 56320 <= c <= 57343).
Proof.
  unfold is_high_surrogate, is_low_surrogate.
  rewrite !andb_true_iff, !N.leb_le. done.
Qed.

(** A quoted string reads back as the string it quotes. *)
Lemma parse_chars_quote_chars s :
  ∀ after_high rest,
    parse_chars (quote_chars after_high s ++ 34 :: rest) = Some (s, rest).
Proof.
  induction s as [|c r IH]; intros ah rest; [done|].
  cbn [quote_chars]. rewrite <- app_assoc.
  destruct (surrogate_bounds c) as [Hh Hl].
  assert (∀ x, parse_chars
                 (x ++ quote_chars (is_high_surrogate c) r ++ 34 :: rest)
               = continue c
                   (parse_chars
                      (quote_chars (is_high_surrogate c) r ++ 34 :: rest)) →
            parse_chars
              (x ++ quote_chars (is_high_surrogate c) r ++ 34 :: rest)
            = Some (c :: r, rest)) as Hgo.
  { intros x ->. by rewrite IH. }
  destruct (is_high_surrogate c) eqn:H.
  - specialize (Hh eq_refl). destruct (next_is_low r).
    + apply Hgo. apply parse_chars_literal; lia.
    + apply Hgo. apply parse_chars_unicode_escape. lia.
  - destruct (is_low_surrogate c) eqn:L.
    + specialize (Hl eq_refl). destruct ah.
      * apply Hgo. apply parse_chars_literal; lia.
      * apply Hgo. apply parse_chars_unicode_escape. lia.
    + apply Hgo. apply parse_chars_escape_unit.
Qed.

Lemma parse_chars_quote s rest :
  ∃ tail, quote s ++ rest = 34 :: tail ∧ parse_chars tail = Some (s, rest).
Proof.
  exists (quote_chars false s ++ 34 :: rest). split.
  - unfold quote. cbn [app]. by rewrite <- app_assoc.
  - apply parse_chars_quote_chars.
Qed.

(** *** Values *)

Lemma size_VArr vs : size (VArr vs) = S (size_elements vs).
Proof. reflexivity. Qed.

Lemma size_VObj ps : size (VObj ps) = S (size_members ps).
Proof.
  cbn [size]. f_equal. induction ps as [|[k x] r IH]; simpl; congruence.
Qed.

Lemma representable_VArr vs :
  representable (VArr vs) ↔ Forall representable vs.
Proof.
  simpl. induction vs as [|x r IH]; [by split|].
  rewrite Forall_cons, <- IH. done.
Qed.

Lemma representable_VObj ps :
  representable (VObj ps) ↔
  NoDup (map fst ps) ∧ Forall (λ kx, representable (snd kx)) ps.
Proof.
  simpl. apply and_iff_compat_l.
  induction ps as [|[k x] r IH]; [by split|].
  rewrite Forall_cons, <- IH. done.
Qed.

Lemma StorageValue_nested_ind (P : StorageValue → Prop) :
  P VNull → (∀ b, P (VBool b)) → (∀ n, P (VNum n)) → (∀ s, P (VStr s)) →
  (∀ vs, Forall P vs → P (VArr vs)) →
  (∀ ps, Forall (λ kx, P (snd kx)) ps → P (VObj ps)) →
  ∀ v, P v.
Proof.
  intros Hnull Hbool Hnum Hstr Harr Hobj. fix IH 1. intros [| | | |vs|ps].
  - exact Hnull.
  - apply Hbool.
  - apply Hnum.
  - apply Hstr.
  - apply Harr. induction vs as [|x r IHr]; constructor; [apply IH|exact IHr].
  - apply Hobj.
    induction ps as [|[k x] r IHr]; constructor; [apply IH|exact IHr].
Qed.

Lemma skip_ws_id c r : is_ws c = false → skip_ws (c :: r) = c :: r.
Proof. intros H. cbn [skip_ws]. by rewrite H. Qed.

Lemma is_ws_false c :
  c ≠ 32 → c ≠ 9 → c ≠ 10 → c ≠ 13 → is_ws c = false.
Proof.
  intros. unfold is_ws. rewrite !orb_false_iff, !N.eqb_neq. done.
Qed.

Lemma parse_value_S f s :
  parse_value (S f) s =
  match skip_ws s with
  | [] => None
  | c :: r =>
      if c =? 110 then
        match starts_with (str "ull") r with
        | Some r' => Some (VNull, r') | None => None end
      else if c =? 116 then
        match starts_with (str "rue") r with
        | Some r' => Some (VBool true, r') | None => None end
      else if c =? 102 then
        match starts_with (str "alse") r with
        | Some r' => Some (VBool false, r') | None => None end
      else if c =? 34 then
        match parse_chars r with
        | Some (t, r') => Some (VStr t, r') | None => None end
      else if c =? 91 then
        match skip_ws r with
        | [] => None
        | c1 :: r1 =>
            if c1 =? 93 then Some (VArr [], r1)
            else match parse_elements f (c1 :: r1) with
                 | Some (vs, r') => Some (VArr vs, r')
                 | None => None
                 end
        end
      else if c =? 123 then
        match skip_ws r with
        | [] => None
        | c1 :: r1 =>
            if c1 =? 125 then Some (VObj [], r1)
            else match parse_members f (c1 :: r1) with
                 | Some (ps, r') => Some (build_object ps, r')
                 | None => None
                 end
        end
      else
        match parse_number (c :: r) with
        | Some (x, r') => Some (VNum x, r') | None => None end
  end.
Proof. reflexivity. Qed.

Lemma parse_elements_S f s :
  parse_elements (S f) s =
  match parse_value f s with
  | None => None
  | Some (v, r) =>
      match skip_ws r with
      | [] => None
      | c :: r1 =>
          if c =? 44 then
            match parse_elements f r1 with
            | Some (vs, r') => Some (v :: vs, r')
            | None => None
            end
          else if c =? 93 then Some ([v], r1)
          else None
      end
  end.
Proof. reflexivity. Qed.

Lemma parse_members_S f s :
  parse_members (S f) s =
  match skip_ws s with
  | [] => None
  | q :: r0 =>
      if q =? 34 then
        match parse_chars r0 with
        | None => None
        | Some (k, r1) =>
            match skip_ws r1 with
            | [] => None
            | c :: r2 =>
                if c =? 58 then
                  match parse_value f r2 with
                  | None => None
                  | Some (v, r3) =>
                      match skip_ws r3 with
                      | [] => None
                      | d :: r4 =>
                          if d =? 44 then
                            match parse_members f r4 with
                            | Some (ps, r') => Some ((k, v) :: ps, r')
                            | None => None
                            end
                          else if d =? 125 then Some ([(k, v)], r4)
                          else None
                      end
                  end
                else None
            end
        end
      else None
  end.
Proof. reflexivity. Qed.

Lemma parse_value_number f c r :
  c = 45 ∨ is_digit c = true →
  parse_value (S f) (c :: r) =
  match parse_number (c :: r) with
  | Some (x, r') => Some (VNum x, r')
  | None => None
  end.
Proof.
  intros Hc.
  assert (c = 45 ∨ 48 <= c <= 57) as Hr.
  { destruct Hc as [->|H]; [by left|right; by apply is_digit_spec]. }
  rewrite parse_value_S, skip_ws_id by (apply is_ws_false; lia).
  destruct (N.eqb_spec c 110); [lia|].
  destruct (N.eqb_spec c 116); [lia|].
  destruct (N.eqb_spec c 102); [lia|].
  destruct (N.eqb_spec c 34); [lia|].
  destruct (N.eqb_spec c 91); [lia|].
  destruct (N.eqb_spec c 123); [lia|]. done.
Qed.

(** The text of a value starts with a character that is neither white
    space nor a closing bracket. *)
Lemma stringify_head v tail :
  representable v →
  ∃ c r, stringify v ++ tail = c :: r ∧ is_ws c = false ∧ c ≠ 93 ∧ c ≠ 125 ∧
         (match v with VNum _ => c = 45 ∨ is_digit c = true | _ => True end).
Proof.
  destruct v as [|[]|x| | |]; simpl representable; intros Hv;
    try (eexists _, _; split; [reflexivity|]; by split_and!).
  destruct (number_to_string_head x tail Hv) as (c & r & E & Hc).
  exists c, r.
  assert (stringify (VNum x) = number_to_string x) as ->
    by by destruct x.
  split; [done|].
  assert (c = 45 ∨ 48 <= c <= 57) as Hr.
  { destruct Hc as [->|H]; [by left|right; by apply is_digit_spec]. }
  split; [apply is_ws_false; lia|]. split_and!; auto; lia.
Qed.

Lemma build_object_NoDup ps : NoDup (map fst ps) → build_object ps = VObj ps.
Proof.
  unfold build_object. intros Hnd. f_equal.
  assert (∀ acc, NoDup (map fst (acc ++ ps)) →
            fold_left (λ acc kv, obj_set (fst kv) (snd kv) acc) ps acc
            = acc ++ ps) as H.
  { clear Hnd. induction ps as [|[k x] r IH]; intros acc Hnd; simpl.
    - by rewrite app_nil_r.
    - assert (obj_set k x acc = acc ++ [(k, x)]) as ->.
      { rewrite map_app in Hnd. apply NoDup_app in Hnd as (_ & Hdis & _).
        assert (k ∉ map fst acc) as Hk.
        { intros Hin. apply (Hdis k Hin). simpl. apply list_elem_of_here. }
        clear -Hk. induction acc as [|[k' x'] acc IH]; simpl; [done|].
        simpl in Hk. apply not_elem_of_cons in Hk as [Hne Hk].
        rewrite decide_False by done. by rewrite IH. }
      rewrite IH; rewrite <- app_assoc; done. }
  by apply (H []).
Qed.

Lemma num_end_delimiter c r : c = 44 ∨ c = 93 ∨ c = 125 → num_end (c :: r).
Proof.
  intros Hc. unfold num_end.
  assert (is_digit c = false).
  { destruct (is_digit c) eqn:E; [|done]. apply is_digit_spec in E. lia. }
  split_and!; [done|lia..].
Qed.

Lemma parse_print_elements vs :
  Forall reads_back_value vs → Forall representable vs → vs ≠ [] →
  ∀ fuel rest, (size_elements vs ≤ fuel)%nat →
               parse_elements fuel (print_elements vs ++ rest)
               = Some (vs, rest).
Proof.
  induction vs as [|x r IH]; [done|].
  intros HP Hrep _ fuel rest Hfuel.
  apply Forall_cons in HP as [Hx HP]. apply Forall_cons in Hrep as [Rx Hrep].
  cbn [size_elements fold_right] in Hfuel.
  fold (size_elements r) in Hfuel.
  destruct fuel as [|f]; [lia|].
  rewrite parse_elements_S. cbn [print_elements]. fold print_elements.
  rewrite <- app_assoc.
  destruct r as [|y r'].
  - rewrite Hx; [|lia|by apply num_end_delimiter; auto]. cbn [app].
    rewrite skip_ws_id by done. done.
  - rewrite Hx; [|lia|by apply num_end_delimiter; auto]. cbn [app].
    rewrite skip_ws_id by done. cbn [N.eqb Pos.eqb].
    rewrite IH; [done..|lia].
Qed.

Lemma parse_print_members ps :
  Forall (λ kx, reads_back_value (snd kx)) ps →
  Forall (λ kx, representable (snd kx)) ps → ps ≠ [] →
  ∀ fuel rest, (size_members ps ≤ fuel)%nat →
               parse_members fuel (print_members ps ++ rest)
               = Some (ps, rest).
Proof.
  induction ps as [|[k x] r IH]; [done|].
  intros HP Hrep _ fuel rest Hfuel.
  apply Forall_cons in HP as [Hx HP]. apply Forall_cons in Hrep as [Rx Hrep].
  simpl in Hx, Rx.
  cbn [size_members fold_right snd] in Hfuel.
  fold (size_members r) in Hfuel.
  destruct fuel as [|f]; [lia|].
  rewrite parse_members_S. cbn [print_members]. fold print_members.
  rewrite <- app_assoc.
  destruct (parse_chars_quote k
              ((58 :: stringify x ++
                match r with [] => [125] | _ :: _ => 44 :: print_members r end)
               ++ rest)) as (tail & -> & Htail).
  rewrite skip_ws_id by done. cbn [N.eqb Pos.eqb]. rewrite Htail.
  cbn [app]. rewrite skip_ws_id by done. cbn [N.eqb Pos.eqb].
  rewrite <- app_assoc.
  destruct r as [|y r'].
  - rewrite Hx; [|lia|by apply num_end_delimiter; auto]. cbn [app].
    rewrite skip_ws_id by done. done.
  - rewrite Hx; [|lia|by apply num_end_delimiter; auto]. cbn [app].
    rewrite skip_ws_id by done. cbn [N.eqb Pos.eqb].
    rewrite IH; [done..|lia].
Qed.

(** Every representable value is read back from its text. *)
Lemma parse_value_stringify v : representable v → reads_back_value v.
Proof.
  induction v as [|b|n|s|vs IH|ps IH] using StorageValue_nested_ind;
    intros Hrep fuel rest Hfuel Hend;
    (destruct fuel as [|f]; [simpl in Hfuel; lia|]).
  - reflexivity.
  - by destruct b.
  - destruct (stringify_head (VNum n) rest Hrep) as (c & r & E & _ & _ & _ & Hc).
    rewrite E, parse_value_number, <- E by done.
    assert (stringify (VNum n) = number_to_string n) as ->
      by by destruct n.
    by rewrite parse_number_to_string.
  - rewrite parse_value_S. cbn [stringify].
    destruct (parse_chars_quote s rest) as (tail & -> & Htail).
    rewrite skip_ws_id by done. cbn [N.eqb Pos.eqb]. by rewrite Htail.
  - rewrite size_VArr in Hfuel. apply representable_VArr in Hrep.
    assert (Forall reads_back_value vs) as HP.
    { apply Forall_forall. intros x Hx.
      rewrite Forall_forall in IH, Hrep. by apply IH, Hrep. }
    rewrite parse_value_S.
    change (stringify (VArr vs)) with (91 :: print_elements vs).
    cbn [app]. rewrite skip_ws_id by done. cbn [N.eqb Pos.eqb].
    destruct vs as [|x r]; [done|].
    assert (Rx : representable x) by by inversion Hrep.
    cbn [print_elements]. fold print_elements.
    destruct (stringify_head x
                (match r with [] => [93] | _ :: _ => 44 :: print_elements r end
                 ++ rest) Rx) as (c & t & E & Hws & H93 & _).
    rewrite <- app_assoc, E, skip_ws_id by done.
    destruct (N.eqb_spec c 93); [done|]. rewrite <- E, app_assoc.
    change (stringify x ++ match r with
                           | [] => [93]
                           | _ :: _ => 44 :: print_elements r
                           end) with (print_elements (x :: r)).
    rewrite parse_print_elements; [done..|lia].
  - rewrite size_VObj in Hfuel. apply representable_VObj in Hrep as [Hnd Hrep].
    assert (Forall (λ kx, reads_back_value (snd kx)) ps) as HP.
    { apply Forall_forall. intros x Hx.
      rewrite Forall_forall in IH, Hrep. by apply IH, Hrep. }
    rewrite parse_value_S.
    change (stringify (VObj ps)) with (123 :: print_members ps).
    cbn [app]. rewrite skip_ws_id by done. cbn [N.eqb Pos.eqb].
    destruct ps as [|[k x] r]; [done|].
    assert (∃ t, print_members ((k, x) :: r) ++ rest = 34 :: t) as [t E].
    { cbn [print_members]. unfold quote. cbn [app]. eauto. }
    rewrite E, skip_ws_id by done. cbn [N.eqb Pos.eqb]. rewrite <- E.
    rewrite parse_print_members; [|done..|lia].
    by rewrite build_object_NoDup.
Qed.

Lemma size_le_length v :
  representable v → (size v ≤ length (stringify v))%nat.
Proof.
  induction v as [|b|n|s|vs IH|ps IH] using StorageValue_nested_ind;
    intros Hrep.
  - simpl. lia.
  - destruct b; simpl; lia.
  - destruct (stringify_head (VNum n) [] Hrep) as (c & r & E & _).
    rewrite app_nil_r in E. rewrite E. simpl. lia.
  - simpl. lia.
  - rewrite size_VArr. apply representable_VArr in Hrep.
    change (stringify (VArr vs)) with (91 :: print_elements vs).
    cbn [length]. apply le_n_S.
    induction vs as [|x r IHr]; [simpl; lia|].
    apply Forall_cons in IH as [Hx IH]. apply Forall_cons in Hrep as [Rx Hrep].
    specialize (Hx Rx). specialize (IHr IH Hrep).
    cbn [size_elements fold_right print_elements].
    fold (size_elements r). fold print_elements.
    rewrite length_app. destruct r; [simpl; lia|]. cbn [length]. lia.
  - rewrite size_VObj. apply representable_VObj in Hrep as [_ Hrep].
    change (stringify (VObj ps)) with (123 :: print_members ps).
    cbn [length]. apply le_n_S.
    induction ps as [|[k x] r IHr]; [simpl; lia|].
    apply Forall_cons in IH as [Hx IH]. apply Forall_cons in Hrep as [Rx Hrep].
    specialize (Hx Rx). specialize (IHr IH Hrep). simpl in Hx.
    cbn [size_members fold_right print_members snd].
    fold (size_members r). fold print_members.
    rewrite length_app. cbn [length]. rewrite length_app.
    destruct r; [simpl; lia|]. cbn [length]. lia.
Qed.

(** [JSON.parse(JSON.stringify(v))] is [v] for every representable [v]. *)
Lemma parse_stringify v : representable v → parse (stringify v) = Some v.
Proof.
  intros Hrep. unfold parse.
  pose proof (parse_value_stringify v Hrep
                (S (length (stringify v))) []) as H.
  rewrite app_nil_r in H. rewrite H; [done| |done].
  pose proof (size_le_length v Hrep). lia.
Qed.

(** *** Reading a string literal takes more text than it yields *)

Lemma parse_chars_shorter n :
  ∀ s t r, (length s ≤ n)%nat → parse_chars s = Some (t, r) →
           (length t < length s)%nat.
Proof.
  induction n as [|n IH]; intros s t r Hn.
  - destruct s; [done|simpl in Hn; lia].
  - destruct s as [|c s]; [done|]. cbn [parse_chars].
    destruct (c =? 34); [intros [= <- _]; simpl; lia|].
    destruct (c =? 92).
    + destruct s as [|e s1]; [done|]. destruct (e =? 117).
      * destruct s1 as [|h1 [|h2 [|h3 [|h4 s2]]]]; try done.
        destruct (unhex4 h1 h2 h3 h4); [|done].
        destruct (parse_chars s2) as [[t' r']|] eqn:E; [|done].
        intros [= <- _]. apply IH in E; simpl in *; lia.
      * destruct (unescape e); [|done].
        destruct (parse_chars s1) as [[t' r']|] eqn:E; [|done].
        intros [= <- _]. apply IH in E; simpl in *; lia.
    + destruct (c <? 32); [done|].
      destruct (parse_chars s) as [[t' r']|] eqn:E; [|done].
      intros [= <- _]. apply IH in E; simpl in *; lia.
Qed.

Lemma skip_ws_length s : (length (skip_ws s) ≤ length s)%nat.
Proof.
  induction s as [|c r IH]; [done|]. cbn [skip_ws].
  destruct (is_ws c); simpl in *; lia.
Qed.

(** No text is the JSON text of itself. *)
Lemma parse_not_self s : parse s ≠ Some (VStr s).
Proof.
  unfold parse. rewrite parse_value_S.
  pose proof (skip_ws_length s) as Hlen.
  destruct (skip_ws s) as [|c r]; [done|].
  destruct (c =? 110); [repeat case_match; by simplify_eq|].
  destruct (c =? 116); [repeat case_match; by simplify_eq|].
  destruct (c =? 102); [repeat case_match; by simplify_eq|].
  destruct (c =? 34).
  { destruct (parse_chars r) as [[t r']|] eqn:E; [|done].
    apply (parse_chars_shorter (length r)) in E; [|done].
    destruct (skip_ws r'); [|done]. intros [= ->]. simpl in *; lia. }
  destruct (c =? 91); [repeat case_match; by simplify_eq|].
  destruct (c =? 123);
    [unfold build_object; repeat case_match; by simplify_eq|].
  repeat case_match; by simplify_eq.
Qed.

End JsonFacts.

(** ** The codec: [stringValue] then [parsed] *)

Module CodecFacts.
Import Json UseStorage Props JsonFacts.

(** [C2], as stated, fails: the text "42" is stored verbatim and decoded
    as the number 42. *)
Lemma text_42_decodes_as_number :
  stringValue (VStr (str "42")) = str "42" ∧
  parsed (stringValue (VStr (str "42"))) = VNum (Int 42) ∧
  parsed (stringValue (VStr (str "42"))) ≠ VStr (str "42").
Proof. split; [reflexivity|]. split; [reflexivity|]. discriminate. Qed.

(** [C2], amended.  A text value is stored verbatim, and decoding the
    stored text yields the same text exactly when the text is not itself
    valid JSON ([JSON.parse] throws on it). *)
Theorem text_round_trip (s : jsstring) :
  stringValue (VStr s) = s ∧
  (parsed (stringValue (VStr s)) = VStr s ↔ parse s = None).
Proof.
  split; [reflexivity|]. unfold parsed. cbn [stringValue]. split.
  - destruct (parse s) as [v|] eqn:E; [|done].
    intros ->. by apply parse_not_self in E.
  - by intros ->.
Qed.

(** Texts that come back unchanged, and texts that do not. *)
Example text_round_trip_cases :
  parsed (stringValue (VStr (str "hello"))) = VStr (str "hello") ∧
  parsed (stringValue (VStr (str "invalid-json{"))) = VStr (str "invalid-json{") ∧
  parsed (stringValue (VStr (str ""))) = VStr (str "") ∧
  parsed (stringValue (VStr (str "true"))) = VBool true ∧
  parsed (stringValue (VStr (str "null"))) = VNull ∧
  parsed (stringValue (VStr (str " [1, 2] "))) = VArr [VNum (Int 1); VNum (Int 2)].
Proof. repeat split. Qed.

(** [C3], as stated, fails: the number NaN is encoded as "null" and
    decoded as [null]. *)
Lemma nan_decodes_as_null :
  structured (VNum NaN) ∧
  stringValue (VNum NaN) = str "null" ∧
  parsed (stringValue (VNum NaN)) = VNull ∧
  parsed (stringValue (VNum NaN)) ≠ VNum NaN.
Proof. repeat split. discriminate. Qed.

(** [C3], amended.  A number, boolean, list or map that JSON represents —
    every number in it, nested anywhere, is finite (not NaN, not an
    infinity), and no map has a repeated name — decodes from its encoding to
    itself. *)
Theorem structured_round_trip (v : StorageValue) :
  structured v → representable v → parsed (stringValue v) = v.
Proof.
  intros Hs Hrep. unfold parsed.
  assert (stringValue v = stringify v) as -> by by destruct v.
  by rewrite parse_stringify.
Qed.

(** [C3], amended, at work on the nested value
    [[1, true, {"a": [null, "x\n", -2.5], "b": 1e+21}, [], 0.0000001]]. *)
Lemma structured_round_trip_witness :
  let v := VArr [VNum (Int 1); VBool true;
                 VObj [(str "a", VArr [VNull; VStr (str "x" ++ [10%N]);
                                       VNum (Frac (-25) 1)]);
                       (str "b", VNum (Int (10 ^ 21)))];
                 VArr []; VNum (Frac 1 7)] in
  parsed (stringValue v) = v.
Proof.
  intros v. apply (structured_round_trip v).
  - exact I.
  - simpl. split_and!; try done; try lia.
    apply NoDup_cons. split.
    + intros H. apply list_elem_of_singleton in H. discriminate.
    + apply NoDup_singleton.
Defined.

End CodecFacts.

(** ** Percent-encoding: decoding what [encodeURIComponent] produced *)

Module UriFacts.
Import Uri Props.
Local Open Scope N_scope.
Local Ltac Zify.zify_post_hook ::= Z.to_euclidean_division_equations.

Lemma unhex_hex_upper d : d < 16 → unhex (hex_digit true d) = Some d.
Proof.
  intros Hd. unfold hex_digit, unhex.
  destruct (N.ltb_spec d 10).
  - assert (((48 <=? 48 + d) && (48 + d <=? 57)) = true) as ->.
    { apply andb_true_iff. rewrite !N.leb_le. lia. }
    f_equal. lia.
  - assert (((48 <=? 55 + d) && (55 + d <=? 57)) = false) as ->.
    { apply andb_false_iff. right. apply N.leb_gt. lia. }
    assert (((97 <=? 55 + d) && (55 + d <=? 102)) = false) as ->.
    { apply andb_false_iff. left. apply N.leb_gt. lia. }
    assert (((65 <=? 55 + d) && (55 + d <=? 70)) = true) as ->.
    { apply andb_true_iff. rewrite !N.leb_le. lia. }
    f_equal. lia.
Qed.

Lemma hex_digit_uri_char d : d < 16 → uri_char (hex_digit true d).
Proof.
  intros Hd. unfold uri_char, hex_digit.
  destruct (N.ltb_spec d 10); right; right; [left|right]; lia.
Qed.

Lemma uri_char_plain c : uri_char c → c ≠ 59 ∧ c ≠ 61 ∧ c ≠ 32 ∧ c ≠ 9.
Proof.
  intros [H|[->|[H|H]]]; try lia. split_and!; by intros ->.
Qed.

Lemma octets_lit c t :
  c ≠ 37 →
  octets (c :: t) = match octets t with
                    | Some ts => Some (Lit c :: ts)
                    | None => None
                    end.
Proof. intros Hc. cbn [octets]. by destruct (N.eqb_spec c 37). Qed.

Lemma octets_percent b t :
  b < 256 →
  octets (percent b ++ t) = match octets t with
                            | Some ts => Some (Octet b :: ts)
                            | None => None
                            end.
Proof.
  intros Hb. unfold percent. cbn [app octets N.eqb Pos.eqb].
  rewrite !unhex_hex_upper by lia.
  replace (b / 16 * 16 + b mod 16) with b by lia. done.
Qed.

Lemma percent_uri_char b : b < 256 → Forall uri_char (percent b).
Proof.
  intros Hb. unfold percent.
  apply Forall_cons. split; [right; by left|].
  apply Forall_cons. split; [apply hex_digit_uri_char; lia|].
  apply Forall_cons. split; [apply hex_digit_uri_char; lia|].
  constructor.
Qed.

Lemma utf8_bytes cp : cp < 1114112 → Forall (λ b, b < 256) (utf8 cp).
Proof.
  intros Hcp. unfold utf8.
  destruct (N.ltb_spec cp 128); [repeat (apply Forall_cons; split; [lia|]); constructor|].
  destruct (N.ltb_spec cp 2048); [repeat (apply Forall_cons; split; [lia|]); constructor|].
  destruct (N.ltb_spec cp 65536); repeat (apply Forall_cons; split; [lia|]); constructor.
Qed.

Lemma octets_percent_all bs t :
  Forall (λ b, b < 256) bs →
  octets (percent_all bs ++ t) = match octets t with
                                 | Some ts => Some (map Octet bs ++ ts)
                                 | None => None
                                 end.
Proof.
  unfold percent_all. induction 1 as [|b bs Hb _ IH]; cbn [concat map].
  - cbn [app]. by destruct (octets t).
  - rewrite <- app_assoc, octets_percent, IH by done.
    by destruct (octets t).
Qed.

Lemma percent_all_uri_char bs :
  Forall (λ b, b < 256) bs → Forall uri_char (percent_all bs).
Proof.
  unfold percent_all. induction 1 as [|b bs Hb _ IH]; cbn [concat map].
  - constructor.
  - apply Forall_app. split; [by apply percent_uri_char|done].
Qed.

(** The octets of a code point that is not a surrogate assemble to its
    UTF-16 form. *)
Lemma assemble_utf8 cp ts :
  cp < 1114112 → ¬ (55296 <= cp <= 57343) →
  assemble (map Octet (utf8 cp) ++ ts)
  = match assemble ts with
    | Some t => Some (utf16 cp ++ t)
    | None => None
    end.
Proof.
  intros Hcp Hsur. unfold utf8.
  assert (∀ x y, x <= y → (x <=? y) = true) as Hle
    by (intros; by apply N.leb_le).
  assert (∀ x y, y < x → (x <=? y) = false) as Hgt
    by (intros; by apply N.leb_gt).
  assert (∀ x y, x < y → (x <? y) = true) as Hlt
    by (intros; by apply N.ltb_lt).
  assert (∀ x y, y <= x → (x <? y) = false) as Hge
    by (intros; by apply N.ltb_ge).
  destruct (N.ltb_spec cp 128).
  { cbn [map app assemble]. rewrite Hlt by done. unfold utf16.
    rewrite Hlt by lia. done. }
  destruct (N.ltb_spec cp 2048).
  { cbn [map app assemble]. unfold is_cont.
    rewrite (Hge (192 + cp / 64)) by lia.
    rewrite (Hle 192), (Hle _ 223) by lia. cbn [andb].
    replace ((192 + cp / 64 - 192) * 64 + (128 + cp mod 64 - 128))
      with cp by lia.
    rewrite (Hle 128 (128 + _)), (Hle _ 191), (Hle 128 cp) by lia.
    cbn [andb]. done. }
  destruct (N.ltb_spec cp 65536).
  { cbn [map app assemble]. unfold is_cont.
    rewrite (Hge (224 + cp / 4096)) by lia.
    rewrite (Hgt _ 223) by lia. rewrite andb_false_r.
    rewrite (Hle 224), (Hle _ 239) by lia. cbn [andb].
    replace (((224 + cp / 4096 - 224) * 64 + (128 + cp / 64 mod 64 - 128))
             * 64 + (128 + cp mod 64 - 128)) with cp by lia.
    rewrite (Hle 128 (128 + cp / 64 mod 64)), (Hle (128 + cp / 64 mod 64) 191),
      (Hle 128 (128 + cp mod 64)), (Hle (128 + cp mod 64) 191),
      (Hle 2048 cp) by lia.
    cbn [andb].
    assert (((55296 <=? cp) && (cp <=? 57343)) = false) as ->.
    { apply andb_false_iff.
      destruct (N.leb_spec 55296 cp); [right|by left]. apply N.leb_gt. lia. }
    cbn [negb]. done. }
  cbn [map app assemble]. unfold is_cont.
  rewrite (Hge (240 + cp / 262144)) by lia.
  rewrite (Hgt _ 223) by lia. rewrite andb_false_r.
  rewrite (Hgt _ 239) by lia. rewrite andb_false_r.
  rewrite (Hle 240), (Hle _ 247) by lia. cbn [andb].
  replace ((((240 + cp / 262144 - 240) * 64
             + (128 + cp / 4096 mod 64 - 128)) * 64
            + (128 + cp / 64 mod 64 - 128)) * 64 + (128 + cp mod 64 - 128))
    with cp by lia.
  rewrite (Hle 128 (128 + cp / 4096 mod 64)),
    (Hle (128 + cp / 4096 mod 64) 191),
    (Hle 128 (128 + cp / 64 mod 64)), (Hle (128 + cp / 64 mod 64) 191),
    (Hle 128 (128 + cp mod 64)), (Hle (128 + cp mod 64) 191),
    (Hle 65536 cp), (Hle cp 1114111) by lia.
  cbn [andb]. done.
Qed.

Lemma encode_decode_aux n :
  ∀ s enc, (length s ≤ n)%nat → encodeURIComponent s = Some enc →
    (∃ ts, octets enc = Some ts ∧ assemble ts = Some s) ∧
    Forall uri_char enc.
Proof.
  induction n as [|n IH]; intros s enc Hn.
  { destruct s; [|simpl in Hn; lia]. intros [= <-]. split; [by exists []|].
    constructor. }
  destruct s as [|c r]; [intros [= <-]; split; [by exists []|constructor]|].
  cbn [encodeURIComponent]. simpl in Hn.
  destruct (unreserved c) eqn:U.
  { destruct (encodeURIComponent r) as [t|] eqn:E; [|done]. intros [= <-].
    destruct (IH r t) as [(ts & Ho & Ha) Hall]; [lia|done|].
    assert (c ≠ 37) as H37 by (intros ->; done).
    split; [|constructor; [by left|done]].
    exists (Lit c :: ts). rewrite octets_lit, Ho by done.
    split; [done|]. cbn [assemble]. by rewrite Ha. }
  destruct (is_high_surrogate c) eqn:Hi.
  { destruct r as [|c2 r2]; [done|].
    destruct (is_low_surrogate c2) eqn:Lo; [|done].
    destruct (encodeURIComponent r2) as [t|] eqn:E; [|done]. intros [= <-].
    destruct (IH r2 t) as [(ts & Ho & Ha) Hall]; [simpl in Hn; lia|done|].
    unfold is_high_surrogate in Hi. unfold is_low_surrogate in Lo.
    apply andb_true_iff in Hi as [H1 H2], Lo as [H3 H4].
    apply N.leb_le in H1, H2, H3, H4.
    set (cp := 65536 + (c - 55296) * 1024 + (c2 - 56320)).
    assert (65536 <= cp < 1114112) as Hcp by (unfold cp; lia).
    pose proof (utf8_bytes cp (proj2 Hcp)) as Hb.
    split; [|apply Forall_app; split; [by apply percent_all_uri_char|done]].
    exists (map Octet (utf8 cp) ++ ts).
    rewrite octets_percent_all, Ho by done. split; [done|].
    rewrite assemble_utf8, Ha by lia. f_equal. unfold utf16.
    destruct (N.ltb_spec cp 65536); [lia|]. cbn [app].
    f_equal; [unfold cp; lia|]. f_equal. unfold cp; lia. }
  destruct (is_low_surrogate c) eqn:Lo; [done|].
  destruct (N.leb_spec 65536 c) as [|Hc]; [done|].
  destruct (encodeURIComponent r) as [t|] eqn:E; [|done]. intros [= <-].
  destruct (IH r t) as [(ts & Ho & Ha) Hall]; [lia|done|].
  assert (¬ 55296 <= c <= 57343) as Hns.
  { unfold is_high_surrogate in Hi. unfold is_low_surrogate in Lo.
    apply andb_false_iff in Hi, Lo. rewrite !N.leb_gt in Hi, Lo. lia. }
  pose proof (utf8_bytes c ltac:(lia)) as Hb.
  split; [|apply Forall_app; split; [by apply percent_all_uri_char|done]].
  exists (map Octet (utf8 c) ++ ts).
  rewrite octets_percent_all, Ho by done. split; [done|].
  rewrite assemble_utf8, Ha by (done || lia). f_equal. unfold utf16.
  destruct (N.ltb_spec c 65536); [done|lia].
Qed.

(** [decodeURIComponent(encodeURIComponent(s))] is [s], and the encoded
    text is free of [;], [=], space and tab. *)
Lemma decode_encode s enc :
  encodeURIComponent s = Some enc →
  decodeURIComponent enc = Some s ∧
  Forall (λ c, c ≠ 59 ∧ c ≠ 61 ∧ c ≠ 32 ∧ c ≠ 9) enc.
Proof.
  intros E.
  destruct (encode_decode_aux (length s) s enc) as [(ts & Ho & Ha) Hall];
    [done..|].
  split.
  - unfold decodeURIComponent. by rewrite Ho.
  - eapply Forall_impl; [done|]. apply uri_char_plain.
Qed.

End UriFacts.

(** ** Cookies: reading back what [setCookie] wrote *)

Module CookieFacts.
Import Json Uri Browser UseStorage Props EffFacts UriFacts.
Local Open Scope N_scope.

(** *** Splitting and cutting *)

Lemma split_app_sep sep a b :
  Forall (λ x, x ≠ sep) a → split sep (a ++ sep :: b) = a :: split sep b.
Proof.
  induction 1 as [|c a Hc _ IH]; cbn [app split].
  - by rewrite N.eqb_refl.
  - destruct (N.eqb_spec c sep); [done|]. by rewrite IH.
Qed.

Lemma split_no_sep sep a : Forall (λ x, x ≠ sep) a → split sep a = [a].
Proof.
  induction 1 as [|c a Hc _ IH]; cbn [split]; [done|].
  destruct (N.eqb_spec c sep); [done|]. by rewrite IH.
Qed.

Lemma cut_app c a b :
  Forall (λ x, x ≠ c) a → cut c (a ++ c :: b) = Some (a, b).
Proof.
  induction 1 as [|x a Hx _ IH]; cbn [app cut].
  - by rewrite N.eqb_refl.
  - destruct (N.eqb_spec x c); [done|]. by rewrite IH.
Qed.

Lemma trim_left_id s : head s ≠ Some 32 → head s ≠ Some 9 → trim_left s = s.
Proof.
  destruct s as [|c r]; [done|]. cbn [head trim_left]. intros H1 H2.
  unfold is_wsp. destruct (N.eqb_spec c 32) as [->|]; [done|].
  destruct (N.eqb_spec c 9) as [->|]; done.
Qed.

Lemma trim_plain s : Forall plain s → trim s = s.
Proof.
  intros Hs. unfold trim.
  assert (∀ l, Forall plain l → trim_left l = l) as H.
  { intros l Hl. apply trim_left_id;
      destruct Hl as [|c r (_ & _ & H1 & H2) _]; simpl; congruence. }
  rewrite (H s Hs). rewrite H by by apply Forall_rev.
  apply rev_involutive.
Qed.

Lemma join_cons sep x y l :
  join sep (x :: y :: l) = x ++ sep ++ join sep (y :: l).
Proof. reflexivity. Qed.

(** The pieces [document.cookie.split(';')] yields: the serialised
    cookies, all but the first with a leading space. *)
Lemma split_cookie_string (l : list jsstring) :
  Forall (Forall (λ x, x ≠ 59)) l →
  split 59 (join (str "; ") l)
  = match l with
    | [] => [[]]
    | x :: rest => x :: map (cons 32) rest
    end.
Proof.
  induction 1 as [|x l Hx Hl IH]; [done|].
  destruct l as [|y l].
  - cbn [join map]. by apply split_no_sep.
  - rewrite join_cons. change (str "; " ++ join (str "; ") (y :: l))
      with (59 :: 32 :: join (str "; ") (y :: l)).
    rewrite split_app_sep by done. f_equal. cbn [split N.eqb Pos.eqb].
    rewrite IH. done.
Qed.

(** *** Finding the cookie *)

Lemma starts_with_app p r : starts_with p (p ++ r) = Some r.
Proof.
  induction p as [|a p IH]; [done|]. cbn [app starts_with].
  by rewrite N.eqb_refl.
Qed.

Lemma starts_with_no_eq key v :
  Forall (λ x, x ≠ 61) v → starts_with (key ++ [61]) v = None.
Proof.
  revert v. induction key as [|k key IH]; intros v Hv; cbn [app starts_with].
  - destruct Hv as [|a v Ha _]; [done|]. by destruct (N.eqb_spec 61 a).
  - destruct Hv as [|a v Ha Hv]; [done|].
    destruct (k =? a); [by apply IH|done].
Qed.

Lemma starts_with_other_name key n v :
  Forall (λ x, x ≠ 61) key → Forall (λ x, x ≠ 61) n → n ≠ key →
  starts_with (key ++ [61]) (n ++ 61 :: v) = None.
Proof.
  intros Hk. revert n. induction Hk as [|k key Hk _ IH]; intros n Hn Hne.
  - destruct Hn as [|a n Ha _]; [done|]. cbn [app starts_with].
    by destruct (N.eqb_spec 61 a).
  - destruct Hn as [|a n Ha Hn]; cbn [app starts_with].
    + by destruct (N.eqb_spec k 61).
    + destruct (N.eqb_spec k a) as [->|]; [|done].
      apply IH; [done|]. congruence.
Qed.

Lemma strip_spaces_id s : head s ≠ Some 32 → strip_spaces s = s.
Proof.
  destruct s as [|c r]; [done|]. cbn [head strip_spaces]. intros H.
  destruct (N.eqb_spec c 32) as [->|]; done.
Qed.

Lemma getCookie_loop_spaces nameEQ (l : list jsstring) (b : Browser.t) :
  getCookie_loop nameEQ (map (cons 32) l) b = getCookie_loop nameEQ l b.
Proof.
  induction l as [|x l IH]; [done|]. cbn [map getCookie_loop].
  change (strip_spaces (32 :: x)) with (strip_spaces x).
  by destruct (starts_with nameEQ (strip_spaces x)).
Qed.

(** What the loop of [getCookie] finds among the cookies of the store: the
    first one whose text begins with the name and [=]. *)
Lemma getCookie_loop_first key (jar : list cookie) (b : Browser.t) :
  Forall cookie_wf jar →
  getCookie_loop (key ++ str "=") (map serialize jar) b
  = match first_read key jar with
    | Some text =>
        match decodeURIComponent text with
        | Some d => (Ok (Some d), b)
        | None => (Throw URIError, b)
        end
    | None => (Ok None, b)
    end.
Proof.
  induction 1 as [|c jar (H1 & H2 & H3 & H4) _ IH]; [done|].
  cbn [map getCookie_loop first_read]. rewrite strip_spaces_id by done.
  unfold reads. destruct (starts_with _ (serialize c)); [|exact IH].
  by destruct (decodeURIComponent _).
Qed.

Lemma serialize_no_semicolon c :
  cookie_wf c → Forall (λ x, x ≠ 59) (serialize c).
Proof.
  intros (H1 & H2 & _). unfold serialize.
  destruct (cname c) as [|a n] eqn:En; [done|]. rewrite <- En in *.
  apply Forall_app. split; [done|]. by constructor.
Qed.

(** [getCookie] on the cookie store. *)
Lemma getCookie_first key (b : Browser.t) :
  hasDocument b = true → cookieDenied b = false →
  Forall cookie_wf (cookieJar b) →
  getCookie key b
  = match first_read key
            (filter (λ c, live (now b) c = true) (cookieJar b)) with
    | Some text =>
        match decodeURIComponent text with
        | Some d => (Ok (Some d), b)
        | None => (Throw URIError, b)
        end
    | None => (Ok None, b)
    end.
Proof.
  intros Hd Hc Hjar. unfold getCookie.
  rewrite run_bind, run_gets, Hd. cbn [negb].
  rewrite run_bind. unfold Dom.cookie. rewrite Hc. unfold cookie_string.
  set (J := filter (λ c, live (now b) c = true) (cookieJar b)).
  assert (Forall cookie_wf J) as HJ.
  { apply Forall_forall. intros c [_ Hin]%list_elem_of_filter.
    rewrite Forall_forall in Hjar. by apply Hjar. }
  rewrite split_cookie_string.
  - clearbody J. destruct J as [|c J'].
    + cbn [getCookie_loop first_read strip_spaces].
      by destruct key.
    + rewrite <- (getCookie_loop_first key (c :: J') b HJ).
      cbn [map getCookie_loop].
      destruct (starts_with _ _); [done|]. apply getCookie_loop_spaces.
  - apply Forall_fmap. eapply Forall_impl; [exact HJ|].
    intros c Hc'. by apply serialize_no_semicolon.
Qed.

(** A cookie with a name is read by that name only. *)
Lemma reads_named key c :
  Forall (λ x, x ≠ 61) key → cookie_wf c → cname c ≠ [] →
  reads key c = if decide (cname c = key) then Some (cvalue c) else None.
Proof.
  intros Hk (_ & _ & H3 & _) Hn. unfold reads, serialize.
  destruct (cname c) as [|a n] eqn:En; [done|]. rewrite <- En in *.
  change (str "=") with [61].
  destruct (decide (cname c = key)) as [<-|Hne].
  - replace (cname c ++ 61 :: cvalue c)
      with ((cname c ++ [61]) ++ cvalue c) by by rewrite <- app_assoc.
    apply starts_with_app.
  - by apply starts_with_other_name.
Qed.

Lemma first_read_find key (jar : list cookie) :
  key ≠ [] → Forall (λ x, x ≠ 61) key →
  Forall cookie_wf jar → no_alias key jar →
  first_read key jar
  = cvalue <$> find (λ c, bool_decide (cname c = key)) jar.
Proof.
  intros Hne Hk Hjar. induction Hjar as [|c jar Hc _ IH]; intros Hno; [done|].
  cbn [first_read find].
  assert (no_alias key jar) as Hno'.
  { intros x Hx. apply Hno. by apply list_elem_of_further. }
  destruct (decide (cname c = [])) as [E|E].
  - rewrite (Hno c (list_elem_of_here _ _) E).
    rewrite bool_decide_eq_false_2 by congruence. by apply IH.
  - rewrite reads_named by done.
    destruct (decide (cname c = key)).
    + by rewrite bool_decide_eq_true_2.
    + rewrite bool_decide_eq_false_2 by done. by apply IH.
Qed.

(** *** The cookie store *)

Lemma store_in c jar : c ∈ store c jar.
Proof.
  induction jar as [|x jar IH]; cbn [store]; [apply list_elem_of_here|].
  destruct (decide (cname x = cname c));
    [apply list_elem_of_here|by apply list_elem_of_further].
Qed.

Lemma store_names c jar x :
  x ∈ cname <$> store c jar → x = cname c ∨ x ∈ cname <$> jar.
Proof.
  induction jar as [|y jar IH]; cbn [store].
  - rewrite list_fmap_singleton. intros ->%list_elem_of_singleton. by left.
  - destruct (decide (cname y = cname c)) as [E|E]; rewrite !fmap_cons.
    + intros [->|H]%elem_of_cons; [by left|].
      right. by apply list_elem_of_further.
    + intros [->|H]%elem_of_cons; [right; apply list_elem_of_here|].
      destruct (IH H); [by left|right; by apply list_elem_of_further].
Qed.

Lemma store_elem c jar x : x ∈ store c jar → x = c ∨ x ∈ jar.
Proof.
  induction jar as [|y jar IH]; cbn [store].
  - intros ->%list_elem_of_singleton. by left.
  - destruct (decide (cname y = cname c)) as [E|E].
    + intros [->|H]%elem_of_cons; [by left|].
      right. by apply list_elem_of_further.
    + intros [->|H]%elem_of_cons; [right; apply list_elem_of_here|].
      destruct (IH H); [by left|right; by apply list_elem_of_further].
Qed.

Lemma store_NoDup c jar :
  NoDup (cname <$> jar) → NoDup (cname <$> store c jar).
Proof.
  induction jar as [|y jar IH]; cbn [store]; intros Hnd.
  - apply NoDup_singleton.
  - rewrite fmap_cons in Hnd. apply NoDup_cons in Hnd as [Hy Hnd].
    destruct (decide (cname y = cname c)) as [E|E]; rewrite fmap_cons.
    + apply NoDup_cons. split; [by rewrite <- E|done].
    + apply NoDup_cons. split; [|by apply IH].
      intros [H|H]%store_names; [done|done].
Qed.

Lemma store_unique c jar c' :
  NoDup (cname <$> jar) → c' ∈ store c jar → cname c' = cname c → c' = c.
Proof.
  induction jar as [|y jar IH]; cbn [store]; intros Hnd Hin Hname.
  - by apply list_elem_of_singleton in Hin.
  - rewrite fmap_cons in Hnd. apply NoDup_cons in Hnd as [Hy Hnd].
    destruct (decide (cname y = cname c)) as [E|E].
    + apply elem_of_cons in Hin as [->|Hin]; [done|].
      exfalso. apply Hy. rewrite E, <- Hname.
      by apply list_elem_of_fmap_2.
    + apply elem_of_cons in Hin as [->|Hin]; [done|]. by apply IH.
Qed.

Lemma NoDup_names_filter (P : cookie → Prop) `{∀ c, Decision (P c)} jar :
  NoDup (cname <$> jar) → NoDup (cname <$> filter P jar).
Proof.
  induction jar as [|y jar IH]; [done|]. rewrite fmap_cons. intros Hnd.
  apply NoDup_cons in Hnd as [Hy Hnd]. rewrite filter_cons.
  destruct (decide (P y)); [|by apply IH]. rewrite fmap_cons.
  apply NoDup_cons. split; [|by apply IH].
  intros (c & E & [_ Hin]%list_elem_of_filter)%list_elem_of_fmap.
  apply Hy. rewrite E. by apply list_elem_of_fmap_2.
Qed.

Lemma find_unique c (jar : list cookie) :
  NoDup (cname <$> jar) → c ∈ jar →
  find (λ x, bool_decide (cname x = cname c)) jar = Some c.
Proof.
  induction jar as [|y jar IH]; cbn [find]; intros Hnd Hin.
  - by apply not_elem_of_nil in Hin.
  - rewrite fmap_cons in Hnd. apply NoDup_cons in Hnd as [Hy Hnd].
    apply elem_of_cons in Hin as [->|Hin].
    + by rewrite bool_decide_eq_true_2.
    + rewrite bool_decide_eq_false_2; [by apply IH|].
      intros E. apply Hy. rewrite E. by apply list_elem_of_fmap_2.
Qed.

Lemma find_absent key (jar : list cookie) :
  key ∉ cname <$> jar →
  find (λ x, bool_decide (cname x = key)) jar = None.
Proof.
  induction jar as [|y jar IH]; cbn [find]; [done|]. rewrite fmap_cons.
  intros Hn. apply not_elem_of_cons in Hn as [Hy Hn].
  rewrite bool_decide_eq_false_2 by done. by apply IH.
Qed.

Lemma put_wf now c jar : cookie_wf c → jar_wf jar → jar_wf (put now c jar).
Proof.
  intros Hc [Hnd Hjar]. unfold put. split.
  - apply NoDup_names_filter. by apply store_NoDup.
  - apply Forall_forall. intros x [_ [->|Hin]%store_elem]%list_elem_of_filter;
      [done|]. rewrite Forall_forall in Hjar. by apply Hjar.
Qed.

(** *** What the store guarantees *)

Lemma trim_left_suffix s : ∃ p, s = p ++ trim_left s.
Proof.
  induction s as [|c s [p IH]]; [by exists []|]. cbn [trim_left].
  destruct (is_wsp c); [|by exists []].
  exists (c :: p). simpl. by rewrite <- IH.
Qed.

Lemma Forall_trim_left (P : N → Prop) s :
  Forall P s → Forall P (trim_left s).
Proof.
  intros H. destruct (trim_left_suffix s) as [p E]. rewrite E in H.
  by apply Forall_app in H as [_ H].
Qed.

Lemma Forall_trim (P : N → Prop) s : Forall P s → Forall P (trim s).
Proof.
  intros H. unfold trim. apply Forall_rev, Forall_trim_left, Forall_rev.
  by apply Forall_trim_left.
Qed.

Lemma head_trim_left s : head (trim_left s) ≠ Some 32.
Proof.
  induction s as [|c s IH]; [done|]. cbn [trim_left].
  unfold is_wsp. destruct (N.eqb_spec c 32) as [->|Hc]; [done|].
  destruct (c =? 9); [done|]. simpl. congruence.
Qed.

Lemma head_trim s : head (trim s) ≠ Some 32.
Proof.
  unfold trim. set (t := trim_left s).
  destruct (trim_left_suffix (rev t)) as [p E].
  set (u := trim_left (rev t)) in *.
  assert (t = rev u ++ rev p) as Ht.
  { rewrite <- (rev_involutive t), E. apply rev_app_distr. }
  destruct (rev u) as [|a r] eqn:Eu; [done|].
  simpl. pose proof (head_trim_left s) as Hs. fold t in Hs.
  rewrite Ht in Hs. exact Hs.
Qed.

Lemma cut_spec c s a b :
  cut c s = Some (a, b) → s = a ++ c :: b ∧ Forall (λ x, x ≠ c) a.
Proof.
  revert a. induction s as [|x s IH]; intros a; cbn [cut]; [done|].
  destruct (N.eqb_spec x c) as [->|Hx].
  - intros [= <- <-]. by split.
  - destruct (cut c s) as [[a' b']|]; [|done]. intros [= <- <-].
    destruct (IH a' eq_refl) as [-> Ha]. split; [done|]. by constructor.
Qed.

Lemma split_elems sep s : Forall (Forall (λ x, x ≠ sep)) (split sep s).
Proof.
  induction s as [|c s IH]; cbn [split]; [by repeat constructor|].
  destruct (N.eqb_spec c sep) as [->|Hc]; [by constructor|].
  destruct (split sep s) as [|p ps]; [by repeat constructor|].
  apply Forall_cons in IH as [Hp Hps]. constructor; [|done]. by constructor.
Qed.

(** The cookie [document.cookie = s] makes is well-formed. *)
Lemma parsed_cookie_wf (nv : jsstring) exp :
  Forall (λ x, x ≠ 59) nv →
  cookie_wf
    (let '(name, val) := match cut 61 nv with
                         | Some (n, v) => (trim n, trim v)
                         | None => ([], trim nv)
                         end in
     {| cname := name; cvalue := val; cexpiry := exp |}).
Proof.
  intros Hnv. destruct (cut 61 nv) as [[n v]|] eqn:C.
  - destruct (cut_spec _ _ _ _ C) as [-> Hn].
    apply Forall_app in Hnv as [Hn59 Hv59]. apply Forall_cons in Hv59 as [_ Hv59].
    unfold cookie_wf. cbn [cname cvalue]. split_and!.
    + by apply Forall_trim.
    + by apply Forall_trim.
    + by apply Forall_trim.
    + unfold serialize. cbn [cname cvalue].
      pose proof (head_trim n) as Hh. pose proof (head_trim v) as Hv.
      destruct (trim n) as [|a r]; [done|]. exact Hh.
  - unfold cookie_wf. cbn [cname cvalue]. split_and!; try done.
    + by apply Forall_trim.
    + unfold serialize. cbn [cname cvalue]. apply head_trim.
Qed.

Lemma assign_cookie_wf now s jar :
  jar_wf jar → jar_wf (assign_cookie now s jar).
Proof.
  intros Hjar. unfold assign_cookie.
  destruct (existsb is_ctl s); [done|].
  pose proof (split_elems 59 s) as Hs.
  destruct (split 59 s) as [|nv attrs]; [done|].
  apply Forall_cons in Hs as [Hnv _].
  pose proof (parsed_cookie_wf nv (attributes_expiry now attrs None None) Hnv)
    as Hwf.
  destruct (match cut 61 nv with
            | Some (n, v) => (trim n, trim v)
            | None => ([], trim nv)
            end) as [name val].
  destruct name as [|a name]; [destruct val as [|x val]; [done|]|];
    by apply put_wf.
Qed.

Lemma reachable_wf jar : reachable jar → jar_wf jar.
Proof.
  induction 1 as [|now s jar _ IH].
  - split; [apply NoDup_nil_2|constructor].
  - by apply assign_cookie_wf.
Qed.

(** *** Plain names and encoded texts *)

Lemma name_char_plain c : name_char c = true → plain c ∧ is_ctl c = false.
Proof.
  unfold name_char, is_letter, is_digit, plain, is_ctl.
  rewrite !orb_true_iff, !andb_true_iff, !N.leb_le, !N.eqb_eq.
  intros H. rewrite !orb_false_iff, andb_false_iff, !N.leb_gt, N.eqb_neq.
  lia.
Qed.

Lemma existsb_Forall {A} (f : A → bool) (l : list A) :
  Forall (λ x, f x = false) l → existsb f l = false.
Proof. induction 1 as [|x l Hx _ IH]; simpl; [done|]. by rewrite Hx. Qed.

Lemma key_ok_chars key :
  key_ok key →
  key ≠ [] ∧ Forall plain key ∧ Forall (λ c, is_ctl c = false) key.
Proof.
  destruct key as [|c rest]; [done|]. intros [Hc Hrest].
  split; [done|].
  assert (Forall (λ x, name_char x = true) (c :: rest)) as Hall.
  { constructor.
    - unfold name_char. by rewrite Hc.
    - apply Forall_forall. intros x Hx%list_elem_of_In.
      by apply (proj1 (forallb_forall _ _) Hrest). }
  split; (eapply Forall_impl; [exact Hall|]); intros x Hx;
    by apply name_char_plain.
Qed.

Lemma key_ok_no_eq key : key_ok key → Forall (λ x, x ≠ 61) key.
Proof.
  intros (_ & H & _)%key_ok_chars. eapply Forall_impl; [done|].
  by intros x (_ & ? & _).
Qed.

Lemma uri_char_no_ctl c : uri_char c → is_ctl c = false.
Proof.
  unfold uri_char, unreserved, is_ctl.
  rewrite !orb_true_iff, !andb_true_iff, !N.leb_le, !N.eqb_eq.
  intros H. rewrite !orb_false_iff, andb_false_iff, !N.leb_gt, N.eqb_neq.
  lia.
Qed.

Lemma encode_no_ctl s enc :
  encodeURIComponent s = Some enc → Forall (λ c, is_ctl c = false) enc.
Proof.
  intros E.
  destruct (encode_decode_aux (length s) s enc) as [_ Hall]; [done..|].
  eapply Forall_impl; [done|]. apply uri_char_no_ctl.
Qed.

(** What [document.cookie = "key=val; ..."] does to the store. *)
Lemma assign_cookie_named now key val more jar :
  key ≠ [] → Forall plain key → Forall plain val →
  existsb is_ctl (key ++ 61 :: val ++ 59 :: more) = false →
  assign_cookie now (key ++ 61 :: val ++ 59 :: more) jar
  = put now {| cname := key; cvalue := val;
               cexpiry := attributes_expiry now (split 59 more) None None |}
      jar.
Proof.
  intros Hne Hkey Hval Hctl. unfold assign_cookie, put. rewrite Hctl.
  replace (key ++ 61 :: val ++ 59 :: more)
    with ((key ++ 61 :: val) ++ 59 :: more) by by rewrite <- app_assoc.
  rewrite split_app_sep.
  - rewrite cut_app by (eapply Forall_impl; [done|]; by intros x (_ & ? & _)).
    rewrite !trim_plain by done. by destruct key.
  - apply Forall_app. split.
    + eapply Forall_impl; [done|]. by intros x (? & _).
    + constructor; [done|]. eapply Forall_impl; [done|]. by intros x (? & _).
Qed.

Lemma assign_cookie_cases now key val more jar :
  key ≠ [] → Forall plain key → Forall plain val →
  assign_cookie now (key ++ 61 :: val ++ 59 :: more) jar = jar ∨
  assign_cookie now (key ++ 61 :: val ++ 59 :: more) jar
  = put now {| cname := key; cvalue := val;
               cexpiry := attributes_expiry now (split 59 more) None None |}
      jar.
Proof.
  intros Hne Hkey Hval.
  destruct (existsb is_ctl (key ++ 61 :: val ++ 59 :: more)) eqn:E.
  - left. unfold assign_cookie. by rewrite E.
  - right. by apply assign_cookie_named.
Qed.

Lemma setCookie_shape key text options (b b1 : Browser.t) :
  hasDocument b = true →
  setCookie key text options b = (Ok tt, b1) →
  ∃ enc more,
    encodeURIComponent text = Some enc ∧
    cookieJar b1
    = assign_cookie (now b) (key ++ 61 :: enc ++ 59 :: more) (cookieJar b) ∧
    hasDocument b1 = true ∧ cookieDenied b1 = false ∧ now b1 = now b.
Proof.
  intros Hd. unfold setCookie. rewrite run_bind, run_gets, Hd. cbn [negb].
  destruct (encodeURIComponent text) as [enc|]; [|done].
  rewrite run_bind, run_ret, run_bind, run_gets. unfold Dom.set_cookie.
  destruct (cookieDenied b) eqn:Hc; [done|].
  destruct (options ≫= expires) as [days|],
           (options ≫= domain) as [[|c dom]|],
           (default false (options ≫= secure));
    try destruct (is_zero days); cbn [negb];
    try (generalize (expiry_text (now b) days); intros date);
    try (generalize (expiry_text (now b) (Int 365)); intros date);
    intros [= <-]; exists enc; eexists; (split; [done|]);
    cbn [cookieJar hasDocument cookieDenied now]; (split; [|done]);
    f_equal; rewrite <- ?app_assoc; simpl; rewrite <- ?app_assoc;
    reflexivity.
Qed.

Lemma removeCookie_shape key options (b b1 : Browser.t) :
  hasDocument b = true →
  removeCookie key options b = (Ok tt, b1) →
  ∃ more,
    cookieJar b1
    = assign_cookie (now b) (key ++ 61 :: [] ++ 59 :: more) (cookieJar b) ∧
    hasDocument b1 = true ∧ cookieDenied b1 = false ∧ now b1 = now b.
Proof.
  intros Hd. unfold removeCookie. rewrite run_bind, run_gets, Hd. cbn [negb].
  unfold Dom.set_cookie.
  destruct (cookieDenied b) eqn:Hc; [by destruct (options ≫= domain) as [[|]|]|].
  destruct (options ≫= domain) as [[|c dom]|];
    intros [= <-]; eexists;
    cbn [cookieJar hasDocument cookieDenied now]; (split; [|done]);
    f_equal; rewrite <- ?app_assoc; simpl; rewrite <- ?app_assoc;
    reflexivity.
Qed.

End CookieFacts.

(** ** The life of a hook: first render, writes, change checks *)

Module LifecycleFacts.
Import Json Browser UseStorage Props EffFacts HookFacts JsonFacts.

Lemma getCookie_loop_browser nameEQ (l : list jsstring) (b : Browser.t) :
  snd (getCookie_loop nameEQ l b) = b.
Proof.
  induction l as [|c l IH]; simpl; [done|].
  destruct (Str.starts_with _ _); [|done].
  by destruct (Uri.decodeURIComponent _).
Qed.

(** Reading a raw value never changes the browser. *)
Lemma rawValue_browser ty key (b : Browser.t) : snd (rawValue ty key b) = b.
Proof.
  destruct ty; simpl.
  - unfold Dom.getItem. by destruct (denied _).
  - unfold Dom.getItem. by destruct (denied _).
  - unfold getCookie. rewrite run_bind, run_gets.
    destruct (hasDocument b); simpl; [|done].
    rewrite run_bind. unfold Dom.cookie.
    destruct (cookieDenied b); [done|]. apply getCookie_loop_browser.
Qed.

Lemma rawValue_run ty key (b : Browser.t) :
  rawValue ty key b = (fst (rawValue ty key b), b).
Proof.
  rewrite <- (rawValue_browser ty key b) at 3. by destruct (rawValue ty key b).
Qed.

(** What a change check does, in all cases. *)
Lemma checkValue_run (options : option IUseStorageOptions) (s : State) :
  checkValue options s
  = (Ok tt,
     match fst (rawValue (storageTypeRef (hook s)) (keyRef (hook s))
                  (browser s)) with
     | Ok raw =>
         if bool_decide (raw ≠ lastValueRef (hook s))
         then {| browser := browser s;
                 hook := updated options raw (decoded raw) (hook s) |}
         else s
     | Throw _ => s
     end).
Proof.
  unfold checkValue.
  rewrite run_try_catch, run_bind, run_gets, run_bind, run_gets, run_bind.
  unfold in_browser. rewrite run_zoom, rawValue_run. simpl.
  destruct s as [b h]. simpl.
  destruct (fst (rawValue (storageTypeRef h) (keyRef h) b)) as [raw|e];
    [|done].
  rewrite run_bind, run_gets. simpl.
  destruct (bool_decide (raw ≠ lastValueRef h)); [|done].
  unfold call_onChange, updated, notified, decoded.
  destruct (default false (onChange <$> options)); by destruct raw.
Qed.

(** What the initialiser does, in all cases. *)
Lemma initialValue_run key (options : option IUseStorageOptions)
    (b : Browser.t) :
  initialValue key options b
  = if hasWindow b then
      match fst (rawValue (opt_storageType options) key b) with
      | Ok raw =>
          (Ok (match raw with
               | Some text => parsed text
               | None => opt_defaultValue options
               end), b)
      | Throw _ =>
          (Ok (opt_defaultValue options),
           warned (str "Error reading storage for key " ++ quoted key
                   ++ str ":") b)
      end
    else (Ok (opt_defaultValue options), b).
Proof.
  unfold initialValue. rewrite run_bind, run_gets.
  destruct (hasWindow b); simpl; [|done].
  rewrite run_try_catch, run_bind, rawValue_run.
  destruct (fst (rawValue (opt_storageType options) key b)) as [[text|]|e];
    done.
Qed.

(** What [setValue] does in a browser, in all cases. *)
Lemma setValue_run (options : option IUseStorageOptions) (v : StorageValue)
    (s : State) :
  hasWindow (browser s) = true →
  setValue options v s
  = (Ok tt,
     match adapter_call options (hook s) v (browser s) with
     | (Ok _, b1) =>
         {| browser := b1;
            hook := updated options (encoded v) v (hook s) |}
     | (Throw _, b1) =>
         {| browser :=
              warned (str "Error setting "
                      ++ type_name (storageTypeRef (hook s))
                      ++ str " for key " ++ quoted (keyRef (hook s))
                      ++ str ":") b1;
            hook := hook s |}
     end).
Proof.
  intros Hw. unfold setValue. rewrite run_bind, run_gets, Hw. simpl.
  rewrite run_try_catch, run_bind, run_gets, run_bind, run_gets.
  destruct s as [b h]. simpl.
  assert (∀ (op : M Browser.t unit) raw,
            ((in_browser op ;; set_lastValueRef raw) ;;
             setValueState v ;; call_onChange options v)
              {| browser := b; hook := h |}
            = match op b with
              | (Ok _, b1) =>
                  (Ok tt, {| browser := b1; hook := updated options raw v h |})
              | (Throw e, b1) => (Throw e, {| browser := b1; hook := h |})
              end) as Hrun.
  { intros op raw. rewrite !run_bind. unfold in_browser at 1.
    rewrite run_zoom. simpl. destruct (op b) as [[[]|e] b1]; simpl; [|done].
    rewrite run_bind. unfold call_onChange, updated, notified. simpl.
    by destruct (default false (onChange <$> options)). }
  unfold adapter_call, adapter_write, adapter_remove.
  destruct v, (storageTypeRef h) eqn:T; rewrite Hrun; simpl;
    match goal with
    | |- context [match ?op b with _ => _ end] =>
        destruct (op b) as [[[]|e] b1]; [done|]
    end;
    rewrite run_bind, run_gets, run_bind, run_gets; simpl; by rewrite T.
Qed.

(** What [clear] does in a browser, in all cases. *)
Lemma clear_run (s : State) :
  hasWindow (browser s) = true →
  clear s
  = (Ok tt,
     match area_of (storageTypeRef (hook s)) with
     | Some a =>
         match Dom.clear a (browser s) with
         | (Ok _, b1) => {| browser := b1; hook := hook s |}
         | (Throw _, b1) =>
             {| browser :=
                  warned (str "Error clearing "
                          ++ type_name (storageTypeRef (hook s)) ++ str ":")
                    b1;
                hook := hook s |}
         end
     | None => s
     end).
Proof.
  intros Hw. unfold clear. rewrite run_bind, run_gets, Hw. simpl.
  rewrite run_try_catch, run_bind, run_gets.
  destruct s as [b h]. simpl.
  destruct (storageTypeRef h) eqn:T; simpl; [| |done];
    unfold in_browser; rewrite run_zoom; simpl;
    match goal with
    | |- context [Dom.clear ?a b] =>
        destruct (Dom.clear a b) as [[[]|e] b1] eqn:E; simpl; [done|]
    end;
    rewrite run_bind, run_gets; simpl; by rewrite T.
Qed.

(** What the polling effect does in a browser, in all cases. *)
Lemma pollingEffect_run (options : option IUseStorageOptions) (s : State) :
  hasWindow (browser s) = true →
  pollingEffect options s
  = if opt_sync options && bool_decide (storageTypeRef (hook s) = LocalStorage)
    then (Ok false, s)
    else (Ok true,
          {| browser := browser s;
             hook :=
               {| value := value (hook s);
                  lastValueRef :=
                    match fst (rawValue (storageTypeRef (hook s))
                                 (keyRef (hook s)) (browser s)) with
                    | Ok raw => raw
                    | Throw _ => None
                    end;
                  keyRef := keyRef (hook s);
                  storageTypeRef := storageTypeRef (hook s);
                  changes := changes (hook s) |} |}).
Proof.
  intros Hw. unfold pollingEffect. rewrite run_bind, run_gets, Hw. simpl.
  rewrite run_bind, run_gets.
  destruct (opt_sync options && _); [done|].
  rewrite run_bind, run_gets, run_bind, run_try_catch, run_bind.
  unfold in_browser. rewrite run_zoom, rawValue_run. simpl.
  destruct s as [b h]. simpl.
  by destruct (fst (rawValue (storageTypeRef h) (keyRef h) b)).
Qed.

(** What the [storage] listener does, in all cases. *)
Lemma handleStorageChange_run key (options : option IUseStorageOptions)
    (e : StorageEvent) (s : State) :
  handleStorageChange key options e s
  = if bool_decide (e_key e = Some key) then
      if denied (Browser.localStorage (browser s))
      then (Throw SecurityError, s)
      else (Ok tt,
            if e_isLocalStorage e
            then {| browser := browser s;
                    hook := updated options (e_newValue e)
                              (decoded (e_newValue e)) (hook s) |}
            else s)
    else (Ok tt, s).
Proof.
  unfold handleStorageChange.
  destruct (bool_decide (e_key e = Some key)); [|done].
  rewrite run_bind, run_gets.
  destruct (denied (Browser.localStorage (browser s))); [done|].
  destruct (e_isLocalStorage e); [|done].
  rewrite !run_bind. unfold call_onChange, updated, notified, decoded.
  destruct s as [b h]. simpl.
  destruct (default false (onChange <$> options)); by destruct (e_newValue e).
Qed.

(** *** Nothing escapes *)


(** The listener where local storage is denied: an event for another key
    passes, an event for the hook's key makes the listener throw. *)
Example listener_throws_when_denied :
  let b := Dom.set_area Dom.Local
             {| items := ∅; denied := true; full := false |}
             (fresh_browser 0) in
  let s := mounted LocalStorage (str "k") b in
  let event key := {| e_key := Some key; e_newValue := None;
                      e_isLocalStorage := true |} in
  handleStorageChange (str "k") (backend LocalStorage) (event (str "other")) s
  = (Ok tt, s) ∧
  handleStorageChange (str "k") (backend LocalStorage) (event (str "k")) s
  = (Throw SecurityError, s).
Proof. split; reflexivity. Qed.

(** *** Without a window *)

(** [X2] Where there is no window (server-side rendering), the first render
    yields the configured default and touches nothing, and [setValue],
    [removeValue], [clear] and the polling effect do nothing at all: no
    write, no state update, no [onChange] call, no subscription. *)
Theorem without_window (key : jsstring)
    (options : option IUseStorageOptions) (v : StorageValue) (s : State) :
  hasWindow (browser s) = false →
  useStorage key options (browser s)
  = (Ok (first_render key options (opt_defaultValue options)), browser s) ∧
  setValue options v s = (Ok tt, s) ∧
  removeValue options s = (Ok tt, s) ∧
  clear s = (Ok tt, s) ∧
  pollingEffect options s = (Ok false, s).
Proof.
  intros Hw. split_and!.
  - unfold useStorage. by rewrite run_bind, initialValue_run, Hw.
  - unfold setValue. by rewrite run_bind, run_gets, Hw.
  - unfold removeValue, setValue. by rewrite run_bind, run_gets, Hw.
  - unfold clear. by rewrite run_bind, run_gets, Hw.
  - unfold pollingEffect. by rewrite run_bind, run_gets, Hw.
Qed.

(** [X2] at work: a server render with default 5 and a stored "9" that is
    never looked at. *)
Lemma without_window_witness :
  let b := {| hasWindow := false; hasDocument := false;
              Browser.localStorage :=
                {| items := {[ str "k" := str "9" ]};
                   denied := false; full := false |};
              Browser.sessionStorage := empty_storage;
              cookieJar := []; cookieDenied := false; cookieWrites := [];
              now := 0; console := [] |} in
  let options := backend_with_default LocalStorage (VNum (Int 5)) in
  let s := mounted LocalStorage (str "k") b in
  useStorage (str "k") options b
  = (Ok (first_render (str "k") options (VNum (Int 5))), b) ∧
  setValue options (VNum (Int 7)) s = (Ok tt, s) ∧
  removeValue options s = (Ok tt, s) ∧
  clear s = (Ok tt, s) ∧
  pollingEffect options s = (Ok false, s).
Proof.
  intros b options s.
  apply (without_window (str "k") options (VNum (Int 7)) s). reflexivity.
Defined.

(** *** Reads that fail *)

(** [X3] When the backend cannot be read (the storage area is denied, the
    cookies are denied, or the stored cookie does not percent-decode), the
    first render falls back to the configured default and prints exactly one
    warning, and a change check changes nothing: no state update, no
    [onChange] call, nothing printed. *)
Theorem read_failure_contained (options : option IUseStorageOptions)
    (s : State) (e : exn) :
  hasWindow (browser s) = true →
  storageTypeRef (hook s) = opt_storageType options →
  fst (rawValue (opt_storageType options) (keyRef (hook s)) (browser s))
  = Throw e →
  useStorage (keyRef (hook s)) options (browser s)
  = (Ok (first_render (keyRef (hook s)) options (opt_defaultValue options)),
     warned (str "Error reading storage for key " ++ quoted (keyRef (hook s))
             ++ str ":") (browser s)) ∧
  checkValue options s = (Ok tt, s).
Proof.
  intros Hw Hty Hraw. split.
  - unfold useStorage. by rewrite run_bind, initialValue_run, Hw, Hraw.
  - by rewrite checkValue_run, Hty, Hraw.
Qed.

(** [X3] at work: the cookie [k=%], which [decodeURIComponent] rejects. *)
Lemma read_failure_contained_witness :
  let b := snd (Dom.set_cookie (str "k=%") (fresh_browser 0)) in
  let options := backend_with_default Cookie (VStr (str "d")) in
  let s := mounted Cookie (str "k") b in
  fst (getCookie (str "k") b) = Throw URIError ∧
  useStorage (str "k") options b
  = (Ok (first_render (str "k") options (VStr (str "d"))),
     warned (str "Error reading storage for key " ++ quoted (str "k")
             ++ str ":") b) ∧
  checkValue options s = (Ok tt, s).
Proof.
  intros b options s. split; [reflexivity|].
  apply (read_failure_contained options s URIError); reflexivity.
Defined.

(** *** Writes to a storage area *)

Lemma adapter_call_area (options : option IUseStorageOptions) (h : Hook)
    (v : StorageValue) (b : Browser.t) (a : Dom.area) :
  area_of (storageTypeRef h) = Some a →
  accepts a v b →
  adapter_call options h v b = (Ok tt, stored a (keyRef h) (encoded v) b).
Proof.
  intros Ha [Hd Hf]. unfold adapter_call, adapter_write, adapter_remove.
  destruct (storageTypeRef h); simplify_eq/=;
    destruct v; simpl;
    unfold Dom.removeItem, Dom.setItem; simpl in *;
    rewrite Hd, ?Hf by done; done.
Qed.

Lemma setValue_area (options : option IUseStorageOptions) (v : StorageValue)
    (s : State) (a : Dom.area) :
  hasWindow (browser s) = true →
  area_of (storageTypeRef (hook s)) = Some a →
  accepts a v (browser s) →
  setValue options v s
  = (Ok tt,
     {| browser := stored a (keyRef (hook s)) (encoded v) (browser s);
        hook := updated options (encoded v) v (hook s) |}).
Proof.
  intros Hw Ha Hacc. rewrite setValue_run by done.
  by rewrite (adapter_call_area options (hook s) v (browser s) a).
Qed.

Lemma rawValue_stored ty key raw (b : Browser.t) (a : Dom.area) :
  area_of ty = Some a →
  denied (Dom.get_area a b) = false →
  rawValue ty key (stored a key raw b) = (Ok raw, stored a key raw b).
Proof.
  intros Ha Hd. unfold rawValue, Dom.getItem.
  destruct ty; simplify_eq/=; rewrite Hd;
    destruct raw; by rewrite ?lookup_insert_eq, ?lookup_delete_eq.
Qed.

Lemma decoded_encoded (v : StorageValue) :
  round_trips v → decoded (encoded v) = v.
Proof.
  destruct v as [|b|x|t|vs|ps]; intros H; try done;
    unfold decoded, encoded, stringValue, parsed.
  - by rewrite (parse_stringify (VBool b)).
  - by rewrite (parse_stringify (VNum x)).
  - unfold round_trips in H. by rewrite H.
  - by rewrite (parse_stringify (VArr vs)).
  - by rewrite (parse_stringify (VObj ps)).
Qed.

(** [X4] In a browser, [setValue(v)] with [v] not [null] on the local or the
    session backend, when the area is accessible and has room, stores the
    encoded text under the hook's key and nothing else: the other keys of
    the area, the other area, the cookies and the console are as they were;
    the hook takes [v] as its value, records the text as last observed, and
    [onChange] is called once, with [v]. *)
Theorem setValue_stores (options : option IUseStorageOptions)
    (v : StorageValue) (s : State) (a : Dom.area) :
  hasWindow (browser s) = true →
  area_of (storageTypeRef (hook s)) = Some a →
  denied (Dom.get_area a (browser s)) = false →
  full (Dom.get_area a (browser s)) = false →
  v ≠ VNull →
  ∃ s', setValue options v s = (Ok tt, s') ∧
        items (Dom.get_area a (browser s'))
        = <[keyRef (hook s) := stringValue v]>
            (items (Dom.get_area a (browser s))) ∧
        (∀ a', a' ≠ a →
               Dom.get_area a' (browser s') = Dom.get_area a' (browser s)) ∧
        cookieJar (browser s') = cookieJar (browser s) ∧
        console (browser s') = console (browser s) ∧
        value (hook s') = v ∧
        lastValueRef (hook s') = Some (stringValue v) ∧
        changes (hook s') = notified options v (hook s).
Proof.
  intros Hw Ha Hd Hf Hv. eexists. split.
  - by apply (setValue_area options v s a).
  - cbn [browser hook].
    assert (encoded v = Some (stringValue v)) as -> by by destruct v.
    split_and!; try (unfold stored; by destruct a).
    intros a' Hne. unfold stored. by destruct a, a'.
Qed.

(** [X4] at work: [setValue({n: 1})] under "k" in a local storage that
    already holds "other". *)
Lemma setValue_stores_witness :
  let b := Dom.set_area Dom.Local
             {| items := {[ str "other" := str "2" ]};
                denied := false; full := false |} (fresh_browser 0) in
  let v := VObj [(str "n", VNum (Int 1))] in
  ∃ s', setValue (backend LocalStorage) v (mounted LocalStorage (str "k") b)
        = (Ok tt, s') ∧
        items (Browser.localStorage (browser s')) !! str "k"
        = Some (str "{" ++ quoted (str "n") ++ str ":1}") ∧
        items (Browser.localStorage (browser s')) !! str "other"
        = Some (str "2") ∧
        value (hook s') = v ∧ changes (hook s') = [v].
Proof.
  intros b v.
  destruct (setValue_stores (backend LocalStorage) v
              (mounted LocalStorage (str "k") b) Dom.Local)
    as (s' & H1 & H2 & _ & _ & _ & H3 & _ & H4);
    [reflexivity|reflexivity|reflexivity|reflexivity|discriminate|].
  exists s'. split; [exact H1|]. simpl in H2. rewrite H2.
  split; [reflexivity|]. split; [reflexivity|]. split; [exact H3|exact H4].
Defined.

(** [X5] In a browser, [removeValue()] on the local or the session backend,
    when the area is accessible, deletes the hook's key and nothing else; the
    hook's value becomes [null], so [hasValue] is false whatever default was
    configured, and [onChange] is called once, with [null].  A hook mounted
    on the same key afterwards starts from its default. *)
Theorem removeValue_deletes (options options' : option IUseStorageOptions)
    (s : State) (a : Dom.area) :
  hasWindow (browser s) = true →
  area_of (storageTypeRef (hook s)) = Some a →
  denied (Dom.get_area a (browser s)) = false →
  opt_storageType options' = storageTypeRef (hook s) →
  ∃ s', removeValue options s = (Ok tt, s') ∧
        items (Dom.get_area a (browser s'))
        = delete (keyRef (hook s)) (items (Dom.get_area a (browser s))) ∧
        (∀ a', a' ≠ a →
               Dom.get_area a' (browser s') = Dom.get_area a' (browser s)) ∧
        cookieJar (browser s') = cookieJar (browser s) ∧
        console (browser s') = console (browser s) ∧
        value (hook s') = VNull ∧ hasValue (hook s') = false ∧
        lastValueRef (hook s') = None ∧
        changes (hook s') = notified options VNull (hook s) ∧
        useStorage (keyRef (hook s)) options' (browser s')
        = (Ok (first_render (keyRef (hook s)) options'
                 (opt_defaultValue options')), browser s').
Proof.
  intros Hw Ha Hd Hty. eexists. split.
  - unfold removeValue. by apply (setValue_area options VNull s a).
  - cbn [browser hook encoded].
    split_and!; try (unfold stored; by destruct a).
    + intros a' Hne. unfold stored. by destruct a, a'.
    + unfold useStorage. rewrite run_bind, initialValue_run.
      assert (hasWindow (stored a (keyRef (hook s)) None (browser s)) = true)
        as -> by (unfold stored; by destruct a).
      rewrite Hty, (rawValue_stored _ _ None _ a) by done.
      cbn [fst]. unfold first_render. by rewrite Hty.
Qed.

(** [X5] at work: the key holds "1", the default is "d". *)
Lemma removeValue_deletes_witness :
  let b := Dom.set_area Dom.Session
             {| items := {[ str "k" := str "1"; str "other" := str "2" ]};
                denied := false; full := false |} (fresh_browser 0) in
  let options := backend_with_default SessionStorage (VStr (str "d")) in
  ∃ s', removeValue options (mounted SessionStorage (str "k") b)
        = (Ok tt, s') ∧
        items (Browser.sessionStorage (browser s')) !! str "k" = None ∧
        items (Browser.sessionStorage (browser s')) !! str "other"
        = Some (str "2") ∧
        hasValue (hook s') = false ∧
        changes (hook s') = [VNull] ∧
        fst (useStorage (str "k") options (browser s'))
        = Ok (first_render (str "k") options (VStr (str "d"))).
Proof.
  intros b options.
  destruct (removeValue_deletes options options
              (mounted SessionStorage (str "k") b) Dom.Session)
    as (s' & H1 & H2 & _ & _ & _ & _ & H3 & _ & H4 & H5);
    [reflexivity|reflexivity|reflexivity|reflexivity|].
  exists s'. split; [exact H1|]. simpl in H2. rewrite H2.
  split; [reflexivity|]. split; [reflexivity|]. split; [exact H3|].
  split; [exact H4|]. exact (f_equal fst H5).
Defined.

(** [X6] A value written by [setValue] on the local or the session backend
    is the initial value of any hook mounted later on the same key and
    backend (a remount, a reload), provided the value comes back from its
    encoding: a number, boolean, list or map that JSON represents, or a text
    that is not itself valid JSON. *)
Theorem value_survives_remount (options options' : option IUseStorageOptions)
    (v : StorageValue) (s : State) (a : Dom.area) :
  hasWindow (browser s) = true →
  area_of (storageTypeRef (hook s)) = Some a →
  denied (Dom.get_area a (browser s)) = false →
  full (Dom.get_area a (browser s)) = false →
  opt_storageType options' = storageTypeRef (hook s) →
  round_trips v →
  ∃ s', setValue options v s = (Ok tt, s') ∧
        useStorage (keyRef (hook s)) options' (browser s')
        = (Ok (first_render (keyRef (hook s)) options' v), browser s').
Proof.
  intros Hw Ha Hd Hf Hty Hv. eexists. split.
  - by apply (setValue_area options v s a).
  - cbn [browser hook]. unfold useStorage.
    rewrite run_bind, initialValue_run.
    assert (hasWindow (stored a (keyRef (hook s)) (encoded v) (browser s))
            = true) as -> by (unfold stored; by destruct a).
    rewrite Hty, (rawValue_stored _ _ (encoded v) _ a) by done.
    cbn [fst]. unfold first_render. rewrite Hty.
    pose proof (decoded_encoded v Hv) as Hdec.
    destruct v; try done; cbn [encoded decoded] in *; by rewrite Hdec.
Qed.

(** [X6] at work: a list written by one hook, read by the next. *)
Lemma value_survives_remount_witness :
  let v := VArr [VNum (Int 1); VStr (str "two"); VBool false] in
  let options := backend SessionStorage in
  ∃ s', setValue options v
          (mounted SessionStorage (str "k") (fresh_browser 0)) = (Ok tt, s') ∧
        useStorage (str "k") options (browser s')
        = (Ok (first_render (str "k") options v), browser s').
Proof.
  intros v options.
  apply (value_survives_remount options options v
           (mounted SessionStorage (str "k") (fresh_browser 0)) Dom.Session);
    try reflexivity.
  simpl. done.
Defined.

(** *** Change checks *)

Lemma checkValue_twice (options : option IUseStorageOptions) (s : State) :
  checkValue options (snd (checkValue options s))
  = (Ok tt, snd (checkValue options s)).
Proof.
  rewrite (checkValue_run options s). cbn [snd].
  destruct (fst (rawValue (storageTypeRef (hook s)) (keyRef (hook s))
                   (browser s))) as [raw|e] eqn:E.
  - destruct (bool_decide (raw ≠ lastValueRef (hook s))) eqn:D.
    + rewrite checkValue_run. cbn [browser hook updated keyRef storageTypeRef
                                   lastValueRef].
      rewrite E. rewrite bool_decide_eq_false_2; [done|]. intros H. by apply H.
    + by rewrite checkValue_run, E, D.
  - by rewrite checkValue_run, E.
Qed.

Lemma checkValue_browser (options : option IUseStorageOptions) (s : State) :
  browser (snd (checkValue options s)) = browser s.
Proof.
  rewrite checkValue_run. cbn [snd].
  destruct (fst (rawValue _ _ _)); [|done]. by destruct (bool_decide _).
Qed.

(** [X7] A change check only reads the backend, and it settles at once:
    whatever the state, it returns normally, leaves the browser as it was,
    and run again right after itself it changes nothing (one change of the
    backend is reported to [onChange] at most once). *)
Theorem checkValue_idempotent (options : option IUseStorageOptions)
    (s : State) :
  let s1 := snd (checkValue options s) in
  checkValue options s = (Ok tt, s1) ∧
  browser s1 = browser s ∧
  checkValue options s1 = (Ok tt, s1).
Proof.
  intros s1. subst s1. split_and!.
  - by rewrite checkValue_run.
  - apply checkValue_browser.
  - apply checkValue_twice.
Qed.

(** [X8] Two hooks of one page on the same key of the local or the session
    backend: after hook A's [setValue(v)] (or [removeValue], [v] being
    [null]) has succeeded, the next change check of hook B, which last
    observed another raw text, gives B the decoding of what A wrote — [v]
    itself when [v] comes back from its encoding — records A's text as last
    observed and calls B's [onChange] once; nothing is written. *)
Theorem polling_propagates (options optionsB : option IUseStorageOptions)
    (v : StorageValue) (s : State) (hB : Hook) (a : Dom.area) :
  hasWindow (browser s) = true →
  area_of (storageTypeRef (hook s)) = Some a →
  accepts a v (browser s) →
  keyRef hB = keyRef (hook s) →
  storageTypeRef hB = storageTypeRef (hook s) →
  lastValueRef hB ≠ encoded v →
  ∃ s', setValue options v s = (Ok tt, s') ∧
        checkValue optionsB {| browser := browser s'; hook := hB |}
        = (Ok tt, {| browser := browser s';
                     hook := updated optionsB (encoded v)
                               (decoded (encoded v)) hB |}) ∧
        (v = VNull ∨ round_trips v → decoded (encoded v) = v).
Proof.
  intros Hw Ha Hacc Hk Hty Hlast. eexists. split; [|split].
  - by apply (setValue_area options v s a).
  - rewrite checkValue_run. cbn [browser hook]. rewrite Hk, Hty.
    rewrite (rawValue_stored _ _ (encoded v) _ a) by (done || apply Hacc).
    cbn [fst]. rewrite bool_decide_eq_true_2; [done|].
    intros H. by apply Hlast.
  - intros [->|Hv]; [done|]. by apply decoded_encoded.
Qed.

(** [X8] at work: A writes 42 under "k"; B, which holds "old", learns 42. *)
Lemma polling_propagates_witness :
  let b := Dom.set_area Dom.Local
             {| items := {[ str "k" := str "old" ]};
                denied := false; full := false |} (fresh_browser 0) in
  let hB := {| value := VStr (str "old"); lastValueRef := Some (str "old");
               keyRef := str "k"; storageTypeRef := LocalStorage;
               changes := [] |} in
  ∃ s', setValue (backend LocalStorage) (VNum (Int 42))
          (mounted LocalStorage (str "k") b) = (Ok tt, s') ∧
        checkValue (backend LocalStorage) {| browser := browser s'; hook := hB |}
        = (Ok tt, {| browser := browser s';
                     hook := {| value := VNum (Int 42);
                                lastValueRef := Some (str "42");
                                keyRef := str "k";
                                storageTypeRef := LocalStorage;
                                changes := [VNum (Int 42)] |} |}).
Proof.
  intros b hB.
  destruct (polling_propagates (backend LocalStorage) (backend LocalStorage)
              (VNum (Int 42)) (mounted LocalStorage (str "k") b) hB Dom.Local)
    as (s' & H1 & H2 & _);
    [reflexivity|reflexivity|by split|reflexivity|reflexivity|discriminate|].
  exists s'. split; [exact H1|]. rewrite H2. reflexivity.
Defined.

(** [X9] The polling effect subscribes the change check exactly when there
    is a window and the hook is not a synchronised local-storage hook; it
    touches neither the browser, nor the hook's value, nor [onChange]; and
    the change check it subscribes finds nothing to report when it runs
    before the backend changes (mounting causes no notification of its
    own). *)
Theorem first_poll_is_silent (options : option IUseStorageOptions)
    (s : State) :
  ∃ r s', pollingEffect options s = (Ok r, s') ∧
          r = hasWindow (browser s) &&
              negb (opt_sync options &&
                    bool_decide (storageTypeRef (hook s) = LocalStorage)) ∧
          browser s' = browser s ∧
          value (hook s') = value (hook s) ∧
          changes (hook s') = changes (hook s) ∧
          (r = false → s' = s) ∧
          (r = true → checkValue options s' = (Ok tt, s')).
Proof.
  destruct (hasWindow (browser s)) eqn:Hw.
  - rewrite pollingEffect_run by done.
    destruct (opt_sync options && _) eqn:Hs.
    + exists false, s. split_and!; done.
    + eexists true, _. split_and!; try done. intros _.
      rewrite checkValue_run.
      cbn [browser hook keyRef storageTypeRef lastValueRef].
      destruct (fst (rawValue _ _ _)) as [raw|e]; [|done].
      rewrite bool_decide_eq_false_2; [done|]. intros H. by apply H.
  - unfold pollingEffect. rewrite run_bind, run_gets, Hw.
    exists false, s. split_and!; done.
Qed.

(** *** The [storage] listener *)

(** [X10] The [storage] listener and the change check agree.  For an event
    on the hook's key in local storage that reports what local storage now
    holds: if the hook last observed another raw text, the listener leaves
    the hook exactly as a change check would; and once the listener has run,
    the hook is in sync with local storage and a change check changes
    nothing. *)
Theorem storage_event_agrees_with_poll (key : jsstring)
    (options : option IUseStorageOptions) (e : StorageEvent) (s : State) :
  e_key e = Some key →
  e_isLocalStorage e = true →
  keyRef (hook s) = key →
  storageTypeRef (hook s) = LocalStorage →
  denied (Browser.localStorage (browser s)) = false →
  items (Browser.localStorage (browser s)) !! key = e_newValue e →
  let s' := snd (handleStorageChange key options e s) in
  (lastValueRef (hook s) ≠ e_newValue e → checkValue options s = (Ok tt, s')) ∧
  value (hook s') = decoded (e_newValue e) ∧
  changes (hook s') = notified options (decoded (e_newValue e)) (hook s) ∧
  in_sync s' ∧
  checkValue options s' = (Ok tt, s').
Proof.
  intros Hk Hl Hkey Hty Hd Hit s'. subst s'.
  rewrite handleStorageChange_run, Hl, Hd, bool_decide_eq_true_2 by done.
  cbn [snd].
  assert (rawValue LocalStorage key (browser s) = (Ok (e_newValue e), browser s))
    as Hraw.
  { unfold rawValue, Dom.getItem. simpl. by rewrite Hd, Hit. }
  assert (in_sync {| browser := browser s;
                     hook := updated options (e_newValue e)
                               (decoded (e_newValue e)) (hook s) |}) as Hsync.
  { unfold in_sync. cbn [browser hook updated keyRef storageTypeRef
                         lastValueRef]. by rewrite Hkey, Hty. }
  split_and!; try done.
  - intros Hlast. rewrite checkValue_run, Hkey, Hty, Hraw. cbn [fst].
    rewrite bool_decide_eq_true_2; [done|]. intros H. by apply Hlast.
  - by apply checkValue_in_sync.
Qed.

(** [X10] at work: another tab has stored [[1]] under "k". *)
Lemma storage_event_agrees_with_poll_witness :
  let b := Dom.set_area Dom.Local
             {| items := {[ str "k" := str "[1]" ]};
                denied := false; full := false |} (fresh_browser 0) in
  let s := mounted LocalStorage (str "k") b in
  let e := {| e_key := Some (str "k"); e_newValue := Some (str "[1]");
              e_isLocalStorage := true |} in
  let s' := snd (handleStorageChange (str "k") (backend LocalStorage) e s) in
  checkValue (backend LocalStorage) s = (Ok tt, s') ∧
  value (hook s') = VArr [VNum (Int 1)] ∧
  changes (hook s') = [VArr [VNum (Int 1)]] ∧
  checkValue (backend LocalStorage) s' = (Ok tt, s').
Proof.
  intros b s e s'.
  destruct (storage_event_agrees_with_poll (str "k") (backend LocalStorage)
              e s) as (H1 & H2 & H3 & _ & H4); try reflexivity.
  split; [apply H1; discriminate|]. split; [exact H2|].
  split; [exact H3|exact H4].
Defined.

(** *** [clear] on an area that cannot be reached *)

(** [X11] In a browser, [clear] on the local or the session backend whose
    storage area is denied returns normally, prints exactly one warning
    naming the backend, and changes nothing else. *)
Theorem clear_failure_warns (s : State) (a : Dom.area) :
  hasWindow (browser s) = true →
  area_of (storageTypeRef (hook s)) = Some a →
  denied (Dom.get_area a (browser s)) = true →
  clear s
  = (Ok tt,
     {| browser := warned (str "Error clearing "
                           ++ type_name (storageTypeRef (hook s)) ++ str ":")
                     (browser s);
        hook := hook s |}).
Proof.
  intros Hw Ha Hd. rewrite clear_run by done. rewrite Ha.
  unfold Dom.clear. by rewrite Hd.
Qed.

(** [X11] at work: a session storage that throws on every access. *)
Lemma clear_failure_warns_witness :
  let b := Dom.set_area Dom.Session
             {| items := {[ str "k" := str "1" ]};
                denied := true; full := false |} (fresh_browser 0) in
  ∃ s', clear (mounted SessionStorage (str "k") b) = (Ok tt, s') ∧
        console (browser s') = [str "Error clearing sessionStorage:"] ∧
        items (Browser.sessionStorage (browser s')) !! str "k"
        = Some (str "1").
Proof.
  intros b. eexists. split.
  - apply (clear_failure_warns (mounted SessionStorage (str "k") b)
             Dom.Session); reflexivity.
  - split; reflexivity.
Defined.

End LifecycleFacts.

(** ** Dates: what the cookie store reads in the date [setCookie] writes *)

Module DateFacts.
Import Str Date Browser Props JsonFacts.
Local Open Scope Z_scope.

Local Ltac Zify.zify_post_hook ::= Z.to_euclidean_division_equations.

(** The two calendar conversions are inverse to each other, and the days
    from 1970 on have years from 1970 on. *)
Lemma civil_round_trip day :
  let '(y, m, d) := civil_from_days day in
  1 <= m <= 12 ∧ 1 <= d <= 31 ∧ days_from_civil y m d = day ∧
  (0 <= day → 1970 <= y).
Proof.
  unfold civil_from_days, days_from_civil.
  set (z := day + 719468).
  set (era := z / 146097).
  set (doe := z - era * 146097).
  assert (0 <= doe < 146097) as Hdoe by (subst doe era; lia).
  set (yoe := (doe - doe / 1460 + doe / 36524 - doe / 146096) / 365).
  assert (0 <= yoe <= 399) as Hyoe by (subst yoe; lia).
  set (doy := doe - (365 * yoe + yoe / 4 - yoe / 100)).
  assert (0 <= doy <= 365) as Hdoy by (subst doy yoe; lia).
  set (mp := (5 * doy + 2) / 153).
  assert (0 <= mp <= 11) as Hmp by (subst mp; lia).
  set (d := doy - (153 * mp + 2) / 5 + 1).
  assert (1 <= d <= 31) as Hd by (subst d mp; lia).
  set (m := if mp <? 10 then mp + 3 else mp - 9).
  assert (1 <= m <= 12) as Hm by (subst m; destruct (Z.ltb_spec mp 10); lia).
  assert ((if 2 <? m then m - 3 else m + 9) = mp) as Hmp'.
  { subst m. destruct (Z.ltb_spec mp 10).
    - destruct (Z.ltb_spec 2 (mp + 3)); lia.
    - destruct (Z.ltb_spec 2 (mp - 9)); lia. }
  rewrite Hmp'.
  assert ((if m <=? 2
           then yoe + era * 400 + (if m <=? 2 then 1 else 0) - 1
           else yoe + era * 400 + (if m <=? 2 then 1 else 0))
          = yoe + era * 400) as ->.
  { destruct (Z.leb_spec m 2); lia. }
  assert ((yoe + era * 400) / 400 = era) as -> by lia.
  split; [lia|]. split; [lia|]. split.
  - subst d doy. clearbody yoe mp. subst doe. lia.
  - intros Hday. assert (4 <= era) as Hera by (subst era z; lia).
    destruct (Z.eq_dec era 4) as [E4|NE4].
    + assert (135080 <= doe) as Hlo by (subst doe z; lia).
      assert (369 <= yoe) as Hy by (subst yoe; lia).
      destruct (Z.eq_dec yoe 369) as [E|NE].
      * assert (306 <= doy) as Hdy by (subst doy; rewrite E; lia).
        assert (10 <= mp) as Hmp10 by (subst mp; lia).
        assert (m <= 2) as Hm2
          by (subst m; destruct (Z.ltb_spec mp 10); lia).
        destruct (Z.leb_spec m 2); lia.
      * destruct (Z.leb_spec m 2); lia.
    + destruct (Z.leb_spec m 2); lia.
Qed.

(** *** Runs of digits *)

Lemma digits_value_bound (ds : jsstring) :
  Forall (λ c, is_digit c = true) ds →
  (digits_value ds < 10 ^ N.of_nat (length ds))%N.
Proof.
  induction ds as [|c ds IH] using rev_ind; intros H.
  - unfold digits_value. simpl. lia.
  - apply Forall_app in H as [Hds Hc]. apply Forall_inv in Hc.
    apply is_digit_spec in Hc. specialize (IH Hds).
    rewrite digits_value_app, length_app. cbn [length].
    replace (N.of_nat (length ds + 1)) with (N.succ (N.of_nat (length ds)))
      by lia.
    rewrite N.pow_succ_r'. unfold digits_value at 2. simpl. lia.
Qed.

Lemma digits_value_lower (d : N) (ds : jsstring) :
  is_digit d = true → d ≠ 48%N →
  (10 ^ N.of_nat (length ds) <= digits_value (d :: ds))%N.
Proof.
  intros Hd%is_digit_spec Hne.
  change (d :: ds) with ([d] ++ ds). rewrite digits_value_app.
  unfold digits_value at 1. simpl. nia.
Qed.

Lemma decimal_length_le (n : N) (k : nat) :
  (n < 10 ^ N.of_nat k)%N → (0 < k)%nat → (length (decimal n) <= k)%nat.
Proof.
  intros Hn Hk.
  destruct (decimal_head n) as (d & ds & E & Hd & Hds & H0).
  pose proof (digits_value_decimal n) as Hv. rewrite E in *. cbn [length].
  destruct (decide (d = 48%N)) as [->|Hne].
  - destruct (H0 eq_refl) as [-> _]. simpl. lia.
  - pose proof (digits_value_lower d ds Hd Hne) as Hlo. rewrite Hv in Hlo.
    destruct (decide (length ds < k)%nat) as [|Hge]; [lia|].
    assert (10 ^ N.of_nat k <= 10 ^ N.of_nat (length ds))%N
      by (apply N.pow_le_mono_r; lia).
    lia.
Qed.

Lemma decimal_length_gt (n : N) (k : nat) :
  (10 ^ N.of_nat k <= n)%N → (k < length (decimal n))%nat.
Proof.
  intros Hn.
  pose proof (digits_value_bound _ (decimal_digits n)) as Hb.
  rewrite digits_value_decimal in Hb.
  destruct (decide (k < length (decimal n))%nat) as [|Hge]; [done|].
  assert (10 ^ N.of_nat (length (decimal n)) <= 10 ^ N.of_nat k)%N
    by (apply N.pow_le_mono_r; lia).
  lia.
Qed.

Lemma padded_spec (w : nat) (n : Z) :
  0 <= n →
  Forall (λ c, is_digit c = true) (padded w n) ∧
  Z.of_N (digits_value (padded w n)) = n ∧
  length (padded w n) = Nat.max w (length (decimal (Z.to_N n))).
Proof.
  intros Hn. unfold padded. split_and!.
  - apply Forall_app. split; [|apply decimal_digits].
    apply Forall_forall. intros x Hx%list_elem_of_In%repeat_spec. by subst.
  - rewrite digits_value_leading_zeros, digits_value_decimal. lia.
  - rewrite length_app, repeat_length. lia.
Qed.

Lemma padded_length (w : nat) (n : Z) :
  0 <= n < 10 ^ Z.of_nat w → (0 < w)%nat → length (padded w n) = w.
Proof.
  intros Hn Hw. destruct (padded_spec w n) as (_ & _ & ->); [lia|].
  pose proof (decimal_length_le (Z.to_N n) w) as H.
  assert (Z.to_N n < 10 ^ N.of_nat w)%N as Hlt.
  { apply N2Z.inj_lt. rewrite N2Z.inj_pow, Z2N.id by lia.
    replace (Z.of_N (N.of_nat w)) with (Z.of_nat w) by lia. simpl. lia. }
  specialize (H Hlt Hw). lia.
Qed.

(** *** Fields and tokens of the cookie-date grammar *)

Lemma digit_not_delim c : is_digit c = true → is_delim c = false.
Proof.
  intros H%is_digit_spec. unfold is_delim.
  assert ((c =? 9)%N = false) as -> by (apply N.eqb_neq; lia).
  assert ((c <=? 47)%N = false) as -> by (apply N.leb_gt; lia).
  assert ((59 <=? c)%N = false) as -> by (apply N.leb_gt; lia).
  assert ((91 <=? c)%N = false) as -> by (apply N.leb_gt; lia).
  assert ((123 <=? c)%N = false) as -> by (apply N.leb_gt; lia).
  by rewrite andb_false_r.
Qed.

Lemma field_digits lo hi (ds rest : jsstring) :
  Forall (λ c, is_digit c = true) ds →
  match rest with [] => True | c :: _ => is_digit c = false end →
  field lo hi (ds ++ rest)
  = if (lo <=? length ds)%nat && (length ds <=? hi)%nat
    then Some (Z.of_N (digits_value ds), rest) else None.
Proof. intros Hds Hrest. unfold field. by rewrite span_digits. Qed.

Lemma field_no_digit lo hi (tok : jsstring) :
  (0 < lo)%nat →
  match tok with [] => True | c :: _ => is_digit c = false end →
  field lo hi tok = None.
Proof.
  intros Hlo Htok. unfold field.
  pose proof (span_digits [] tok (Forall_nil_2 _) Htok) as H.
  cbn [app] in H. rewrite H. simpl. destruct lo; [lia|done].
Qed.

Lemma date_tokens_word (w : jsstring) :
  ∀ r cur, Forall (λ c, is_delim c = false) w →
           date_tokens (w ++ r) cur = date_tokens r (rev w ++ cur).
Proof.
  induction w as [|c w IH]; intros r cur Hw; [done|].
  apply Forall_cons in Hw as [Hc Hw]. cbn [app date_tokens]. rewrite Hc.
  rewrite IH by done. cbn [rev]. by rewrite <- app_assoc.
Qed.

Lemma date_tokens_skip c r :
  is_delim c = true → date_tokens (c :: r) [] = date_tokens r [].
Proof. intros H. cbn [date_tokens]. by rewrite H. Qed.

Lemma date_tokens_sep (w : jsstring) c r :
  w ≠ [] → Forall (λ c, is_delim c = false) w → is_delim c = true →
  date_tokens (w ++ c :: r) [] = w :: date_tokens r [].
Proof.
  intros Hne Hw Hc. rewrite date_tokens_word by done. rewrite app_nil_r.
  cbn [date_tokens]. rewrite Hc.
  destruct (rev w) as [|x l] eqn:E.
  - exfalso. apply Hne. by rewrite <- (rev_involutive w), E.
  - by rewrite <- E, rev_involutive.
Qed.

Lemma date_tokens_last (w : jsstring) :
  w ≠ [] → Forall (λ c, is_delim c = false) w → date_tokens w [] = [w].
Proof.
  intros Hne Hw. rewrite <- (app_nil_r w) at 1.
  rewrite date_tokens_word by done. rewrite app_nil_r. cbn [date_tokens].
  destruct (rev w) as [|x l] eqn:E.
  - exfalso. apply Hne. by rewrite <- (rev_involutive w), E.
  - by rewrite <- E, rev_involutive.
Qed.

Lemma match_time_digits (ds : jsstring) :
  Forall (λ c, is_digit c = true) ds → match_time ds = None.
Proof.
  intros Hds. unfold match_time.
  pose proof (field_digits 1 2 ds [] Hds I) as H. rewrite app_nil_r in H.
  rewrite H. by destruct (_ && _).
Qed.

Lemma match_time_no_digit (tok : jsstring) :
  match tok with [] => True | c :: _ => is_digit c = false end →
  match_time tok = None.
Proof.
  intros H. unfold match_time. rewrite field_no_digit by (done || lia). done.
Qed.

Lemma match_time_clock (hh mm ss : jsstring) :
  Forall (λ c, is_digit c = true) hh → length hh = 2%nat →
  Forall (λ c, is_digit c = true) mm → length mm = 2%nat →
  Forall (λ c, is_digit c = true) ss → length ss = 2%nat →
  match_time (hh ++ 58%N :: mm ++ 58%N :: ss)
  = Some (Z.of_N (digits_value hh), Z.of_N (digits_value mm),
          Z.of_N (digits_value ss)).
Proof.
  intros Hh Lh Hm Lm Hs Ls. unfold match_time.
  rewrite field_digits, Lh by done. cbn [Nat.leb andb].
  rewrite field_digits, Lm by done. cbn [Nat.leb andb].
  pose proof (field_digits 1 2 ss [] Hs I) as H. rewrite app_nil_r in H.
  by rewrite H, Ls.
Qed.

Lemma date_step_skip a tok :
  f_time a ≠ None ∨ match_time tok = None →
  f_day a ≠ None ∨ field 1 2 tok = None →
  f_month a ≠ None ∨ match_month tok = None →
  f_year a ≠ None ∨ field 2 4 tok = None →
  date_step a tok = a.
Proof.
  unfold date_step. intros [H1|H1] [H2|H2] [H3|H3] [H4|H4];
    repeat case_match; simplify_eq; done.
Qed.

Lemma date_step_time a tok t :
  f_time a = None → match_time tok = Some t →
  date_step a tok
  = {| f_time := Some t; f_day := f_day a; f_month := f_month a;
       f_year := f_year a |}.
Proof. unfold date_step. by intros -> ->. Qed.

Lemma date_step_day a tok d r :
  match_time tok = None → f_day a = None → field 1 2 tok = Some (d, r) →
  date_step a tok
  = {| f_time := f_time a; f_day := Some d; f_month := f_month a;
       f_year := f_year a |}.
Proof. unfold date_step. intros -> -> ->. by destruct (f_time a). Qed.

Lemma date_step_month a tok m :
  match_time tok = None → f_day a ≠ None → f_month a = None →
  match_month tok = Some m →
  date_step a tok
  = {| f_time := f_time a; f_day := f_day a; f_month := Some m;
       f_year := f_year a |}.
Proof.
  unfold date_step. intros -> Hd -> ->.
  destruct (f_time a), (f_day a); try done; by destruct (field 1 2 tok).
Qed.

Lemma date_step_year a tok y r :
  match_time tok = None → f_day a ≠ None → f_month a ≠ None →
  f_year a = None → field 2 4 tok = Some (y, r) →
  date_step a tok
  = {| f_time := f_time a; f_day := f_day a; f_month := f_month a;
       f_year := Some y |}.
Proof.
  unfold date_step. intros -> Hd Hm -> ->.
  destruct (f_time a), (f_day a), (f_month a); try done;
    destruct (field 1 2 tok), (match_month tok); done.
Qed.

(** The names of the days are words of the grammar that are neither a
    time, nor a day, nor a month, nor a year. *)
Lemma day_name_token i :
  0 <= i < 7 →
  let w := name_at day_names i in
  w ≠ [] ∧ Forall (λ c, is_delim c = false) w ∧
  match_time w = None ∧ field 1 2 w = None ∧ match_month w = None ∧
  field 2 4 w = None.
Proof.
  intros Hi.
  assert (i = 0 ∨ i = 1 ∨ i = 2 ∨ i = 3 ∨ i = 4 ∨ i = 5 ∨ i = 6)
    as [->|[->|[->|[->|[->|[->| ->]]]]]] by lia;
    vm_compute; split_and!; try done; repeat constructor.
Qed.

Lemma month_name_token m :
  1 <= m <= 12 →
  let w := name_at month_names (m - 1) in
  w ≠ [] ∧ Forall (λ c, is_delim c = false) w ∧
  match_time w = None ∧ match_month w = Some m.
Proof.
  intros Hm.
  assert (m = 1 ∨ m = 2 ∨ m = 3 ∨ m = 4 ∨ m = 5 ∨ m = 6 ∨ m = 7 ∨ m = 8 ∨
          m = 9 ∨ m = 10 ∨ m = 11 ∨ m = 12)
    as [->|[->|[->|[->|[->|[->|[->|[->|[->|[->|[->| ->]]]]]]]]]]] by lia;
    vm_compute; split_and!; try done; repeat constructor.
Qed.

Local Ltac len2 :=
  apply padded_length; [change (10 ^ Z.of_nat 2) with 100; lia | lia].

(** The cookie store reads the UTC string of a time value from 1970 on as
    that instant, cut to the second (as no date, when the year has more than
    four digits). *)
Lemma parse_cookie_date_toUTCString t :
  0 <= t → parse_cookie_date (toUTCString (Some t)) = cookie_date t.
Proof.
  intros Ht. unfold toUTCString, cookie_date, utc_year.
  set (day := t / msPerDay). set (ms := t mod msPerDay).
  assert (0 <= day) as Hday by (subst day; unfold msPerDay; lia).
  assert (0 <= ms < 86400000) as Hms by (subst ms; unfold msPerDay; lia).
  pose proof (civil_round_trip day) as Hcivil.
  destruct (civil_from_days day) as [[y m] d].
  destruct Hcivil as (Hm & Hd & Hdays & Hy). specialize (Hy Hday).
  cbn [fst].
  assert ((y <? 0) = false) as -> by (apply Z.ltb_ge; lia).
  rewrite Z.abs_eq by lia.
  destruct (day_name_token ((day + 4) mod 7)) as (W1 & W2 & W3 & W4 & W5 & W6);
    [lia|].
  destruct (month_name_token m Hm) as (M1 & M2 & M3 & M4).
  destruct (padded_spec 2 d) as (D1 & D2 & _); [lia|].
  assert (length (padded 2 d) = 2%nat) as D3 by len2.
  destruct (padded_spec 4 y) as (Y1 & Y2 & Y3); [lia|].
  destruct (padded_spec 2 (ms / 3600000)) as (H1 & H2 & _); [lia|].
  assert (length (padded 2 (ms / 3600000)) = 2%nat) as H3 by len2.
  destruct (padded_spec 2 (ms / 60000 mod 60)) as (I1 & I2 & _); [lia|].
  assert (length (padded 2 (ms / 60000 mod 60)) = 2%nat) as I3 by len2.
  destruct (padded_spec 2 (ms / 1000 mod 60)) as (S1 & S2 & _); [lia|].
  assert (length (padded 2 (ms / 1000 mod 60)) = 2%nat) as S3 by len2.
  set (W := name_at day_names ((day + 4) mod 7)) in *.
  set (DD := padded 2 d) in *.
  set (Mon := name_at month_names (m - 1)) in *.
  set (YYYY := padded 4 y) in *.
  set (HH := padded 2 (ms / 3600000)) in *.
  set (MM := padded 2 (ms / 60000 mod 60)) in *.
  set (SS := padded 2 (ms / 1000 mod 60)) in *.
  clearbody W DD Mon YYYY HH MM SS.
  assert (∀ ds, Forall (λ c, is_digit c = true) ds →
                Forall (λ c, is_delim c = false) ds) as Hnd.
  { intros ds Hds. eapply Forall_impl; [done|]. apply digit_not_delim. }
  assert (∀ ds : jsstring, length ds = 2%nat → ds ≠ []) as Hne
    by (by intros [|? ?]).
  set (HMS := HH ++ 58%N :: MM ++ 58%N :: SS).
  assert (W ++ str ", " ++ DD ++ str " " ++ Mon ++ str " " ++ [] ++ YYYY
          ++ str " " ++ HH ++ str ":" ++ MM ++ str ":" ++ SS ++ str " GMT"
          = W ++ 44%N :: 32%N :: DD ++ 32%N :: Mon ++ 32%N :: YYYY
            ++ 32%N :: HMS ++ 32%N :: str "GMT") as ->.
  { subst HMS. simpl. rewrite <- !app_assoc. simpl.
    rewrite <- !app_assoc. done. }
  assert (HMS ≠ [] ∧ Forall (λ c, is_delim c = false) HMS) as [T1 T2].
  { subst HMS. split; [by destruct HH|].
    apply Forall_app. split; [by apply Hnd|]. constructor; [done|].
    apply Forall_app. split; [by apply Hnd|]. constructor; [done|].
    by apply Hnd. }
  assert (match_time HMS
          = Some (ms / 3600000, ms / 60000 mod 60, ms / 1000 mod 60)) as T3.
  { subst HMS. rewrite match_time_clock by done. by rewrite H2, I2, S2. }
  clearbody HMS.
  assert (YYYY ≠ []) as Y0 by (destruct YYYY; [simpl in Y3; lia|done]).
  unfold parse_cookie_date.
  rewrite (date_tokens_sep W) by done.
  rewrite (date_tokens_skip 32%N) by done.
  rewrite (date_tokens_sep DD) by auto.
  rewrite (date_tokens_sep Mon) by done.
  rewrite (date_tokens_sep YYYY) by auto.
  rewrite (date_tokens_sep HMS) by done.
  rewrite (date_tokens_last (str "GMT")); [|done|repeat constructor].
  cbn [fold_left].
  rewrite (date_step_skip _ W) by auto.
  cbn [f_time f_day f_month f_year].
  rewrite (date_step_day _ DD d []); cycle 1.
  { by apply match_time_digits. }
  { done. }
  { pose proof (field_digits 1 2 DD [] D1 I) as H.
    rewrite app_nil_r in H. by rewrite H, D3, D2. }
  cbn [f_time f_day f_month f_year].
  rewrite (date_step_month _ Mon m) by done.
  cbn [f_time f_day f_month f_year].
  pose proof (field_digits 2 4 YYYY [] Y1 I) as HY.
  rewrite app_nil_r, Y2 in HY.
  assert (3 < length (decimal (Z.to_N y)))%nat as Ylo.
  { apply decimal_length_gt. change (10 ^ N.of_nat 3)%N with 1000%N. lia. }
  destruct (Z.leb_spec y 9999) as [Hle|Hgt].
  - assert (length (decimal (Z.to_N y)) <= 4)%nat as Yhi.
    { apply decimal_length_le; [|lia].
      change (10 ^ N.of_nat 4)%N with 10000%N. lia. }
    assert (length YYYY = 4%nat) as Y4 by lia. rewrite Y4 in HY.
    rewrite (date_step_year _ YYYY y []);
      [|by apply match_time_digits|done|done|done|done].
    cbn [f_time f_day f_month f_year].
    erewrite (date_step_time _ HMS); [|done|exact T3].
    cbn [f_time f_day f_month f_year].
    rewrite (date_step_skip _ (str "GMT")) by (by left).
    cbn [f_time f_day f_month f_year].
    assert ((70 <=? y) && (y <=? 99) = false) as ->
      by (apply andb_false_iff; right; apply Z.leb_gt; lia).
    assert ((0 <=? y) && (y <=? 69) = false) as ->
      by (apply andb_false_iff; right; apply Z.leb_gt; lia).
    assert ((1 <=? d) && (d <=? 31) && (1601 <=? y)
            && (ms / 3600000 <=? 23) && (ms / 60000 mod 60 <=? 59)
            && (ms / 1000 mod 60 <=? 59) = true) as ->.
    { rewrite !andb_true_iff, !Z.leb_le. lia. }
    f_equal. rewrite Hdays. subst day ms. unfold msPerDay. lia.
  - assert (length YYYY > 4)%nat as Y5.
    { pose proof (decimal_length_gt (Z.to_N y) 4) as H.
      change (10 ^ N.of_nat 4)%N with 10000%N in H. lia. }
    assert ((length YYYY <=? 4)%nat = false) as E by (apply Nat.leb_gt; lia).
    rewrite E, andb_false_r in HY.
    rewrite (date_step_skip _ YYYY);
      [|right; by apply match_time_digits|by left|by left|by right].
    cbn [f_time f_day f_month f_year].
    erewrite (date_step_time _ HMS); [|done|exact T3].
    cbn [f_time f_day f_month f_year].
    rewrite (date_step_skip _ (str "GMT")); [done|by left..|by right].
Qed.

(** *** The text of a date as a cookie attribute *)

Lemma name_at_no_semicolon (names : list string) i :
  Forall (λ n, Forall (λ c, c ≠ 59%N) (str n)) names →
  Forall (λ c, c ≠ 59%N) (name_at names i).
Proof.
  intros H. unfold name_at.
  destruct (nth_in_or_default (Z.to_nat i) names EmptyString) as [Hin| ->];
    [|constructor].
  rewrite Forall_forall in H. apply H. by apply list_elem_of_In.
Qed.

Lemma padded_no_semicolon w n : Forall (λ c, c ≠ 59%N) (padded w n).
Proof.
  unfold padded. apply Forall_app. split.
  - apply Forall_forall. intros x Hx%list_elem_of_In%repeat_spec. by subst.
  - eapply Forall_impl; [apply decimal_digits|].
    intros c Hc%is_digit_spec. lia.
Qed.

Lemma toUTCString_no_semicolon date :
  Forall (λ c, c ≠ 59%N) (toUTCString date).
Proof.
  destruct date as [t|]; [|repeat constructor; done].
  unfold toUTCString. destruct (civil_from_days _) as [[y m] d].
  repeat (first [apply padded_no_semicolon | apply Forall_app; split]);
    try (apply name_at_no_semicolon; repeat constructor; done);
    try (repeat constructor; done).
  destruct (y <? 0); repeat constructor; done.
Qed.

Lemma digit_no_ctl c : is_digit c = true → is_ctl c = false.
Proof.
  intros Hc%is_digit_spec. unfold is_ctl.
  rewrite !orb_false_iff, andb_false_iff, !N.leb_gt, N.eqb_neq. lia.
Qed.

Lemma name_at_no_ctl (names : list string) i :
  Forall (λ n, Forall (λ c, is_ctl c = false) (str n)) names →
  Forall (λ c, is_ctl c = false) (name_at names i).
Proof.
  intros H. unfold name_at.
  destruct (nth_in_or_default (Z.to_nat i) names EmptyString) as [Hin| ->];
    [|constructor].
  rewrite Forall_forall in H. apply H. by apply list_elem_of_In.
Qed.

Lemma padded_no_ctl w n : Forall (λ c, is_ctl c = false) (padded w n).
Proof.
  unfold padded. apply Forall_app. split.
  - apply Forall_forall. intros x Hx%list_elem_of_In%repeat_spec. by subst.
  - eapply Forall_impl; [apply decimal_digits|]. apply digit_no_ctl.
Qed.

(** The UTC string of a date holds no control character. *)
Lemma toUTCString_no_ctl date :
  Forall (λ c, is_ctl c = false) (toUTCString date).
Proof.
  destruct date as [t|]; [|repeat constructor; done].
  unfold toUTCString. destruct (civil_from_days _) as [[y m] d].
  repeat (first [apply padded_no_ctl | apply Forall_app; split]);
    try (apply name_at_no_ctl; repeat constructor; done);
    try (repeat constructor; done).
  destruct (y <? 0); repeat constructor; done.
Qed.


Lemma trim_ends (c : N) (body tail : jsstring) :
  is_wsp c = false → head (rev tail) ≠ Some 32%N → head (rev tail) ≠ Some 9%N →
  tail ≠ [] →
  trim (c :: body ++ tail) = c :: body ++ tail.
Proof.
  intros Hc H32 H9 Hne. unfold trim.
  assert (trim_left (c :: body ++ tail) = c :: body ++ tail) as ->
    by (cbn [trim_left]; by rewrite Hc).
  assert (rev (c :: body ++ tail) = rev tail ++ rev (c :: body)) as E.
  { change (c :: body ++ tail) with ((c :: body) ++ tail).
    by rewrite rev_app_distr. }
  rewrite E, CookieFacts.trim_left_id, <- E, rev_involutive; [done| |].
  - destruct (rev tail) eqn:T; [|done].
    exfalso. apply Hne. by rewrite <- (rev_involutive tail), T.
  - destruct (rev tail) eqn:T; [|done].
    exfalso. apply Hne. by rewrite <- (rev_involutive tail), T.
Qed.

(** The UTC string of a date has no blank at either end. *)
Lemma trim_toUTCString date : trim (toUTCString date) = toUTCString date.
Proof.
  destruct date as [t|]; [|reflexivity].
  unfold toUTCString. destruct (civil_from_days _) as [[y m] d].
  destruct (day_name_token ((t / msPerDay + 4) mod 7))
    as (W1 & W2 & _); [lia|].
  destruct (name_at day_names _) as [|c W]; [done|].
  apply Forall_cons in W2 as [Hc _].
  rewrite !app_assoc. rewrite <- !app_comm_cons.
  apply trim_ends; try done.
  unfold is_wsp. unfold is_delim in Hc.
  destruct (c =? 9)%N; [done|]. simpl in Hc.
  destruct (N.eqb_spec c 32) as [->|]; [done|done].
Qed.

End DateFacts.

(** ** Cookies: what [getCookie] reads after [setCookie] and [removeCookie] *)

Module CookieStoreFacts.
Import Str Uri Date Browser UseStorage Props EffFacts HookFacts UriFacts
  CookieFacts DateFacts.

Lemma plain_no_semicolon (s : jsstring) :
  Forall plain s → Forall (λ x, x ≠ 59%N) s.
Proof. intros H. eapply Forall_impl; [done|]. by intros x (? & _). Qed.

Lemma new_cookie_wf key val exp :
  key_ok key → Forall plain val →
  cookie_wf {| cname := key; cvalue := val; cexpiry := exp |}.
Proof.
  intros (Hne & Hkey & _)%key_ok_chars Hval. unfold cookie_wf.
  cbn [cname cvalue]. split_and!.
  - by apply plain_no_semicolon.
  - by apply plain_no_semicolon.
  - eapply Forall_impl; [done|]. by intros x (_ & ? & _).
  - unfold serialize. cbn [cname cvalue].
    destruct Hkey as [|k key (_ & _ & Hk & _) _]; [done|].
    simpl. congruence.
Qed.

Lemma no_alias_put key now c jar :
  cname c ≠ [] → no_alias key jar → no_alias key (put now c jar).
Proof.
  intros Hc Hno x [_ [->|Hin]%store_elem]%list_elem_of_filter Hx; [done|].
  by apply Hno.
Qed.

(** Reading a key right after the cookie store took a cookie of that
    name. *)
Lemma getCookie_put key val exp text (jar : list cookie) (b1 : Browser.t) :
  key_ok key → jar_wf jar → no_alias key jar →
  Forall plain val → decodeURIComponent val = Some text →
  hasDocument b1 = true → cookieDenied b1 = false →
  cookieJar b1
  = put (now b1) {| cname := key; cvalue := val; cexpiry := exp |} jar →
  getCookie key b1
  = (Ok (if live (now b1) {| cname := key; cvalue := val; cexpiry := exp |}
         then Some text else None), b1).
Proof.
  intros Hkey Hjar Hno Hval Hdec Hd Hc Hput.
  set (c0 := {| cname := key; cvalue := val; cexpiry := exp |}) in *.
  pose proof (new_cookie_wf key val exp Hkey Hval) as Hc0. fold c0 in Hc0.
  destruct (put_wf (now b1) c0 jar Hc0 Hjar) as [Hnd1 Hok1].
  rewrite <- Hput in Hnd1, Hok1.
  destruct (key_ok_chars key Hkey) as (Hne & _ & _).
  rewrite getCookie_first by done.
  assert (filter (λ c, live (now b1) c = true) (cookieJar b1) = cookieJar b1)
    as ->.
  { rewrite Hput. unfold put. apply list_filter_filter_l. done. }
  rewrite first_read_find; [|done|by apply key_ok_no_eq|done|].
  2:{ rewrite Hput. apply no_alias_put; [by subst c0|done]. }
  destruct (live (now b1) c0) eqn:Hlive.
  - assert (find (λ c, bool_decide (cname c = key)) (cookieJar b1) = Some c0)
      as ->.
    { apply (find_unique c0); [done|]. rewrite Hput. unfold put.
      apply list_elem_of_filter. split; [done|apply store_in]. }
    cbn [fmap option_fmap option_map cvalue c0]. by rewrite Hdec.
  - rewrite find_absent; [done|].
    intros (c & E & Hin)%list_elem_of_fmap. rewrite Hput in Hin.
    apply list_elem_of_filter in Hin as [Hl Hin].
    destruct Hjar as [Hnd _].
    assert (c = c0) as -> by by apply (store_unique c0 jar).
    congruence.
Qed.

(** The attributes [setCookie] appends under in-scope options ask for no
    expiry of their own. *)
Lemma scope_attributes now (site : SameSite) e :
  attributes_expiry now
    (split 59 (str " path=/; SameSite=" ++ sameSite_name site)) e None = e.
Proof. by destruct site. Qed.

(** The [expires] attribute [setCookie] writes, as the cookie store reads
    it. *)
Lemma expires_attribute now date (tail : list jsstring) :
  attributes_expiry now ((str " expires=" ++ toUTCString date) :: tail)
    None None
  = attributes_expiry now tail (parse_cookie_date (toUTCString date)) None.
Proof.
  cbn [attributes_expiry].
  assert (cut 61 (str " expires=" ++ toUTCString date)
          = Some (str " expires", toUTCString date)) as -> by reflexivity.
  rewrite trim_toUTCString.
  change (map to_lower (trim (str " expires"))) with (str "expires").
  rewrite decide_True by done.
  by destruct (parse_cookie_date (toUTCString date)).
Qed.

Lemma parse_cookie_date_date (date : option Z) :
  (∀ t, date = Some t → (0 <= t)%Z) →
  parse_cookie_date (toUTCString date) = date ≫= cookie_date.
Proof.
  destruct date as [t|]; [|reflexivity]. intros Ht.
  apply parse_cookie_date_toUTCString. by apply Ht.
Qed.

Lemma scope_no_ctl (site : SameSite) :
  Forall (λ c, is_ctl c = false)
    (str " path=/; SameSite=" ++ sameSite_name site).
Proof. destruct site; by repeat constructor. Qed.

Lemma assign_with_expires now key enc date (site : SameSite) jar :
  key_ok key → Forall plain enc → Forall (λ c, is_ctl c = false) enc →
  (∀ t, date = Some t → (0 <= t)%Z) →
  assign_cookie now
    ((((key ++ str "=" ++ enc) ++ str "; expires=" ++ toUTCString date)
      ++ str "; path=" ++ str "/") ++ str "; SameSite=" ++ sameSite_name site)
    jar
  = put now {| cname := key; cvalue := enc;
               cexpiry := date ≫= cookie_date |} jar.
Proof.
  intros Hkey Hplain Hctl Hdate.
  destruct (key_ok_chars key Hkey) as (Hne & Hkp & Hkc).
  set (more := (str " expires=" ++ toUTCString date)
               ++ 59%N :: str " path=/; SameSite=" ++ sameSite_name site).
  assert ((((key ++ str "=" ++ enc) ++ str "; expires=" ++ toUTCString date)
           ++ str "; path=" ++ str "/") ++ str "; SameSite="
          ++ sameSite_name site
          = key ++ 61%N :: enc ++ 59%N :: more) as ->.
  { unfold more. rewrite <- !app_assoc. simpl. by rewrite <- ?app_assoc. }
  rewrite assign_cookie_named; [|done..|].
  - do 2 f_equal. unfold more. rewrite split_app_sep.
    + by rewrite expires_attribute, parse_cookie_date_date, scope_attributes.
    + apply Forall_app. split; [repeat constructor; done|].
      apply toUTCString_no_semicolon.
  - apply existsb_Forall, Forall_app. split; [done|].
    constructor; [done|]. apply Forall_app. split; [done|].
    constructor; [done|]. unfold more. apply Forall_app. split.
    + apply Forall_app. split; [by repeat constructor|].
      apply toUTCString_no_ctl.
    + constructor; [done|]. apply scope_no_ctl.
Qed.

Lemma assign_session now key enc (site : SameSite) jar :
  key_ok key → Forall plain enc → Forall (λ c, is_ctl c = false) enc →
  assign_cookie now
    (((key ++ str "=" ++ enc) ++ str "; path=" ++ str "/")
     ++ str "; SameSite=" ++ sameSite_name site)
    jar
  = put now {| cname := key; cvalue := enc; cexpiry := None |} jar.
Proof.
  intros Hkey Hplain Hctl.
  destruct (key_ok_chars key Hkey) as (Hne & Hkp & Hkc).
  assert (((key ++ str "=" ++ enc) ++ str "; path=" ++ str "/")
          ++ str "; SameSite=" ++ sameSite_name site
          = key ++ 61%N :: enc ++ 59%N
              :: str " path=/; SameSite=" ++ sameSite_name site) as ->.
  { rewrite <- !app_assoc. simpl. by rewrite <- ?app_assoc. }
  rewrite assign_cookie_named; [|done..|].
  - by rewrite scope_attributes.
  - apply existsb_Forall, Forall_app. split; [done|].
    constructor; [done|]. apply Forall_app. split; [done|].
    constructor; [done|]. apply scope_no_ctl.
Qed.

(** The date [setCookie] writes and the expiry the store reads in it. *)
Lemma expiry_written now options :
  (∀ t, expiry_asked now options = Some t → (0 <= t)%Z) →
  match options ≫= expires with
  | Some days =>
      is_zero days = false →
      parse_cookie_date
        (toUTCString (time_after now days ≫= setTime))
      = cookie_expiry now options
  | None =>
      parse_cookie_date
        (toUTCString (time_after now (Json.Int 365) ≫= setTime))
      = cookie_expiry now options
  end.
Proof.
  unfold cookie_expiry, expiry_asked. intros Hpos.
  destruct (options ≫= expires) as [days|].
  - intros Hz. rewrite Hz in *. rewrite time_after_instant.
    destruct (instant_after now days) as [t|]; [|reflexivity].
    cbn [mbind option_bind]. rewrite parse_cookie_date_date; [done|].
    unfold setTime. destruct (_ <=? _)%Z; [|done]. intros t' [= <-].
    by apply Hpos.
  - cbn [time_after mbind option_bind].
    replace (now + 365 * 24 * 60 * 60 * 1000)%Z
      with (now + 365 * 86400 * 1000)%Z by lia.
    rewrite parse_cookie_date_date; [done|].
    unfold setTime. destruct (_ <=? _)%Z; [|done]. intros t' [= <-].
    by apply Hpos.
Qed.

(** What [setCookie] leaves in the cookie store, under in-scope options,
    when the expiry asked for is not before 1970. *)
Lemma setCookie_stored key text enc options (b : Browser.t) :
  hasDocument b = true → cookieDenied b = false →
  key_ok key → in_scope options →
  (∀ t, expiry_asked (now b) options = Some t → (0 <= t)%Z) →
  encodeURIComponent text = Some enc →
  ∃ w, setCookie key text options b
       = (Ok tt,
          with_cookies
            (put (now b) {| cname := key; cvalue := enc;
                            cexpiry := cookie_expiry (now b) options |}
               (cookieJar b)) w b).
Proof.
  intros Hd Hc Hkey (Hpath & Hdom & Hsec & Hsite) Hpos Henc.
  destruct (decode_encode _ _ Henc) as [_ Hplain].
  pose proof (encode_no_ctl _ _ Henc) as Hctl.
  unfold setCookie. rewrite run_bind, run_gets, Hd. cbn [negb].
  rewrite Henc, run_bind, run_ret, run_bind, run_gets.
  rewrite Hpath, Hsec.
  assert (∀ cs : jsstring,
            match options ≫= domain with
            | Some (c :: dom) => cs ++ str "; domain=" ++ c :: dom
            | _ => cs
            end = cs) as Hdomain.
  { intros cs. by destruct (options ≫= domain) as [[|]|]. }
  rewrite Hdomain. unfold Dom.set_cookie. rewrite Hc. eexists.
  unfold with_cookies. do 2 f_equal; [|by rewrite Hc].
  set (site := default Lax (options ≫= sameSite)) in *.
  pose proof (expiry_written (now b) options Hpos) as Hexp.
  unfold expiry_text.
  assert (∀ date : option Z,
            parse_cookie_date (toUTCString date) = cookie_expiry (now b) options →
            (∀ t, date = Some t → (0 <= t)%Z) →
            assign_cookie (now b)
              ((((key ++ str "=" ++ enc)
                 ++ str "; expires=" ++ toUTCString date)
                ++ str "; path=" ++ str "/")
               ++ str "; SameSite=" ++ sameSite_name site) (cookieJar b)
            = put (now b) {| cname := key; cvalue := enc;
                             cexpiry := cookie_expiry (now b) options |}
                (cookieJar b)) as Hdate.
  { intros date E Hd0. rewrite assign_with_expires by done.
    by rewrite <- E, parse_cookie_date_date. }
  assert (∀ days, (0 <= now b)%Z ∨ True →
            ∀ t, time_after (now b) days ≫= setTime = Some t →
                 instant_after (now b) days = Some t) as Hinst.
  { intros days _ t. rewrite time_after_instant.
    destruct (instant_after (now b) days) as [t'|]; [|done].
    cbn [mbind option_bind]. unfold setTime.
    destruct (_ <=? _)%Z; [|done]. by intros [= <-]. }
  destruct (options ≫= expires) as [days|] eqn:E.
  - destruct (is_zero days) eqn:Z; cbn [negb].
    + unfold cookie_expiry, expiry_asked. rewrite E, Z.
      by apply assign_session.
    + apply Hdate; [by apply Hexp|]. intros t Ht. apply Hpos.
      unfold expiry_asked. rewrite E, Z. by apply Hinst; [right|].
  - apply Hdate; [exact Hexp|]. intros t Ht. apply Hpos.
    unfold expiry_asked. rewrite E.
    apply (Hinst (Json.Int 365)) in Ht; [|by right].
    cbn [instant_after] in Ht. exact Ht.
Qed.

Lemma keeps_after_epoch now options :
  (0 <= now)%Z → keeps now options →
  ∀ t, expiry_asked now options = Some t → (0 <= t)%Z.
Proof. intros Hnow Hk t Ht. specialize (Hk t Ht). lia. Qed.

Lemma kept_is_live now options key enc :
  keeps now options →
  live now {| cname := key; cvalue := enc;
              cexpiry := cookie_expiry now options |} = true.
Proof.
  unfold keeps, live, cookie_expiry. cbn [cexpiry]. intros Hk.
  destruct (expiry_asked now options) as [t|]; [|done].
  specialize (Hk t eq_refl). unfold setTime.
  destruct (_ <=? _)%Z; [|done]. cbn [mbind option_bind].
  unfold cookie_date. destruct (_ <=? _)%Z; [|done]. apply Z.ltb_lt.
  pose proof (Z.mod_pos_bound t 1000). lia.
Qed.

Lemma setCookie_read_back key text enc options (b : Browser.t) :
  hasDocument b = true → cookieDenied b = false →
  key_ok key → reachable (cookieJar b) → no_alias key (cookieJar b) →
  in_scope options → keeps (now b) options → (0 <= now b)%Z →
  encodeURIComponent text = Some enc →
  ∃ w, let b1 := with_cookies
                   (put (now b) {| cname := key; cvalue := enc;
                                   cexpiry := cookie_expiry (now b) options |}
                      (cookieJar b)) w b in
       setCookie key text options b = (Ok tt, b1) ∧
       getCookie key b1 = (Ok (Some text), b1).
Proof.
  intros Hd Hc Hkey Hjar Hno Hscope Hkeep Hnow E.
  destruct (decode_encode _ _ E) as [Hdec Hplain].
  destruct (setCookie_stored key text enc options b) as [w Hset];
    try done.
  { by apply keeps_after_epoch. }
  exists w. split; [exact Hset|].
  erewrite (getCookie_put key enc _ text (cookieJar b)); try done.
  - cbn [now with_cookies]. by rewrite kept_is_live.
  - by apply reachable_wf.
Qed.

Lemma setCookie_ok_access key text options (b b1 : Browser.t) :
  hasDocument b = true →
  setCookie key text options b = (Ok tt, b1) →
  cookieDenied b = false ∧ encodeURIComponent text ≠ None.
Proof.
  intros Hd. unfold setCookie. rewrite run_bind, run_gets, Hd. cbn [negb].
  destruct (encodeURIComponent text) as [enc|]; [|done].
  rewrite run_bind, run_ret, run_bind, run_gets. unfold Dom.set_cookie.
  by destruct (cookieDenied b).
Qed.

Lemma removeCookie_ok_access key options (b b1 : Browser.t) :
  hasDocument b = true →
  removeCookie key options b = (Ok tt, b1) →
  cookieDenied b = false.
Proof.
  intros Hd. unfold removeCookie. rewrite run_bind, run_gets, Hd. cbn [negb].
  unfold Dom.set_cookie. by destruct (cookieDenied b).
Qed.

(** [X12] A text written with [setCookie] is what [getCookie] returns for
    that name right afterwards, when: the document exists and cookies are not
    denied; the name is a plain cookie name (a letter, then letters, digits,
    [-], [.] and [_]); [encodeURIComponent] accepts the text (no lone
    surrogate); the cookie options are in scope (default path and domain, no
    [Secure], [SameSite] not [None]); the expiry asked for, if there is one,
    is at least one second ahead; the clock is not before 1970; and the cookie
    store is in a state that assignments to [document.cookie] lead to and
    holds no nameless cookie whose text begins with the name and [=].  The
    cookie store is the one of the model: it keeps one cookie per name, takes
    every cookie to be in scope of the page, and has no limit on the size or
    the number of the cookies. *)
Theorem cookie_written_is_read key text options (b : Browser.t) :
  hasDocument b = true → cookieDenied b = false →
  key_ok key → reachable (cookieJar b) → no_alias key (cookieJar b) →
  in_scope options → keeps (now b) options → (0 <= now b)%Z →
  encodeURIComponent text ≠ None →
  ∃ b1, setCookie key text options b = (Ok tt, b1) ∧
        getCookie key b1 = (Ok (Some text), b1).
Proof.
  intros Hd Hc Hkey Hjar Hno Hscope Hkeep Hnow Henc.
  destruct (encodeURIComponent text) as [enc|] eqn:E; [|done].
  destruct (setCookie_read_back key text enc options b) as (w & H1 & H2);
    try done.
  eauto.
Qed.

(** [X12] at work, on 2 November 2026, with the default options. *)
Lemma cookie_written_is_read_witness :
  ∃ b1, setCookie (str "k") (str "a=b; c%") None
          (fresh_browser 1793577600000) = (Ok tt, b1) ∧
        getCookie (str "k") b1 = (Ok (Some (str "a=b; c%")), b1).
Proof.
  apply (cookie_written_is_read (str "k") (str "a=b; c%") None
           (fresh_browser 1793577600000)); try reflexivity.
  - split; reflexivity.
  - apply reach_empty.
  - intros c Hc. by apply not_elem_of_nil in Hc.
  - repeat split. discriminate.
  - intros t [= <-]. simpl. lia.
  - simpl. lia.
  - vm_compute. discriminate.
Defined.

(** The store after [removeCookie]. *)
Lemma removeCookie_read_back key options (b : Browser.t) :
  hasDocument b = true → cookieDenied b = false →
  key_ok key → reachable (cookieJar b) → no_alias key (cookieJar b) →
  in_root options → (0 <= now b)%Z →
  ∃ b1, removeCookie key options b = (Ok tt, b1) ∧
        (key ∉ cname <$> cookieJar b1) ∧
        getCookie key b1 = (Ok None, b1).
Proof.
  intros Hd Hc Hkey Hreach Hno (Hpath & Hdom) Hnow.
  pose proof (reachable_wf _ Hreach) as Hjar.
  destruct (key_ok_chars key Hkey) as (Hne & Hkp & Hkc).
  set (c0 := {| cname := key; cvalue := []; cexpiry := Some 0%Z |}).
  assert (live (now b) c0 = false) as Hdead.
  { unfold live. cbn [cexpiry c0]. apply Z.ltb_ge. lia. }
  assert (removeCookie key options b
          = (Ok tt,
             with_cookies (put (now b) c0 (cookieJar b))
               (key ++ str "=; expires=Thu, 01 Jan 1970 00:00:00 UTC; path=/")
               b)) as Hrem.
  { unfold removeCookie. rewrite run_bind, run_gets, Hd. cbn [negb].
    rewrite Hpath.
    assert (∀ cs : jsstring,
              match options ≫= domain with
              | Some (c :: dom) => cs ++ str "; domain=" ++ c :: dom
              | _ => cs
              end = cs) as Hdomain.
    { intros cs. by destruct (options ≫= domain) as [[|]|]. }
    rewrite Hdomain. unfold Dom.set_cookie. rewrite Hc.
    unfold with_cookies. do 2 f_equal; [|by rewrite Hc].
    pose proof (assign_cookie_named (now b) key []
                  (str " expires=Thu, 01 Jan 1970 00:00:00 UTC; path=/")
                  (cookieJar b) Hne Hkp (Forall_nil_2 _)) as H.
    etrans; [|etrans; [apply H|reflexivity]].
    - reflexivity.
    - apply existsb_Forall, Forall_app. split; [done|].
      by repeat constructor. }
  eexists. split; [exact Hrem|].
  set (b1 := with_cookies _ _ b).
  pose proof (getCookie_put key [] (Some 0%Z) [] (cookieJar b) b1 Hkey Hjar
                Hno (Forall_nil_2 _) eq_refl Hd Hc eq_refl) as Hget.
  cbn [now with_cookies b1] in Hget. fold c0 in Hget. rewrite Hdead in Hget.
  split; [|exact Hget].
  cbn [cookieJar with_cookies]. unfold put.
  intros (c & E & [Hl Hin]%list_elem_of_filter)%list_elem_of_fmap.
  destruct Hjar as [Hnd _].
  assert (c = c0) as -> by by apply (store_unique c0 (cookieJar b)).
  congruence.
Qed.

(** [X13] After [removeCookie], [getCookie] finds nothing under that
    name, when: the document exists and cookies are not denied; the name is a
    plain cookie name (a letter, then letters, digits, [-], [.] and [_]); the
    cookie options name the default path and domain; the clock is not before
    1970; and the cookie store is in a state that assignments to
    [document.cookie] lead to and holds no nameless cookie whose text begins
    with the name and [=].  The cookie store reads the fixed date of 1 January
    1970 in the [expires] attribute and lets the cookie go.  (The cookie
    store is the one of the model: it keeps one cookie per name and takes
    every cookie to be in scope of the page.) *)
Theorem cookie_removed_is_absent key options (b : Browser.t) :
  hasDocument b = true → cookieDenied b = false →
  key_ok key → reachable (cookieJar b) → no_alias key (cookieJar b) →
  in_root options → (0 <= now b)%Z →
  ∃ b1, removeCookie key options b = (Ok tt, b1) ∧
        (key ∉ cname <$> cookieJar b1) ∧
        getCookie key b1 = (Ok None, b1).
Proof. apply removeCookie_read_back. Qed.

(** [X13] at work: a cookie is written, then removed. *)
Lemma cookie_removed_is_absent_witness :
  let b := snd (setCookie (str "k") (str "v") None
                  (fresh_browser 1793577600000)) in
  fst (getCookie (str "k") b) = Ok (Some (str "v")) ∧
  ∃ b1, removeCookie (str "k") None b = (Ok tt, b1) ∧
        (str "k" ∉ cname <$> cookieJar b1) ∧
        getCookie (str "k") b1 = (Ok None, b1).
Proof.
  intros b. split; [reflexivity|].
  apply (cookie_removed_is_absent (str "k") None b); try reflexivity.
  - split; reflexivity.
  - apply (reach_assign 1793577600000
             (str "k=v; expires=Tue, 02 Nov 2027 00:00:00 GMT; path=/; SameSite=Lax")
             []).
    apply reach_empty.
  - intros c Hc Hn. vm_compute in Hc. apply list_elem_of_singleton in Hc.
    by subst c.
  - split; reflexivity.
  - simpl. lia.
Defined.

Lemma first_read_put_other key' now c (jar : list cookie) :
  reads key' c = None →
  (∀ x, x ∈ jar → cname x = cname c → reads key' x = None) →
  first_read key' (filter (λ x, live now x = true) (put now c jar))
  = first_read key' (filter (λ x, live now x = true) jar).
Proof.
  intros Hc. unfold put. rewrite list_filter_filter_l by done.
  assert (∀ x l, reads key' x = None →
            first_read key' (filter (λ x, live now x = true) (x :: l))
            = first_read key' (filter (λ x, live now x = true) l)) as Hskip.
  { intros x l Hx. rewrite filter_cons. destruct (decide _); [|done].
    cbn [first_read]. by rewrite Hx. }
  induction jar as [|c' rest IH]; intros Hsame; cbn [store].
  - by rewrite Hskip.
  - destruct (decide (cname c' = cname c)) as [E|NE].
    + rewrite !Hskip; [done| |done].
      apply Hsame; [apply list_elem_of_here|done].
    + rewrite !(filter_cons _ c'). destruct (decide _).
      * cbn [first_read]. destruct (reads key' c'); [done|].
        apply IH. intros x Hx. apply Hsame. by apply list_elem_of_further.
      * apply IH. intros x Hx. apply Hsame. by apply list_elem_of_further.
Qed.

(** [X14] Writing or removing the cookie of one name leaves what
    [getCookie] returns for every other name as it was, whatever the text and
    the cookie options, when both names are plain cookie names (a letter,
    then letters, digits, [-], [.] and [_]), the document exists, cookies are
    not denied and the cookie store is in a state that assignments to
    [document.cookie] lead to.  (The cookie store is the one of the model: it
    keeps one cookie per name, takes every cookie to be in scope of the page
    and has no limit on the size or the number of the cookies.) *)
Theorem cookie_write_frame key key' text options (b : Browser.t) :
  hasDocument b = true → cookieDenied b = false →
  key_ok key → key_ok key' → key' ≠ key → reachable (cookieJar b) →
  (∀ b1, setCookie key text options b = (Ok tt, b1) →
         getCookie key' b1 = (fst (getCookie key' b), b1)) ∧
  (∀ b1, removeCookie key options b = (Ok tt, b1) →
         getCookie key' b1 = (fst (getCookie key' b), b1)).
Proof.
  intros Hd Hc Hkey Hkey' Hne Hreach.
  pose proof (reachable_wf _ Hreach) as Hjar.
  destruct (key_ok_chars key Hkey) as (Hk0 & Hkp & _).
  assert (∀ val more b1,
            Forall plain val →
            cookieJar b1
            = assign_cookie (now b) (key ++ 61%N :: val ++ 59%N :: more)
                (cookieJar b) →
            hasDocument b1 = true → cookieDenied b1 = false →
            now b1 = now b →
            getCookie key' b1 = (fst (getCookie key' b), b1)) as Hframe.
  { intros val more b1 Hval Hassign Hd1 Hc1 Hnow.
    assert (∀ J, first_read key' J
                 = first_read key'
                     (filter (λ c, live (now b) c = true) (cookieJar b)) →
              Forall cookie_wf (cookieJar b1) →
              filter (λ c, live (now b) c = true) (cookieJar b1) = J →
              getCookie key' b1 = (fst (getCookie key' b), b1)) as Hsame.
    { intros J HJ Hwf HJ1.
      rewrite (getCookie_first key' b1), (getCookie_first key' b)
        by (done || apply Hjar).
      rewrite Hnow, HJ1, HJ. clear HJ.
      generalize (first_read key'
                    (filter (λ c, live (now b) c = true) (cookieJar b))).
      intros [t|]; [destruct (decodeURIComponent t)|]; done. }
    destruct (assign_cookie_cases (now b) key val more (cookieJar b))
      as [Hsame'|Hput]; try done.
    - rewrite Hsame' in Hassign. apply (Hsame _ eq_refl); rewrite Hassign;
        [apply Hjar|done].
    - rewrite Hput in Hassign.
      set (c0 := {| cname := key; cvalue := val;
                    cexpiry := attributes_expiry (now b) (split 59 more)
                                 None None |}) in *.
      pose proof (new_cookie_wf key val (cexpiry c0) Hkey Hval) as Hc0.
      destruct (put_wf (now b) c0 (cookieJar b) Hc0 Hjar) as [_ Hok1].
      rewrite <- Hassign in Hok1.
      eapply Hsame; [|done|by rewrite Hassign].
      apply first_read_put_other.
      + rewrite reads_named; [|by apply key_ok_no_eq|done|done].
        by rewrite decide_False by (cbn; congruence).
      + intros x Hx Ex. destruct Hjar as [_ Hall].
        rewrite Forall_forall in Hall.
        rewrite reads_named; [|by apply key_ok_no_eq|by apply Hall|].
        * rewrite decide_False; [done|]. rewrite Ex. cbn. congruence.
        * rewrite Ex. done. }
  split; intros b1 Hrun.
  - destruct (setCookie_shape _ _ _ _ _ Hd Hrun)
      as (enc & more & Henc & Hj & H1 & H2 & H3).
    destruct (decode_encode _ _ Henc) as [_ Hplain].
    by apply (Hframe enc more).
  - destruct (removeCookie_shape _ _ _ _ Hd Hrun) as (more & Hj & H1 & H2 & H3).
    by apply (Hframe [] more).
Qed.

(** [X14] at work: "k" is rewritten and then removed, "other" stays. *)
Lemma cookie_write_frame_witness :
  let b := snd (setCookie (str "other") (str "1") None
                  (fresh_browser 1793577600000)) in
  let b1 := snd (setCookie (str "k") (str "2") None b) in
  let b2 := snd (removeCookie (str "k") None b1) in
  getCookie (str "other") b1 = (Ok (Some (str "1")), b1) ∧
  getCookie (str "other") b2 = (Ok (Some (str "1")), b2).
Proof.
  intros b b1 b2.
  assert (key_ok (str "k") ∧ key_ok (str "other")) as [Hk Ho]
    by (split; split; reflexivity).
  assert (str "other" ≠ str "k") as Hne by discriminate.
  assert (reachable (cookieJar b)) as Hb.
  { apply (reach_assign 1793577600000
             (str "other=1; expires=Tue, 02 Nov 2027 00:00:00 GMT; path=/; SameSite=Lax")
             []).
    apply reach_empty. }
  assert (reachable (cookieJar b1)) as Hb1.
  { apply (reach_assign 1793577600000
             (str "k=2; expires=Tue, 02 Nov 2027 00:00:00 GMT; path=/; SameSite=Lax")
             (cookieJar b)).
    exact Hb. }
  split.
  - destruct (cookie_write_frame (str "k") (str "other") (str "2") None b
                eq_refl eq_refl Hk Ho Hne Hb) as [H _].
    apply (H b1). reflexivity.
  - destruct (cookie_write_frame (str "k") (str "other") (str "2") None b1
                eq_refl eq_refl Hk Ho Hne Hb1) as [_ H].
    apply (H b2). reflexivity.
Defined.

(** [X15] What [getCookie] reads in the cookie store, when the document
    exists, cookies are not denied and the store is in a state that
    assignments to [document.cookie] lead to.  The result is the
    percent-decoded text that follows the name and [=] in the first live
    cookie, in the order of the store, whose text as [document.cookie] lists
    it begins with the name and [=] (a URIError when that text does not
    decode), and [null] when there is no such cookie.  For a plain cookie
    name (a letter, then letters, digits, [-], [.] and [_]): a cookie with a
    name is read by this exact name, and never for a name it only begins with
    or contains; a cookie without a name is listed by its value alone and is
    read for the name when that value begins with the name and [=]. *)
Theorem getCookie_reads_store key (b : Browser.t) :
  hasDocument b = true → cookieDenied b = false →
  key_ok key → reachable (cookieJar b) →
  getCookie key b
  = (match first_read key
             (filter (λ c, live (now b) c = true) (cookieJar b)) with
     | Some text =>
         match decodeURIComponent text with
         | Some d => Ok (Some d)
         | None => Throw URIError
         end
     | None => Ok None
     end, b) ∧
  (∀ c, c ∈ cookieJar b → cname c ≠ [] →
        reads key c = if decide (cname c = key) then Some (cvalue c)
                      else None) ∧
  (∀ c, c ∈ cookieJar b → cname c = [] →
        reads key c = starts_with (key ++ str "=") (cvalue c)).
Proof.
  intros Hd Hc Hkey Hreach.
  destruct (reachable_wf _ Hreach) as [Hnd Hjar]. split_and!.
  - rewrite getCookie_first by done.
    by destruct (first_read _ _) as [t|]; [destruct (decodeURIComponent _)|].
  - intros c Hin Hn. rewrite Forall_forall in Hjar.
    apply reads_named; [by apply key_ok_no_eq|by apply Hjar|done].
  - intros c _ Hn. unfold reads, serialize. by rewrite Hn.
Qed.

(** [X15] at work: the store holds "ab" and "xa"; "a" is not there. *)
Lemma getCookie_reads_store_witness :
  let b := snd (setCookie (str "xa") (str "2") None
             (snd (setCookie (str "ab") (str "1 2") None
                (fresh_browser 1793577600000)))) in
  getCookie (str "ab") b = (Ok (Some (str "1 2")), b) ∧
  getCookie (str "a") b = (Ok None, b).
Proof.
  intros b.
  assert (reachable (cookieJar b)) as Hb.
  { apply (reach_assign 1793577600000
             (str "xa=2; expires=Tue, 02 Nov 2027 00:00:00 GMT; path=/; SameSite=Lax")
             (assign_cookie 1793577600000
                (str "ab=1%202; expires=Tue, 02 Nov 2027 00:00:00 GMT; path=/; SameSite=Lax")
                [])).
    apply reach_assign, reach_empty. }
  split.
  - destruct (getCookie_reads_store (str "ab") b eq_refl eq_refl) as [H _];
      [split; reflexivity|exact Hb|].
    rewrite H. reflexivity.
  - destruct (getCookie_reads_store (str "a") b eq_refl eq_refl) as [H _];
      [split; reflexivity|exact Hb|].
    rewrite H. reflexivity.
Defined.

(** A cookie without a name passes for a cookie named "k": after
    [document.cookie = "=k=old"] the store holds a nameless cookie that
    [document.cookie] lists as [k=old]; the cookie "k" written afterwards
    comes second, and [getCookie] reads "old". *)
Example nameless_cookie_alias :
  let b := snd (Dom.set_cookie (str "=k=old") (fresh_browser 1793577600000)) in
  let b1 := snd (setCookie (str "k") (str "new") None b) in
  fst (Dom.cookie b1) = Ok (str "k=old; k=new") ∧
  fst (getCookie (str "k") b1) = Ok (Some (str "old")).
Proof. split; reflexivity. Qed.



End CookieStoreFacts.

(** ** The cookie backend, end to end *)

Module CookieBackendFacts.
Import Json Uri Browser UseStorage Props EffFacts HookFacts LifecycleFacts
  CookieFacts CookieStoreFacts.



End CookieBackendFacts.

(** ** No self-notification *)

Module SyncFacts.
Import Json Uri Browser UseStorage Props EffFacts HookFacts CookieFacts
  CookieStoreFacts.

(** The cookie backend reads back what [setValue] hands it. *)
Lemma cookie_reads_back (options : option IUseStorageOptions)
    (v : StorageValue) (s : State) :
  storageTypeRef (hook s) = Cookie →
  cookie_readable options v s →
  reads_back options v s.
Proof.
  intros Hty (Hd & Hkey & Hreach & Hno & Hscope & Hnow & Hkeep) b1 Hcall.
  rewrite Hty. cbn [rawValue].
  unfold adapter_call, adapter_write, adapter_remove in Hcall.
  rewrite Hty in Hcall.
  assert (∀ text,
            v ≠ VNull →
            setCookie (keyRef (hook s)) text (opt_cookieOptions options)
              (browser s) = (Ok tt, b1) →
            getCookie (keyRef (hook s)) b1 = (Ok (Some text), b1)) as Hset.
  { intros text Hv Hrun.
    destruct (setCookie_ok_access _ _ _ _ _ Hd Hrun) as [Hc Henc].
    destruct (encodeURIComponent text) as [enc|] eqn:E; [|done].
    destruct (setCookie_read_back (keyRef (hook s)) text enc
                (opt_cookieOptions options) (browser s))
      as (w & H1 & H2); try done; [by apply Hkeep|].
    cbv zeta in H1, H2. rewrite Hrun in H1. injection H1 as ->. exact H2. }
  destruct v; cbn [encoded]; try (by apply Hset).
  pose proof (removeCookie_ok_access _ _ _ _ Hd Hcall) as Hc.
  destruct Hscope as (Hpath & Hdom & _).
  destruct (removeCookie_read_back (keyRef (hook s))
              (opt_cookieOptions options) (browser s))
    as (b1' & H1 & _ & H2); try done.
  rewrite Hcall in H1. injection H1 as <-. exact H2.
Qed.

(** [C4], amended.  After a successful [setValue(v)] on the local or the
    session backend, the hook's last-observed raw value is the backend's
    current raw value, and the next change-check changes nothing: no decoding,
    no state update, no call of [onChange].  On the cookie backend the same
    holds when the cookie written can be read back, as far as the model of the
    cookie store goes (one cookie per name, every cookie in scope of the
    page): the document exists; the key is a plain cookie name (a letter, then
    letters, digits, [-], [.] and [_]); the cookie options are in scope
    (default path and domain, no [Secure], [SameSite] not [None]); the clock is
    not before 1970; for a value other than [null], the expiry asked for, if
    there is one, is at least one second ahead; and the cookie store is in a
    state that assignments to [document.cookie] lead to and holds no nameless
    cookie whose text begins with the key and [=]. *)
Theorem no_self_notification (options : option IUseStorageOptions)
    (v : StorageValue) (s s' : State) :
  successful options v s s' →
  storageTypeRef (hook s) ≠ Cookie ∨ cookie_readable options v s →
  in_sync s' ∧ checkValue options s' = (Ok tt, s').
Proof.
  intros Hok Hback.
  assert (in_sync s') as Hsync.
  { apply (setValue_in_sync options v s s' Hok).
    destruct Hback as [Hty|Hkept]; [by apply storage_reads_back|].
    destruct (decide (storageTypeRef (hook s) = Cookie)) as [Hty|Hty];
      [by apply cookie_reads_back|by apply storage_reads_back]. }
  split; [done|]. by apply checkValue_in_sync.
Qed.

(** [C4], amended, at work: [setValue({n: 1})] on local storage, and
    [setValue("a b;c")] on the cookie backend with [expires: 7]. *)
Lemma no_self_notification_witness :
  (let options := backend LocalStorage in
   let s := mounted LocalStorage (str "k") (fresh_browser 0) in
   let s' := snd (setValue options (VObj [(str "n", VNum (Int 1))]) s) in
   changes (hook s') = [VObj [(str "n", VNum (Int 1))]] ∧
   in_sync s' ∧ checkValue options s' = (Ok tt, s')) ∧
  (let options := cookie_backend (with_expires (Some (Int 7))) in
   let s := mounted Cookie (str "k") (fresh_browser 1793577600000) in
   let s' := snd (setValue options (VStr (str "a b;c")) s) in
   lastValueRef (hook s') = Some (str "a b;c") ∧
   in_sync s' ∧ checkValue options s' = (Ok tt, s')).
Proof.
  split.
  - intros options s s'. split; [reflexivity|].
    apply (no_self_notification options
             (VObj [(str "n", VNum (Int 1))]) s s').
    + split; [reflexivity|]. split; reflexivity.
    + left. discriminate.
  - intros options s s'. split; [reflexivity|].
    apply (no_self_notification options (VStr (str "a b;c")) s s').
    + split; [reflexivity|]. split; vm_compute; reflexivity.
    + right. split; [reflexivity|]. split; [split; reflexivity|].
      split; [apply reach_empty|]. split.
      { intros c Hc. by apply not_elem_of_nil in Hc. }
      split; [repeat split; discriminate|]. split; [simpl; lia|].
      intros _ t [= <-]. simpl. lia.
Defined.

End SyncFacts.

(** ** More on the polling manager *)

Module SubscriptionFacts.
Import StoragePollingManager Props EffFacts PollingFacts.

Lemma set_delete_gone cb s : cb ∉ set_delete cb s.
Proof. unfold set_delete. intros [H _]%list_elem_of_filter. by apply H. Qed.

(** [X18] Once a closure has been released, no later firing of the
    interval invokes it, as long as no closure registers it again while the
    interval fires: whatever the closures do on the way (act on the world,
    throw, release or register other closures) and however far each walk of
    the registration set gets, the released closure is not among the
    closures invoked on any number of following ticks, and it is not
    registered after them.  When the closures do not call the manager at all,
    each of these ticks invokes exactly the closures that remain, in their
    registration order. *)
Theorem released_never_called {W} (call : nat → Interval.Closure W) (m : t)
    (cb : nat) (w : W) (n steps : nat) :
  (∀ c w0, Register cb ∉ (call c w0).2) →
  (cb ∉ (Interval.ticks n steps call (unsubscribe cb m) w).2) ∧
  (cb ∉ subscribers (Interval.ticks n steps call (unsubscribe cb m) w).1.1.2) ∧
  ((∀ c w0, (call c w0).2 = []) →
   (Interval.ticks n (length (subscribers (unsubscribe cb m))) call
      (unsubscribe cb m) w).2
   = concat (replicate n (set_delete cb (subscribers m)))).
Proof.
  intros Hno.
  destruct (IntervalFacts.ticks_absent call cb steps n Hno
              (unsubscribe cb m) w) as [H1 H2].
  { rewrite subscribers_unsubscribe. apply set_delete_gone. }
  split; [exact H1|]. split; [exact H2|].
  intros Hq.
  destruct (IntervalFacts.ticks_quiet call (unsubscribe cb m) n Hq w)
    as [w' ->].
  cbn [snd]. by rewrite subscribers_unsubscribe.
Qed.

(** [X18] at work: closures 5, 3 and 4 are registered and 4 is released;
    closure 5 releases closure 3 when it is invoked.  The next two ticks
    invoke 5 alone. *)
Lemma released_never_called_witness :
  let call : nat → Interval.Closure nat :=
    λ c w, (Ok tt, w + c, if c =? 5 then [Release 3] else []) in
  let m := after [Register 5; Register 3; Register 4] in
  (Interval.ticks 2 3 call (unsubscribe 4 m) 0).2 = [5; 5] ∧
  (4 ∉ (Interval.ticks 2 3 call (unsubscribe 4 m) 0).2).
Proof.
  intros call m. split; [reflexivity|].
  destruct (released_never_called call m 4 0 2 3) as [H _]; [|exact H].
  intros c w0. unfold call. cbn [snd].
  destruct (c =? 5); [|apply not_elem_of_nil].
  intros H%list_elem_of_singleton. discriminate.
Defined.

(** [X19] In a browser, registering a closure that is not registered yet and
    releasing it again leaves the manager as it was: the same subscribers in
    the same order, the same interval handle, the same timers running (a
    timer started for it alone is stopped again). *)
Theorem subscribe_then_unsubscribe (history : list op) (cb : nat) :
  let m := after history in
  cb ∉ subscribers m →
  let m' := unsubscribe cb (subscribe cb m) in
  subscribers m' = subscribers m ∧ intervalId m' = intervalId m ∧
  timers m' = timers m.
Proof.
  intros m Hcb m'. subst m'.
  destruct (inv_after history) as (Hw & Hc & Hnd & Hid). fold m in Hw, Hc, Hnd, Hid.
  assert (set_delete cb (subscribers m ++ [cb]) = subscribers m) as Hdel.
  { unfold set_delete. rewrite filter_app, filter_cons_False, filter_nil
      by (intros H; by apply H).
    rewrite app_nil_r. by apply set_delete_absent. }
  unfold subscribe, set_add. rewrite decide_False by done.
  cbn [with_subscribers subscribers intervalId].
  destruct (intervalId m) as [id|] eqn:I.
  - destruct Hid as [Hs Ht].
    rewrite (bool_decide_eq_false_2 (Some id = None)) by done.
    rewrite andb_false_r. unfold unsubscribe.
    cbn [with_subscribers subscribers intervalId]. rewrite Hdel, I.
    destruct (subscribers m) as [|x l] eqn:S; [done|]. cbn [length Nat.eqb andb].
    unfold with_subscribers. cbn [subscribers intervalId timers]. by rewrite I.
  - destruct Hid as [Hs Ht]. rewrite Hs in *. cbn [app length Nat.eqb andb].
    rewrite bool_decide_eq_true_2 by done. unfold startPolling.
    cbn [window with_subscribers]. rewrite Hw. cbn [negb].
    unfold unsubscribe, stopPolling.
    cbn [with_subscribers subscribers intervalId timers clearIntervalDefined].
    unfold set_delete. rewrite filter_cons_False by (intros H; by apply H).
    rewrite filter_nil. cbn [length Nat.eqb andb].
    rewrite bool_decide_eq_true_2 by done.
    cbn [subscribers intervalId timers]. rewrite Hc, Ht. cbn [app].
    rewrite filter_cons_False by (intros H; by apply H). done.
Qed.

(** [X19] at work: closure 9 comes and goes while 7 and 8 stay, and comes
    and goes on an idle manager. *)
Lemma subscribe_then_unsubscribe_witness :
  (let m := after [Register 7; Register 8] in
   let m' := unsubscribe 9 (subscribe 9 m) in
   subscribers m' = [7; 8] ∧ intervalId m' = Some 1 ∧ timers m' = [1]) ∧
  (let m := after [] in
   let m' := unsubscribe 9 (subscribe 9 m) in
   subscribers m' = [] ∧ intervalId m' = None ∧ timers m' = []).
Proof.
  split.
  - apply (subscribe_then_unsubscribe [Register 7; Register 8] 9).
    vm_compute. intros H. apply list_elem_of_In in H. simpl in H. intuition lia.
  - apply (subscribe_then_unsubscribe [] 9).
    vm_compute. intros H. apply list_elem_of_In in H. simpl in H. done.
Defined.

End SubscriptionFacts.

(** ** A page of hooks under the shared interval *)

Module PageFacts.
Import Json Browser UseStorage StoragePollingManager Page Props EffFacts
  PollingFacts HookFacts LifecycleFacts SubscriptionFacts.

Lemma checkValue_ok (options : option IUseStorageOptions) (s : State) :
  checkValue options s = (Ok tt, snd (checkValue options s)).
Proof. by rewrite checkValue_run. Qed.

Lemma checked_twice (b : Browser.t) (c : Component) :
  checked b (checked b c) = checked b c.
Proof.
  unfold checked. cbn [Page.options Page.state]. f_equal.
  set (s := {| UseStorage.browser := b; hook := Page.state c |}).
  pose proof (checkValue_browser (Page.options c) s) as Hb.
  pose proof (checkValue_twice (Page.options c) s) as Ht.
  destruct (snd (checkValue (Page.options c) s)) as [b1 h1].
  cbn [UseStorage.browser hook] in *. subst b1 s.
  cbn [UseStorage.browser] in Ht. by rewrite Ht.
Qed.

(** What the closure of component [id] does to the page. *)
Lemma checkValue_of_spec (id : nat) (p : Page.t) :
  ∃ p', checkValue_of id p = (Ok tt, p') ∧
        Page.browser p' = Page.browser p ∧ manager p' = manager p ∧
        ∀ j, components p' !! j
             = if decide (j = id)
               then checked (Page.browser p) <$> components p !! j
               else components p !! j.
Proof.
  unfold checkValue_of, with_component.
  destruct (components p !! id) as [c|] eqn:E.
  - rewrite checkValue_ok, checkValue_browser.
    eexists. split; [reflexivity|]. split_and!; try done.
    intros j. cbn [components]. destruct (decide (j = id)) as [->|Hne].
    + by rewrite lookup_insert_eq, E.
    + by rewrite lookup_insert_ne.
  - exists p. split_and!; try done.
    intros j. destruct (decide (j = id)) as [->|Hne]; [|done]. by rewrite E.
Qed.

(** What the loop of one firing does to the page. *)
Lemma forEach_checks (subs : list nat) :
  ∀ p, ∃ p',
    forEach subs (λ cb, try_catch (checkValue_of cb) (λ _, mret tt)) p
    = (Ok tt, p') ∧
    Page.browser p' = Page.browser p ∧ manager p' = manager p ∧
    ∀ j, components p' !! j
         = if decide (j ∈ subs)
           then checked (Page.browser p) <$> components p !! j
           else components p !! j.
Proof.
  induction subs as [|a rest IH]; intros p.
  - exists p. split_and!; done.
  - destruct (checkValue_of_spec a p) as (p1 & Hrun & Hb1 & Hm1 & Hc1).
    destruct (IH p1) as (p' & Hrest & Hb' & Hm' & Hc').
    exists p'. cbn [forEach]. rewrite run_bind, run_try_catch, Hrun.
    split_and!; [done|congruence|congruence|].
    intros j. rewrite Hc', Hc1, Hb1.
    destruct (decide (j = a)) as [->|Hne].
    + rewrite (decide_True (P := a ∈ a :: rest)) by apply list_elem_of_here.
      destruct (decide (a ∈ rest)); [|done].
      destruct (components p !! a) as [c|]; [|done]. cbn [fmap option_fmap
        option_map]. by rewrite checked_twice.
    + destruct (decide (j ∈ rest)) as [Hin|Hn].
      * by rewrite decide_True by by apply list_elem_of_further.
      * rewrite decide_False; [done|].
        intros [?|?]%elem_of_cons; done.
Qed.

(** [X20] One firing of the shared interval runs the change check of every
    subscribed component, each on its own hook, and nothing else: the browser
    and the manager are as before, the hooks of the components that are not
    subscribed are untouched, and a subscribed component ends as its own
    change check leaves it. *)
Theorem interval_checks_every_hook (p : Page.t) :
  ∃ p', interval p = (Ok tt, p') ∧
        Page.browser p' = Page.browser p ∧ manager p' = manager p ∧
        ∀ id, components p' !! id
              = if decide (id ∈ subscribers (manager p))
                then checked (Page.browser p) <$> components p !! id
                else components p !! id.
Proof. apply forEach_checks. Qed.

(** [X21] Hooks of one page are kept in line by the shared interval.  Two
    subscribed components A and B on the same key of the local or the session
    backend: when A's [setValue(v)] (or [removeValue], [v] being [null]) has
    succeeded, the next firing of the interval gives B the decoding of what A
    wrote and calls B's [onChange] once, provided B had last observed
    another raw text; A itself is not notified of its own write, and the
    firing writes nothing. *)
Theorem same_tab_sync (p : Page.t) (a b : nat) (ca cb : Component)
    (v : StorageValue) (area : Dom.area) :
  hasWindow (Page.browser p) = true →
  components p !! a = Some ca → components p !! b = Some cb → a ≠ b →
  a ∈ subscribers (manager p) → b ∈ subscribers (manager p) →
  area_of (storageTypeRef (Page.state ca)) = Some area →
  accepts area v (Page.browser p) →
  keyRef (Page.state cb) = keyRef (Page.state ca) →
  storageTypeRef (Page.state cb) = storageTypeRef (Page.state ca) →
  lastValueRef (Page.state cb) ≠ encoded v →
  ∃ p1 p2,
    setValue_of a v p = (Ok tt, p1) ∧ interval p1 = (Ok tt, p2) ∧
    Page.browser p2 = Page.browser p1 ∧
    hook_of a p1
    = Some (updated (Page.options ca) (encoded v) v (Page.state ca)) ∧
    hook_of a p2 = hook_of a p1 ∧
    hook_of b p2
    = Some (updated (Page.options cb) (encoded v) (decoded (encoded v))
              (Page.state cb)).
Proof.
  intros Hw Ha Hb Hab Hsa Hsb Harea Hacc Hkey Hty Hlast.
  set (b1 := stored area (keyRef (Page.state ca)) (encoded v)
               (Page.browser p)).
  set (ha := updated (Page.options ca) (encoded v) v (Page.state ca)).
  set (p1 := {| Page.browser := b1;
                components :=
                  <[a := {| Page.options := Page.options ca;
                            Page.state := ha |}]> (components p);
                manager := manager p |}).
  assert (setValue_of a v p = (Ok tt, p1)) as Hset.
  { unfold setValue_of, with_component. rewrite Ha.
    by rewrite (setValue_area _ v _ area). }
  destruct (forEach_checks (subscribers (manager p1)) p1)
    as (p2 & Hrun & Hb2 & Hm2 & Hc2).
  assert (∀ ty key, area_of ty = Some area →
            rawValue ty key (stored area key (encoded v) (Page.browser p))
            = (Ok (encoded v),
               stored area key (encoded v) (Page.browser p))) as Hraw.
  { intros ty key Hty'. apply rawValue_stored; [done|apply Hacc]. }
  exists p1, p2. split_and!; try done.
  - unfold hook_of. cbn [components p1]. by rewrite lookup_insert_eq.
  - unfold hook_of. rewrite Hc2. cbn [manager components Page.browser p1].
    rewrite decide_True by done. rewrite lookup_insert_eq.
    cbn [fmap option_fmap option_map]. f_equal. unfold checked.
    cbn [Page.options Page.state]. rewrite checkValue_in_sync; [done|].
    unfold in_sync. cbn [UseStorage.browser hook ha updated keyRef
                         storageTypeRef lastValueRef].
    by apply Hraw.
  - unfold hook_of. rewrite Hc2. cbn [manager components Page.browser p1].
    rewrite decide_True by done. rewrite lookup_insert_ne, Hb by done.
    cbn [fmap option_fmap option_map]. f_equal. unfold checked.
    cbn [Page.options Page.state]. rewrite checkValue_run.
    cbn [UseStorage.browser hook snd]. rewrite Hkey, Hty.
    unfold b1. rewrite Hraw by done. cbn [fst].
    rewrite bool_decide_eq_true_2; [done|]. intros H. by apply Hlast.
Qed.

(** [X21] at work: three hooks on "k" in local storage, a fourth on
    "other"; the first writes 42. *)
Lemma same_tab_sync_witness :
  let h key := {| value := VNull; lastValueRef := None; keyRef := key;
                  storageTypeRef := LocalStorage; changes := [] |} in
  let c key := {| Page.options := backend LocalStorage;
                  Page.state := h key |} in
  let p := {| Page.browser := fresh_browser 0;
              components := {[ 1%nat := c (str "k"); 2%nat := c (str "k");
                               3%nat := c (str "other") ]};
              manager := after [Register 1; Register 2; Register 3] |} in
  ∃ p1 p2,
    setValue_of 1 (VNum (Int 42)) p = (Ok tt, p1) ∧
    interval p1 = (Ok tt, p2) ∧
    (changes <$> hook_of 1 p2) = Some [VNum (Int 42)] ∧
    (value <$> hook_of 2 p2) = Some (VNum (Int 42)) ∧
    (changes <$> hook_of 2 p2) = Some [VNum (Int 42)].
Proof.
  intros h c p.
  destruct (same_tab_sync p 1 2 (c (str "k")) (c (str "k")) (VNum (Int 42)) Dom.Local)
    as (p1 & p2 & H1 & H2 & _ & H3 & H4 & H5); try done.
  - vm_compute. apply list_elem_of_here.
  - vm_compute. apply list_elem_of_further, list_elem_of_here.
  - exists p1, p2. split; [exact H1|]. split; [exact H2|].
    rewrite H4, H3, H5. split_and!; reflexivity.
Defined.

Lemma set_add_in cb s : cb ∈ set_add cb s.
Proof.
  unfold set_add. destruct (decide (cb ∈ s)); [done|].
  apply elem_of_app. right. apply list_elem_of_here.
Qed.

Lemma pollingEffect_subscribes (options : option IUseStorageOptions)
    (s : State) :
  hasWindow (UseStorage.browser s) = true →
  opt_sync options && bool_decide (storageTypeRef (hook s) = LocalStorage)
  = false →
  ∃ h, pollingEffect options s
       = (Ok true, {| UseStorage.browser := UseStorage.browser s;
                      hook := h |}) ∧
       value h = value (hook s) ∧ changes h = changes (hook s) ∧
       keyRef h = keyRef (hook s) ∧
       storageTypeRef h = storageTypeRef (hook s) ∧
       checkValue options {| UseStorage.browser := UseStorage.browser s;
                             hook := h |}
       = (Ok tt, {| UseStorage.browser := UseStorage.browser s; hook := h |}).
Proof.
  intros Hw Hs. rewrite pollingEffect_run, Hs by done.
  eexists. split; [reflexivity|]. split_and!; try done.
  rewrite checkValue_run.
  cbn [UseStorage.browser hook keyRef storageTypeRef lastValueRef].
  destruct (fst (rawValue _ _ _)) as [raw|e]; [|done].
  rewrite bool_decide_eq_false_2; [done|]. intros H. by apply H.
Qed.

(** [X22] The life of a polling hook on a page.  In a browser, for a
    component that is not a synchronised local-storage hook: its polling
    effect subscribes its change check and touches neither the browser nor
    the hook's value; the first firing of the interval, the backend being as
    it was, leaves the hook alone; the cleanup of the effect takes the
    closure out of the manager and resets the last observed raw value; and
    from then on no firing touches the hook any more, whatever the browser
    holds by then. *)
Theorem polling_lifecycle (p : Page.t) (id : nat) (c : Component) :
  components p !! id = Some c →
  hasWindow (Page.browser p) = true →
  opt_sync (Page.options c)
  && bool_decide (storageTypeRef (Page.state c) = LocalStorage) = false →
  ∃ p1 p2 q1,
    mount id p = (Ok tt, p1) ∧ interval p1 = (Ok tt, q1) ∧
    cleanup id p1 = (Ok tt, p2) ∧
    Page.browser p1 = Page.browser p ∧ Page.browser p2 = Page.browser p ∧
    id ∈ subscribers (manager p1) ∧
    (value <$> hook_of id p1) = Some (value (Page.state c)) ∧
    (changes <$> hook_of id p1) = Some (changes (Page.state c)) ∧
    hook_of id q1 = hook_of id p1 ∧
    (id ∉ subscribers (manager p2)) ∧
    (value <$> hook_of id p2) = Some (value (Page.state c)) ∧
    (changes <$> hook_of id p2) = Some (changes (Page.state c)) ∧
    (lastValueRef <$> hook_of id p2) = Some None ∧
    ∀ b', ∃ q2,
      interval {| Page.browser := b'; components := components p2;
                  manager := manager p2 |} = (Ok tt, q2) ∧
      hook_of id q2 = hook_of id p2.
Proof.
  intros Hc Hw Hs.
  destruct (pollingEffect_subscribes (Page.options c)
              {| UseStorage.browser := Page.browser p;
                 hook := Page.state c |} Hw Hs)
    as (h & Hrun & Hv & Hch & Hk & Hty & Hsilent).
  cbn [UseStorage.browser hook] in *.
  set (p1 := {| Page.browser := Page.browser p;
                components := <[id := {| Page.options := Page.options c;
                                         Page.state := h |}]> (components p);
                manager := subscribe id (manager p) |}).
  assert (mount id p = (Ok tt, p1)) as Hmount.
  { unfold mount. by rewrite Hc, Hrun. }
  assert (components p1 !! id
          = Some {| Page.options := Page.options c; Page.state := h |})
    as Hc1 by (cbn [components p1]; by rewrite lookup_insert_eq).
  destruct (forEach_checks (subscribers (manager p1)) p1)
    as (q1 & Hq1 & _ & _ & Hcq1).
  set (p2 := snd (cleanup id p1)).
  assert (cleanup id p1 = (Ok tt, p2)) as Hclean.
  { unfold p2, cleanup. by rewrite Hc1. }
  assert (id ∈ subscribers (manager p1)) as Hin.
  { cbn [manager p1]. rewrite subscribers_subscribe. apply set_add_in. }
  assert (id ∉ subscribers (manager p2)) as Hout.
  { unfold p2, cleanup. rewrite Hc1. cbn [snd manager].
    rewrite subscribers_unsubscribe. apply set_delete_gone. }
  assert (hook_of id p2
          = Some {| value := value h; lastValueRef := None;
                    keyRef := keyRef h; storageTypeRef := storageTypeRef h;
                    changes := changes h |}) as Hh2.
  { unfold hook_of, p2, cleanup. rewrite Hc1. cbn [snd components].
    by rewrite lookup_insert_eq. }
  exists p1, p2, q1. split_and!; try done.
  - unfold p2, cleanup. by rewrite Hc1.
  - unfold hook_of. rewrite Hc1. cbn. by rewrite Hv.
  - unfold hook_of. rewrite Hc1. cbn. by rewrite Hch.
  - unfold hook_of. rewrite Hcq1, decide_True, Hc1 by done.
    cbn [fmap option_fmap option_map]. f_equal. unfold checked.
    cbn [Page.options Page.state p1 Page.browser]. by rewrite Hsilent.
  - rewrite Hh2. cbn. by rewrite Hv.
  - rewrite Hh2. cbn. by rewrite Hch.
  - by rewrite Hh2.
  - intros b'.
    destruct (forEach_checks (subscribers (manager p2))
                {| Page.browser := b'; components := components p2;
                   manager := manager p2 |})
      as (q2 & Hq2 & _ & _ & Hcq2).
    exists q2. split; [exact Hq2|]. unfold hook_of. rewrite Hcq2.
    by rewrite decide_False.
Qed.

(** [X22] at work: a cookie hook beside a local-storage hook. *)
Lemma polling_lifecycle_witness :
  let c := {| Page.options := backend Cookie;
              Page.state :=
                {| value := VNum (Int 1); lastValueRef := None;
                   keyRef := str "k"; storageTypeRef := Cookie;
                   changes := [] |} |} in
  let p := {| Page.browser :=
                snd (Dom.set_cookie (str "k=1") (fresh_browser 0));
              components := {[ 5%nat := c ]};
              manager := after [Register 4] |} in
  ∃ p1 p2,
    mount 5 p = (Ok tt, p1) ∧ cleanup 5 p1 = (Ok tt, p2) ∧
    subscribers (manager p1) = [4; 5] ∧
    (lastValueRef <$> hook_of 5 p1) = Some (Some (str "1")) ∧
    subscribers (manager p2) = [4] ∧
    (lastValueRef <$> hook_of 5 p2) = Some None ∧
    (value <$> hook_of 5 p2) = Some (VNum (Int 1)).
Proof.
  intros c p.
  destruct (polling_lifecycle p 5 c) as (p1 & p2 & q1 & H1 & _ & H2 & _);
    try done.
  exists p1, p2. split; [exact H1|]. split; [exact H2|].
  injection H1 as <-. injection H2 as <-. split_and!; reflexivity.
Defined.

(** [X23] Exactly one of the two change detectors serves a hook in a
    browser: the [storage] listener is installed exactly for a synchronised
    local-storage hook, and the change check is subscribed to the polling
    manager exactly in the other cases (session storage, cookies, and local
    storage without [sync]). *)
Theorem exactly_one_detector (options : option IUseStorageOptions)
    (s : State) :
  hasWindow (UseStorage.browser s) = true →
  storageTypeRef (hook s) = opt_storageType options →
  ∃ listens polls s',
    syncEffect options s = (Ok listens, s) ∧
    pollingEffect options s = (Ok polls, s') ∧
    listens = negb polls ∧
    (listens = true ↔
     opt_sync options = true ∧ opt_storageType options = LocalStorage).
Proof.
  intros Hw Hty. unfold syncEffect.
  rewrite run_bind, run_gets, Hw, pollingEffect_run, Hty by done.
  cbn [negb orb].
  destruct (opt_sync options); cbn [negb orb andb].
  - destruct (bool_decide_reflect (opt_storageType options = LocalStorage))
      as [E|NE]; cbn [negb].
    + eexists true, false, _. split_and!; try done.
    + eexists false, true, _. split_and!; try done.
      split; [done|]. by intros [_ ?].
  - eexists false, true, _. split_and!; try done.
    split; [done|]. by intros [? _].
Qed.

(** [X23] at work: a synchronised local-storage hook listens and does not
    poll; without [sync] it polls and does not listen. *)
Lemma exactly_one_detector_witness :
  let s := mounted LocalStorage (str "k") (fresh_browser 0) in
  let synced := Some {| storageType := None; defaultValue := None;
                        sync := Some true; cookieOptions := None;
                        onChange := false |} in
  (fst (syncEffect synced s) = Ok true ∧
   fst (pollingEffect synced s) = Ok false) ∧
  (fst (syncEffect None s) = Ok false ∧
   fst (pollingEffect None s) = Ok true).
Proof.
  intros s synced. split.
  - destruct (exactly_one_detector synced s eq_refl eq_refl)
      as (l & q & s' & H1 & H2 & H3 & H4).
    rewrite H1, H2. cbn [fst]. injection H1 as <-. injection H2 as <- _.
    split; reflexivity.
  - destruct (exactly_one_detector None s eq_refl eq_refl)
      as (l & q & s' & H1 & H2 & H3 & H4).
    rewrite H1, H2. cbn [fst]. injection H1 as <-. injection H2 as <- _.
    split; reflexivity.
Defined.

(** [X25] A hook does not read its value again when it is rendered with
    another key.  In a browser, for a polling hook: after the render with the
    new key the refs name the new key and the change check is subscribed, but
    the hook's value is still the one it had, [onChange] has not been called,
    and the firings of the interval leave it so until the entry of the new key
    changes: the polling effect has recorded the new key's raw text as last
    observed without decoding it. *)
Theorem rerender_keeps_value (p : Page.t) (id : nat) (c : Component)
    (key' : jsstring) (options' : option IUseStorageOptions) :
  components p !! id = Some c →
  hasWindow (Page.browser p) = true →
  opt_sync options' && bool_decide (opt_storageType options' = LocalStorage)
  = false →
  ∃ p1 q h,
    rerender id key' options' p = (Ok tt, p1) ∧
    Page.browser p1 = Page.browser p ∧
    id ∈ subscribers (manager p1) ∧
    hook_of id p1 = Some h ∧
    keyRef h = key' ∧ storageTypeRef h = opt_storageType options' ∧
    value h = value (Page.state c) ∧ changes h = changes (Page.state c) ∧
    interval p1 = (Ok tt, q) ∧ hook_of id q = Some h.
Proof.
  intros Hc Hw Hs.
  set (p0 := if decide (id ∈ subscribers (manager p))
             then snd (cleanup id p) else p).
  assert (∃ c0, components p0 !! id = Some c0 ∧
                value (Page.state c0) = value (Page.state c) ∧
                changes (Page.state c0) = changes (Page.state c) ∧
                Page.browser p0 = Page.browser p) as (c0 & Hc0 & Hv0 & Hch0 & Hb0).
  { unfold p0. destruct (decide _); [|by exists c].
    unfold cleanup. rewrite Hc. cbn [snd components Page.browser].
    eexists. rewrite lookup_insert_eq. split_and!; done. }
  set (c1 := {| Page.options := options';
                Page.state := refsEffect key' options' (Page.state c0) |}).
  set (p' := {| Page.browser := Page.browser p0;
                components := <[id := c1]> (components p0);
                manager := manager p0 |}).
  destruct (polling_lifecycle p' id c1)
    as (p1 & _ & q & Hmount & Hq & _ & Hb1 & _ & Hin & Hv1 & Hch1 & Hq1 & _).
  { cbn [components p']. by rewrite lookup_insert_eq. }
  { cbn [Page.browser p']. by rewrite Hb0. }
  { done. }
  assert (rerender id key' options' p = (Ok tt, p1)) as Hrun.
  { unfold rerender. fold p0. rewrite Hc0. exact Hmount. }
  assert (∃ h, hook_of id p1 = Some h ∧ keyRef h = key' ∧
               storageTypeRef h = opt_storageType options') as (h & Hh & Hk & Hty).
  { revert Hmount. unfold mount. cbn [components p'].
    rewrite lookup_insert_eq. cbn [Page.options Page.state c1].
    destruct (pollingEffect_subscribes options'
                {| UseStorage.browser := Page.browser p';
                   hook := refsEffect key' options' (Page.state c0) |})
      as (h & -> & _ & _ & Hk & Hty & _).
    { cbn [UseStorage.browser Page.browser p']. by rewrite Hb0. }
    { done. }
    intros [= <-]. exists h. unfold hook_of. cbn [components].
    rewrite lookup_insert_eq. split_and!; done. }
  exists p1, q, h. rewrite Hh in *. cbn [fmap option_fmap option_map] in *.
  split_and!; try done; try congruence.
  - rewrite Hb1. cbn [Page.browser p']. done.
  - injection Hv1 as ->. by rewrite <- Hv0.
  - injection Hch1 as ->. by rewrite <- Hch0.
Qed.

(** [X25] at work: local storage holds 1 under "k1" and 2 under "k2"; a hook
    mounted on "k1" shows 1, and still shows 1 after it is rendered with "k2"
    and the interval has fired, while a hook mounted on "k2" shows 2. *)
Lemma rerender_keeps_value_witness :
  let b := Dom.set_area Dom.Local
             {| items := {[ str "k1" := str "1"; str "k2" := str "2" ]};
                denied := false; full := false |} (fresh_browser 0) in
  let c := {| Page.options := None;
              Page.state :=
                {| value := VNum (Int 1); lastValueRef := Some (str "1");
                   keyRef := str "k1"; storageTypeRef := LocalStorage;
                   changes := [] |} |} in
  let p := {| Page.browser := b; components := {[ 1%nat := c ]};
              manager := after [Register 1] |} in
  fst (useStorage (str "k1") None b)
  = Ok (first_render (str "k1") None (VNum (Int 1))) ∧
  fst (useStorage (str "k2") None b)
  = Ok (first_render (str "k2") None (VNum (Int 2))) ∧
  ∃ p1 q h,
    rerender 1 (str "k2") None p = (Ok tt, p1) ∧
    interval p1 = (Ok tt, q) ∧ hook_of 1 q = Some h ∧
    keyRef h = str "k2" ∧ value h = VNum (Int 1) ∧ changes h = [].
Proof.
  intros b c p. split; [reflexivity|]. split; [reflexivity|].
  destruct (rerender_keeps_value p 1 c (str "k2") None)
    as (p1 & q & h & H1 & _ & _ & _ & H2 & _ & H3 & H4 & H5 & H6); try done.
  exists p1, q, h. split_and!; done.
Defined.

End PageFacts.

(** ** What [JSON.parse] returns can be written back *)

Module ReadbackFacts.
Import Str Json UseStorage Props JsonFacts.

Local Ltac Zify.zify_post_hook ::= Z.to_euclidean_division_equations.

Lemma strip_frac_spec (k : nat) :
  ∀ m, m ≠ 0%N →
       (strip_frac k m).1 ≠ 0%N ∧
       ((strip_frac k m).2 ≠ O → ((strip_frac k m).1 mod 10 ≠ 0)%N).
Proof.
  induction k as [|k IH]; intros m Hm; cbn [strip_frac]; [done|].
  destruct (N.eqb_spec (m mod 10) 0) as [E|NE]; [|done].
  apply IH. lia.
Qed.

(** Every number the parser builds is a finite number in the form the
    embedding keeps them. *)
Lemma make_number_finite (neg : bool) (m : N) (e10 : Z) :
  finite (make_number neg m e10).
Proof.
  unfold make_number. destruct (m =? 0)%N eqn:E; [done|].
  apply N.eqb_neq in E. destruct (0 <=? e10)%Z; [done|].
  pose proof (strip_frac_spec (Z.to_nat (- e10)) m E) as [H0 H10].
  destruct (strip_frac _ m) as [m' [|k]]; [done|].
  cbn [fst snd] in *. specialize (H10 ltac:(done)).
  split; [lia|]. destruct neg; lia.
Qed.

Lemma parse_number_finite (s : jsstring) x rest :
  parse_number s = Some (x, rest) → finite x.
Proof.
  unfold parse_number. intros H.
  repeat case_match; simplify_eq. apply make_number_finite.
Qed.

Lemma obj_set_keys k v (ps : list (jsstring * StorageValue)) :
  NoDup (map fst ps) → NoDup (map fst (obj_set k v ps)) ∧
  ∀ k', k' ∈ map fst (obj_set k v ps) → k' = k ∨ k' ∈ map fst ps.
Proof.
  induction ps as [|[k1 v1] rest IH]; intros Hnd; cbn [obj_set].
  - split; [apply NoDup_singleton|].
    intros k' Hk'%list_elem_of_singleton. by left.
  - cbn [map fst] in Hnd. apply NoDup_cons in Hnd as [Hk1 Hrest].
    destruct (decide (k1 = k)) as [->|Hne]; cbn [map fst].
    + split; [by apply NoDup_cons|]. intros k' Hk'. by right.
    + destruct (IH Hrest) as [IH1 IH2]. split.
      * apply NoDup_cons. split; [|done].
        intros [?|?]%IH2; [congruence|done].
      * intros k' [->|Hk']%elem_of_cons.
        -- right. apply list_elem_of_here.
        -- destruct (IH2 k' Hk'); [by left|].
           right. by apply list_elem_of_further.
Qed.

Lemma obj_set_values (P : StorageValue → Prop) k v
    (ps : list (jsstring * StorageValue)) :
  P v → Forall (λ kx, P (snd kx)) ps →
  Forall (λ kx, P (snd kx)) (obj_set k v ps).
Proof.
  intros Hv. induction 1 as [|[k1 v1] rest H1 Hrest IH]; cbn [obj_set].
  - by constructor.
  - destruct (decide (k1 = k)); constructor; done.
Qed.

Lemma build_object_representable (ps : list (jsstring * StorageValue)) :
  Forall (λ kx, representable (snd kx)) ps → representable (build_object ps).
Proof.
  intros Hps. unfold build_object. apply representable_VObj.
  assert (∀ acc, NoDup (map fst acc) →
            Forall (λ kx, representable (snd kx)) acc →
            let r := fold_left (λ acc kv, obj_set (fst kv) (snd kv) acc)
                       ps acc in
            NoDup (map fst r) ∧ Forall (λ kx, representable (snd kx)) r)
    as H.
  { induction Hps as [|[k v] rest Hv Hrest IH]; intros acc Hnd Hacc; [done|].
    cbn [fold_left fst snd]. apply IH.
    - by apply obj_set_keys.
    - by apply obj_set_values. }
  apply (H []); constructor.
Qed.

(** Every value the parser returns is one [JSON.stringify] prints without
    loss. *)
Lemma parse_value_representable (fuel : nat) :
  (∀ s v r, parse_value fuel s = Some (v, r) → representable v) ∧
  (∀ s vs r, parse_elements fuel s = Some (vs, r) → Forall representable vs) ∧
  (∀ s ps r, parse_members fuel s = Some (ps, r) →
             Forall (λ kx, representable (snd kx)) ps).
Proof.
  induction fuel as [|f (IHv & IHe & IHm)]; [done|]. split_and!.
  - intros s v r. rewrite parse_value_S. intros H.
    repeat case_match; simplify_eq; try done;
      first [ apply representable_VArr; by eauto
            | apply build_object_representable; by eauto
            | apply representable_VObj; split; by constructor
            | cbn [representable]; by eapply parse_number_finite ].
  - intros s vs r. rewrite parse_elements_S. intros H.
    repeat case_match; simplify_eq; repeat constructor; eauto.
  - intros s ps r. rewrite parse_members_S. intros H.
    repeat case_match; simplify_eq; repeat constructor; cbn [snd]; eauto.
Qed.

Lemma parse_representable (s : jsstring) v :
  parse s = Some v → representable v.
Proof.
  unfold parse. intros H. repeat case_match; simplify_eq.
  by eapply (proj1 (parse_value_representable _)).
Qed.

(** [X24] What a hook reads, it can write back: when the decoding of a raw
    text is a number, a boolean, a list or a map, encoding that value and
    decoding the result gives the same value again, whatever the spelling of
    the raw text was (spacing, escapes, exponents, repeated names).  This is
    stated for the values that the model holds as the runtime does: every
    number in the decoded value has at most fifteen significant digits and an
    ordinary size (an integer below 10^15 in magnitude, or [m / 10^k] with [m]
    below 10^15 in magnitude and [k] at most 300), so that a double holds it
    and prints it back, and no map in it has a name made of digits only (the
    runtime lists such names first).  The sign of a zero is not told
    apart. *)
Theorem decoded_value_is_stable (raw : jsstring) :
  structured (parsed raw) →
  portable (parsed raw) →
  parsed (stringValue (parsed raw)) = parsed raw.
Proof.
  intros Hs _. revert Hs.
  assert (∀ v, parsed raw = v → structured v → parsed (stringValue v) = v)
    as H; [|by apply H].
  intros v E Hs. unfold parsed in E.
  destruct (parse raw) as [v'|] eqn:E'; [|by subst]. subst v'.
  pose proof (parse_representable raw v E') as Hrep.
  assert (stringValue v = stringify v) as -> by by destruct v.
  unfold parsed. by rewrite parse_stringify.
Qed.

(** [X24] at work: a raw text with blanks, an escape, an exponent and a
    repeated name. *)
Lemma decoded_value_is_stable_witness :
  let raw := str " { " ++ quoted (str "a") ++ str " : [ 1.50e1 , true ], "
             ++ quoted (str "a") ++ str " : 2 } " in
  parsed raw = VObj [(str "a", VNum (Int 2))] ∧
  parsed (stringValue (parsed raw)) = parsed raw.
Proof.
  intros raw. split; [reflexivity|].
  apply (decoded_value_is_stable raw); [exact I|].
  vm_compute. repeat split.
Defined.

(** Where the model of numbers leaves the runtime: it keeps the decimal
    [1e309] as it is, which no double holds (the runtime reads it as
    [Infinity] and writes [null]); such a value is not [portable]. *)
Example beyond_doubles :
  let raw := str "[1e309]" in
  parsed raw = VArr [VNum (Int (10 ^ 309))] ∧ ¬ portable (parsed raw).
Proof.
  split; [vm_compute; reflexivity|].
  intros [H _]. vm_compute in H. discriminate.
Qed.

End ReadbackFacts.
